(** * PMS-TOOL simulation engine: a shallow embedding of [src/utils/simulation.ts]
    and of the tick callback of [src/App.tsx], with the properties of the
    distance field, the route finder, the spot selector and the clock. *)

From Stdlib Require Import QArith Qround Ascii.
From stdpp Require Import gmap strings list pretty sorting.

Local Open Scope Z_scope.

(** ** Outcomes of a JavaScript call

    A call either returns a value, or throws a [TypeError] (a property read on
    [undefined]), or, in the model only, exhausts the fuel given to a [while]
    loop. *)

Inductive result (A : Type) : Type :=
  | Ok (a : A)
  | TypeError
  | OutOfFuel.
Arguments Ok {A} a.
Arguments TypeError {A}.
Arguments OutOfFuel {A}.

Definition rbind {A B} (m : result A) (k : A → result B) : result B :=
  match m with
  | Ok a => k a
  | TypeError => TypeError
  | OutOfFuel => OutOfFuel
  end.

Notation "'let*' x ':=' m 'in' k" := (rbind m (fun x => k))
  (at level 10, x pattern, m at level 100, k at level 200).

(** ** Data model ([types.ts]) *)

Inductive CellType :=
  | WALL | PATH | PARKING | ENTRY | EXIT | MALL | DISPLAY
  | ZONE_A | ZONE_B | ZONE_C | ZONE_D.

Inductive SpotType := STANDARD | COMPACT | EV | DISABLED | RESERVED.

Inductive WallType := NONE | SOLID.

Record GridEdges := mkEdges {
  north : option WallType;
  south : option WallType;
  east : option WallType;
  west : option WallType
}.

Record Point := mkPoint { px : Z; py : Z }.

(** The fields of [GridCell] the engine reads; optional fields are options
    ([None] is JavaScript's [undefined]). *)
Record GridCell := mkCell {
  type : CellType;
  rotation : Z;
  spotType : option SpotType;
  subMask : option (list (list Z));
  edges : option GridEdges;
  hasFlow : option bool
}.

Abbreviation Grid := (list (list GridCell)).

Global Instance CellType_eq_dec : EqDecision CellType.
Proof. solve_decision. Defined.
Global Instance SpotType_eq_dec : EqDecision SpotType.
Proof. solve_decision. Defined.
Global Instance WallType_eq_dec : EqDecision WallType.
Proof. solve_decision. Defined.
Global Instance Point_eq_dec : EqDecision Point.
Proof. solve_decision. Defined.

(** ** JavaScript helpers *)

(** [arr[i]] for an integer [i]: [undefined] outside [0 .. length-1]. *)
Definition js_index {A} (l : list A) (i : Z) : option A :=
  if decide (0 ≤ i) then l !! Z.to_nat i else None.

(** [grid[p.y][p.x]], where [None] stands for every way the read fails to
    produce a cell (row or cell [undefined]). *)
Definition cell_at (grid : Grid) (p : Point) : option GridCell :=
  match js_index grid (py p) with
  | Some row => js_index row (px p)
  | None => None
  end.

(** Truthiness of an optional boolean. *)
Definition truthy (o : option bool) : bool :=
  match o with Some true => true | _ => false end.

(** The set key [`${x},${y}`]. *)
Definition key (x y : Z) : string := pretty x +:+ "," +:+ pretty y.
Definition pkey (p : Point) : string := key (px p) (py p).

(** ** Route finder ([findPath]) *)

Inductive EdgeName := Enorth | Eeast | Esouth | Ewest.

Record Dir := mkDir {
  dx : Z; dy : Z; deg : Z; edge : EdgeName; oppEdge : EdgeName
}.

Definition directions : list Dir :=
  [ mkDir 0 (-1) 0 Enorth Esouth;
    mkDir 1 0 90 Eeast Ewest;
    mkDir 0 1 180 Esouth Enorth;
    mkDir (-1) 0 270 Ewest Eeast ].

Definition edge_get (e : GridEdges) (n : EdgeName) : option WallType :=
  match n with
  | Enorth => north e | Eeast => east e | Esouth => south e | Ewest => west e
  end.

(** [cell.edges && cell.edges[name] === WallType.SOLID] *)
Definition edge_solid (c : GridCell) (n : EdgeName) : bool :=
  match edges c with
  | Some e => bool_decide (edge_get e n = Some SOLID)
  | None => false
  end.

(** [allowedDegrees]: the rotation of a Path cell with flow, else [null]. *)
Definition allowed_degrees (currentCell : GridCell) : option Z :=
  if decide (type currentCell = PATH) then
    if truthy (hasFlow currentCell) then Some (rotation currentCell) else None
  else None.

(** [allowedDegrees !== null && allowedDegrees !== dir.deg] *)
Definition flow_blocks (allowedDegrees : option Z) (dir : Dir) : bool :=
  match allowedDegrees with
  | Some a => negb (bool_decide (a = deg dir))
  | None => false
  end.

(** The one-way test on the next cell (run only under [strictMode]). *)
Definition wrong_way (nextCell : GridCell) (dir : Dir) : bool :=
  bool_decide (type nextCell = PATH) && truthy (hasFlow nextCell)
  && bool_decide (Z.abs (rotation nextCell - deg dir) = 180).

(** Sub-mask test: more than half of the flattened mask equals 1. *)
Definition sub_mask_blocked (nextCell : GridCell) : bool :=
  match subMask nextCell with
  | Some m =>
      let flatMask := concat m in
      let solidCount := length (filter (λ v, v = 1) flatMask) in
      bool_decide (Z.of_nat (length flatMask) < 2 * Z.of_nat solidCount)
  | None => false
  end.

(** [isWalkable] as computed in step 5. *)
Definition is_walkable (strictMode : bool) (target : Point) (nextCell : GridCell)
    (nx ny : Z) : bool :=
  let isWalkable :=
    bool_decide (type nextCell = ENTRY) || bool_decide (type nextCell = EXIT)
    || (bool_decide (type nextCell = PARKING)
        && bool_decide (nx = px target) && bool_decide (ny = py target)) in
  if decide (type nextCell = PATH) then
    if strictMode then (if truthy (hasFlow nextCell) then true else false)
    else true
  else isWalkable.

(** One pass of the body of [for (const dir of directions)], up to the test
    of the visited set: [Ok None] is a [continue] (or a failed bounds or
    walkability test), [Ok (Some n)] a walkable neighbour. *)
Definition probe (grid : Grid) (width height : Z) (target : Point)
    (strictMode : bool) (pos : Point) (currentCell : GridCell)
    (allowedDegrees : option Z) (dir : Dir) : result (option Point) :=
  if flow_blocks allowedDegrees dir then Ok None else
  let nx := px pos + dx dir in
  let ny := py pos + dy dir in
  if bool_decide (0 ≤ nx ∧ nx < width ∧ 0 ≤ ny ∧ ny < height) then
    match js_index grid ny with
    | None => TypeError
    | Some row =>
        let nextCell := js_index row nx in
        let* against :=
          (if strictMode then
             match nextCell with
             | None => TypeError
             | Some nc => Ok (wrong_way nc dir)
             end
           else Ok false) in
        if (against : bool) then Ok None else
        if edge_solid currentCell (edge dir) then Ok None else
        match nextCell with
        | None => TypeError
        | Some nc =>
            if edge_solid nc (oppEdge dir) then Ok None else
            if sub_mask_blocked nc then Ok None else
            if is_walkable strictMode target nc nx ny
            then Ok (Some (mkPoint nx ny)) else Ok None
        end
    end
  else Ok None.

Abbreviation QEntry := (Point * list Point)%type.

(** The body of the [for] loop: probe, then enqueue when not yet visited. *)
Definition visit_dir (grid : Grid) (width height : Z) (target : Point)
    (strictMode : bool) (pos : Point) (path : list Point)
    (currentCell : GridCell) (allowedDegrees : option Z)
    (st : list QEntry * gset string) (dir : Dir)
    : result (list QEntry * gset string) :=
  let* r := probe grid width height target strictMode pos currentCell
                  allowedDegrees dir in
  match r with
  | None => Ok st
  | Some n =>
      if decide (pkey n ∈ st.2) then Ok st
      else Ok (st.1 ++ [(n, path ++ [n])], {[pkey n]} ∪ st.2)
  end.

Fixpoint visit_dirs (grid : Grid) (width height : Z) (target : Point)
    (strictMode : bool) (pos : Point) (path : list Point)
    (currentCell : GridCell) (allowedDegrees : option Z)
    (dirs : list Dir) (st : list QEntry * gset string)
    : result (list QEntry * gset string) :=
  match dirs with
  | [] => Ok st
  | dir :: dirs' =>
      let* st' := visit_dir grid width height target strictMode pos path
                            currentCell allowedDegrees st dir in
      visit_dirs grid width height target strictMode pos path currentCell
                 allowedDegrees dirs' st'
  end.

(** The [while (queue.length > 0)] loop, one unit of fuel per test of the
    loop condition. A cell is enqueued when it enters the visited set, and
    only cells inside the grid do, so [width * height + 2] tests are never
    exceeded. *)
Fixpoint findPath_loop (fuel : nat) (grid : Grid) (width height : Z)
    (target : Point) (strictMode : bool)
    (queue : list QEntry) (visited : gset string) : result (list Point) :=
  match fuel with
  | O => OutOfFuel
  | S fuel' =>
      match queue with
      | [] => Ok []
      | (pos, path) :: rest =>
          if decide (px pos = px target ∧ py pos = py target) then Ok path
          else
            match cell_at grid pos with
            | None => TypeError
            | Some currentCell =>
                let allowedDegrees := allowed_degrees currentCell in
                let* st := visit_dirs grid width height target strictMode pos
                             path currentCell allowedDegrees directions
                             (rest, visited) in
                findPath_loop fuel' grid width height target strictMode
                              st.1 st.2
            end
      end
  end.

Definition findPath (grid : Grid) (start target : Point) (strictMode : bool)
    : result (list Point) :=
  let height := length grid in
  match grid !! 0%nat with
  | None => TypeError
  | Some row0 =>
      let width := length row0 in
      findPath_loop (S (S (width * height))) grid
        (Z.of_nat width) (Z.of_nat height) target strictMode
        [(start, [start])] {[pkey start]}
  end.

(** ** Distance field ([generateMallDistanceMap]) *)

(** The values an element of [distMap] can hold: a number, [Infinity], [NaN],
    or nothing at all (a hole of an array extended by an out-of-range write,
    read back as [undefined]). *)
Inductive Dist := Num (n : Z) | Infinity | NaN | Undefined.

Global Instance Dist_eq_dec : EqDecision Dist.
Proof. solve_decision. Defined.

(** [v + 1] *)
Definition js_succ (v : Dist) : Dist :=
  match v with
  | Num n => Num (n + 1)
  | Infinity => Infinity
  | NaN | Undefined => NaN
  end.

(** [a > b] *)
Definition js_gt (a b : Dist) : bool :=
  match a, b with
  | Num x, Num y => bool_decide (y < x)
  | Infinity, Num _ => true
  | _, _ => false
  end.

(** [arr[i] = v] for [0 <= i]: in range it overwrites, out of range the array
    grows and the skipped indices stay holes. *)
Definition js_set (l : list Dist) (i : nat) (v : Dist) : list Dist :=
  if decide (i < length l)%nat then <[i:=v]> l
  else l ++ replicate (i - length l) Undefined ++ [v].

Abbreviation DistMap := (list (list Dist)).

(** [distMap[y][x]] *)
Definition dm_get (distMap : DistMap) (y x : Z) : result Dist :=
  match js_index distMap y with
  | None => TypeError
  | Some row => Ok (default Undefined (js_index row x))
  end.

(** [distMap[y][x] = v] for [0 <= x] *)
Definition dm_set (distMap : DistMap) (y x : Z) (v : Dist) : result DistMap :=
  match js_index distMap y with
  | None => TypeError
  | Some row => Ok (<[Z.to_nat y := js_set row (Z.to_nat x) v]> distMap)
  end.

(** [row.forEach((cell, x) => ...)] of the seeding pass, from column [x]. *)
Fixpoint seed_row (row : list GridCell) (x y : nat)
    (st : list Point * DistMap) : result (list Point * DistMap) :=
  match row with
  | [] => Ok st
  | cell :: row' =>
      let* st' :=
        (if decide (type cell = MALL) then
           let* d := dm_set st.2 (Z.of_nat y) (Z.of_nat x) (Num 0) in
           Ok (st.1 ++ [mkPoint (Z.of_nat x) (Z.of_nat y)], d)
         else Ok st) in
      seed_row row' (S x) y st'
  end.

(** [grid.forEach((row, y) => ...)] of the seeding pass, from row [y]. *)
Fixpoint seed_rows (rows : list (list GridCell)) (y : nat)
    (st : list Point * DistMap) : result (list Point * DistMap) :=
  match rows with
  | [] => Ok st
  | row :: rows' =>
      let* st' := seed_row row 0 y st in
      seed_rows rows' (S y) st'
  end.

Definition mall_directions : list (Z * Z) := [(0, 1); (0, -1); (1, 0); (-1, 0)].

(** One pass of the body of [for (const dir of directions)]. *)
Definition relax_dir (grid : Grid) (width height : Z) (pos : Point)
    (currentDist : Dist) (st : list Point * DistMap) (dir : Z * Z)
    : result (list Point * DistMap) :=
  let nx := px pos + dir.1 in
  let ny := py pos + dir.2 in
  if bool_decide (0 ≤ nx ∧ nx < width ∧ 0 ≤ ny ∧ ny < height) then
    match js_index grid ny with
    | None => TypeError
    | Some row =>
        match js_index row nx with
        | None => TypeError
        | Some cell =>
            let isObstacle := bool_decide (type cell = WALL) in
            if isObstacle then Ok st else
            let* old := dm_get st.2 ny nx in
            if js_gt old (js_succ currentDist) then
              let* d := dm_set st.2 ny nx (js_succ currentDist) in
              Ok (st.1 ++ [mkPoint nx ny], d)
            else Ok st
        end
    end
  else Ok st.

Fixpoint relax_dirs (grid : Grid) (width height : Z) (pos : Point)
    (currentDist : Dist) (dirs : list (Z * Z)) (st : list Point * DistMap)
    : result (list Point * DistMap) :=
  match dirs with
  | [] => Ok st
  | dir :: dirs' =>
      let* st' := relax_dir grid width height pos currentDist st dir in
      relax_dirs grid width height pos currentDist dirs' st'
  end.

Fixpoint mall_loop (fuel : nat) (grid : Grid) (width height : Z)
    (queue : list Point) (distMap : DistMap) : result DistMap :=
  match fuel with
  | O => OutOfFuel
  | S fuel' =>
      match queue with
      | [] => Ok distMap
      | pos :: rest =>
          let* currentDist := dm_get distMap (py pos) (px pos) in
          let* st := relax_dirs grid width height pos currentDist
                       mall_directions (rest, distMap) in
          mall_loop fuel' grid width height st.1 st.2
      end
  end.

(** [grid[0]?.length || 0] *)
Definition grid_width (grid : Grid) : nat :=
  match grid !! 0%nat with
  | Some row0 => length row0
  | None => 0
  end.

(** The fuel of the loop bounds the tests of its condition: a cell enters
    the queue as a seed or when its distance drops from [Infinity]. *)
Definition generateMallDistanceMap (grid : Grid) : result DistMap :=
  let height := length grid in
  let width := grid_width grid in
  let distMap := replicate height (replicate width Infinity) in
  let* st := seed_rows grid 0 ([], distMap) in
  mall_loop (S (length (concat grid) + width * height)) grid
            (Z.of_nat width) (Z.of_nat height) st.1 st.2.

(** ** Spot selector ([findBestSpot]) *)

Record DriverProfile := mkProfile {
  patience : Q;
  walkingPreference : Q;
  parkingDurationBias : Q
}.

(** [createDriverProfile], over its three [Math.random()] draws. *)
Definition createDriverProfile (r1 r2 r3 : Q) : DriverProfile :=
  mkProfile r1 (0.3 + r2 * 0.7)%Q (0.5 + r3 * 1.5)%Q.

(** The compatibility test of step 1. *)
Definition is_compatible (carType cellSpotType : SpotType) : bool :=
  match carType with
  | EV => bool_decide (cellSpotType = EV ∨ cellSpotType = STANDARD)
  | DISABLED => bool_decide (cellSpotType = DISABLED)
  | _ => bool_decide (cellSpotType = STANDARD ∨ cellSpotType = COMPACT)
  end.

Section SpotSelector.
(** The score is double-precision arithmetic over a [Math.random()] draw and
    a distance that may be [Infinity]; it is kept abstract, as a function
    of the profile, of [distToMall], of [distFromEntry] and of the number
    of draws already made in this call. [sort_by_score] is
    [candidates.sort((a, b) => a.score - b.score)]. *)
Context {Score : Type}.
Variable score : DriverProfile → Dist → Z → nat → Score.
Variable sort_by_score : list (Point * Score) → list (Point * Score).

(** [row.forEach((cell, x) => ...)], from column [x]. *)
Fixpoint spot_row (occupiedSpots : gset string) (entryPoint : Point)
    (carType : SpotType) (profile : DriverProfile)
    (mallDistanceMap : option DistMap)
    (row : list GridCell) (x y : nat) (candidates : list (Point * Score))
    : result (list (Point * Score)) :=
  match row with
  | [] => Ok candidates
  | cell :: row' =>
      let xz := Z.of_nat x in
      let yz := Z.of_nat y in
      let* candidates' :=
        (if bool_decide (type cell = PARKING)
            && negb (bool_decide (key xz yz ∈ occupiedSpots)) then
           let cellSpotType := default STANDARD (spotType cell) in
           if is_compatible carType cellSpotType then
             let* distToMall :=
               (match mallDistanceMap with
                | Some m => dm_get m yz xz
                | None => Ok (Num 0)
                end) in
             let distFromEntry :=
               Z.abs (xz - px entryPoint) + Z.abs (yz - py entryPoint) in
             Ok (candidates ++
                 [(mkPoint xz yz,
                   score profile distToMall distFromEntry
                         (length candidates))])
           else Ok candidates
         else Ok candidates) in
      spot_row occupiedSpots entryPoint carType profile mallDistanceMap
               row' (S x) y candidates'
  end.

(** [grid.forEach((row, y) => ...)], from row [y]. *)
Fixpoint spot_rows (occupiedSpots : gset string) (entryPoint : Point)
    (carType : SpotType) (profile : DriverProfile)
    (mallDistanceMap : option DistMap)
    (rows : list (list GridCell)) (y : nat)
    (candidates : list (Point * Score)) : result (list (Point * Score)) :=
  match rows with
  | [] => Ok candidates
  | row :: rows' =>
      let* candidates' :=
        spot_row occupiedSpots entryPoint carType profile mallDistanceMap
                 row 0 y candidates in
      spot_rows occupiedSpots entryPoint carType profile mallDistanceMap
                rows' (S y) candidates'
  end.

Definition findBestSpot (grid : Grid) (occupiedSpots : gset string)
    (entryPoint : Point) (carType : SpotType) (profile : DriverProfile)
    (mallDistanceMap : option DistMap) : result (option Point) :=
  let* candidates :=
    spot_rows occupiedSpots entryPoint carType profile mallDistanceMap
              grid 0 [] in
  match candidates with
  | [] => Ok None
  | _ =>
      match sort_by_score candidates with
      | c :: _ => Ok (Some c.1)
      | [] => TypeError
      end
  end.
End SpotSelector.

(** ** Entry and exit cells ([getEntryPoints], [getExitPoint]) *)

Fixpoint entries_row (row : list GridCell) (x y : nat) : list Point :=
  match row with
  | [] => []
  | cell :: row' =>
      (if decide (type cell = ENTRY)
       then [mkPoint (Z.of_nat x) (Z.of_nat y)] else [])
      ++ entries_row row' (S x) y
  end.

Fixpoint entries_rows (rows : list (list GridCell)) (y : nat) : list Point :=
  match rows with
  | [] => []
  | row :: rows' => entries_row row 0 y ++ entries_rows rows' (S y)
  end.

Definition getEntryPoints (grid : Grid) : list Point := entries_rows grid 0.

(** The inner [for] of [getExitPoint]: columns [x .. x+n-1] of [row];
    [Ok None] when the loop ends without a [return]. *)
Fixpoint exit_cols (row : list GridCell) (n : nat) (x y : nat)
    : result (option Point) :=
  match n with
  | O => Ok None
  | S n' =>
      match row !! x with
      | None => TypeError
      | Some cell =>
          if decide (type cell = EXIT)
          then Ok (Some (mkPoint (Z.of_nat x) (Z.of_nat y)))
          else exit_cols row n' (S x) y
      end
  end.

Fixpoint exit_rows (rows : list (list GridCell)) (width : nat) (y : nat)
    : result (option Point) :=
  match rows with
  | [] => Ok None
  | row :: rows' =>
      let* r := exit_cols row width 0 y in
      match r with
      | Some p => Ok (Some p)
      | None => exit_rows rows' width (S y)
      end
  end.

(** [grid[0].length] is read only when the outer loop runs at least once. *)
Definition getExitPoint (grid : Grid) : result (option Point) :=
  exit_rows grid (grid_width grid) 0.

(** ** Simulation clock (the [setCars] callback of the interval in [App.tsx])

    A car keeps the fields the clock reads or writes; [color] and
    [electricalCurrent] only feed the display and are left out, as is the
    [totalCars] statistic. *)

Inductive CarState := entering | parking | parked | exiting.

Global Instance CarState_eq_dec : EqDecision CarState.
Proof. solve_decision. Defined.

Record Car := mkCar {
  car_id : string;
  car_x : Z;
  car_y : Z;
  car_state : CarState;
  car_target : option Point;
  car_parkingTime : Z;
  car_type : SpotType;
  car_entryTick : Z;
  car_profile : DriverProfile;
  car_path : option (list Point)
}.

Definition set_path (c : Car) (p : list Point) : Car :=
  mkCar (car_id c) (car_x c) (car_y c) (car_state c) (car_target c)
        (car_parkingTime c) (car_type c) (car_entryTick c) (car_profile c)
        (Some p).

Definition set_pos (c : Car) (p : Point) : Car :=
  mkCar (car_id c) (px p) (py p) (car_state c) (car_target c)
        (car_parkingTime c) (car_type c) (car_entryTick c) (car_profile c)
        (car_path c).

Definition set_parking (c : Car) (t : Z) : Car :=
  mkCar (car_id c) (car_x c) (car_y c) parking (car_target c)
        t (car_type c) (car_entryTick c) (car_profile c) (car_path c).

Definition set_parkingTime (c : Car) (t : Z) : Car :=
  mkCar (car_id c) (car_x c) (car_y c) (car_state c) (car_target c)
        t (car_type c) (car_entryTick c) (car_profile c) (car_path c).

Definition set_exiting (c : Car) (exit : option Point) : Car :=
  mkCar (car_id c) (car_x c) (car_y c) exiting exit
        (car_parkingTime c) (car_type c) (car_entryTick c) (car_profile c)
        (car_path c).

(** The [Math.random()] draws of one tick and the fresh identity of a spawned
    car. [dwellRoll i] is the draw of the dwell time of the [i]-th car;
    [profileRolls] are the three draws of [createDriverProfile]. *)
Record TickDraws := mkDraws {
  spawnRoll : Q;
  entryRoll : Q;
  typeRoll : Q;
  dwellRoll : nat → Q;
  newId : string;
  profileRolls : Q * Q * Q
}.

Record SimState := mkSim {
  sim_tick : Z;
  sim_cars : list Car;
  sim_occupiedSpots : gset string
}.

Global Instance Qlt_decision (a b : Q) : Decision (a < b)%Q.
Proof. unfold Qlt. apply _. Defined.

(** [Math.floor((20 + Math.random() * 40) * car.profile.parkingDurationBias)] *)
Definition roll_parkingTime (r : Q) (car : Car) : Z :=
  Qfloor ((20 + r * 40) * parkingDurationBias (car_profile car))%Q.

(** The body of [prevCars.forEach(car => ...)]: the state is [nextCars] and
    the occupied set after the [setOccupiedSpots] updaters queued so far. *)
Definition step_car (grid : Grid) (exit : option Point) (strictFlow : bool)
    (r : Q) (car : Car) (st : list Car * gset string)
    : result (list Car * gset string) :=
  match car_state car with
  | entering | exiting =>
      match car_target car with
      | Some tgt =>
          let* path := findPath grid (mkPoint (car_x car) (car_y car)) tgt
                                strictFlow in
          let nextCar := set_path car path in
          if bool_decide (1 < length path)%nat then
            match path !! 1%nat with
            | Some p1 => Ok (st.1 ++ [set_pos nextCar p1], st.2)
            | None => TypeError
            end
          else if decide (car_state car = entering) then
            Ok (st.1 ++ [set_parking nextCar (roll_parkingTime r car)], st.2)
          else if decide (car_state car = exiting) then
            Ok st
          else Ok (st.1 ++ [nextCar], st.2)
      | None => Ok (st.1 ++ [car], st.2)
      end
  | parking =>
      let t := car_parkingTime car - 1 in
      if bool_decide (t ≤ 0) then
        Ok (st.1 ++ [set_exiting (set_parkingTime car t) exit],
            st.2 ∖ {[key (car_x car) (car_y car)]})
      else
        Ok (st.1 ++ [set_parkingTime car t],
            {[key (car_x car) (car_y car)]} ∪ st.2)
  | parked => Ok (st.1 ++ [car], st.2)
  end.

Fixpoint step_cars (grid : Grid) (exit : option Point) (strictFlow : bool)
    (rolls : nat → Q) (i : nat) (cars : list Car)
    (st : list Car * gset string) : result (list Car * gset string) :=
  match cars with
  | [] => Ok st
  | car :: cars' =>
      let* st' := step_car grid exit strictFlow (rolls i) car st in
      step_cars grid exit strictFlow rolls (S i) cars' st'
  end.

Section Clock.
Context {Score : Type}.
Variable score : DriverProfile → Dist → Z → nat → Score.
Variable sort_by_score : list (Point * Score) → list (Point * Score).

(** The spawn branch, after the [forEach]. [occupiedSpots] is the set the
    callback closed over (the one of the tick's start); [st.2] the set
    after the updaters queued by the cars. *)
Definition spawn (grid : Grid) (strictFlow : bool) (spawnRate : Q)
    (mallDistMap : option DistMap) (draws : TickDraws) (tick : Z)
    (prevCars : list Car) (occupiedSpots : gset string)
    (entries : list Point) (st : list Car * gset string)
    : result (list Car * gset string) :=
  let spawnChance := (spawnRate / 200)%Q in
  if bool_decide (0 < length entries)%nat
     && bool_decide (spawnRoll draws < spawnChance)%Q then
    match entries !! Z.to_nat (Qfloor (entryRoll draws
                                * inject_Z (Z.of_nat (length entries)))%Q) with
    | None => TypeError
    | Some spawnEntry =>
        let rand := typeRoll draws in
        let carType :=
          if bool_decide (rand < 0.1)%Q then EV
          else if bool_decide (rand < 0.15)%Q then DISABLED
          else STANDARD in
        let driverProfile :=
          createDriverProfile (profileRolls draws).1.1
                              (profileRolls draws).1.2
                              (profileRolls draws).2 in
        let* targetSpot :=
          findBestSpot score sort_by_score grid occupiedSpots spawnEntry
                       carType driverProfile mallDistMap in
        let isBlocked :=
          existsb (λ c, bool_decide (car_x c = px spawnEntry)
                        && bool_decide (car_y c = py spawnEntry)) prevCars in
        match targetSpot with
        | Some spot =>
            if isBlocked then Ok st else
            Ok (st.1 ++ [mkCar (newId draws) (px spawnEntry) (py spawnEntry)
                               entering (Some spot) 0 carType tick
                               driverProfile None],
                {[key (px spot) (py spot)]} ∪ st.2)
        | None => Ok st
        end
    end
  else Ok st.

(** One firing of the interval. *)
Definition tick (grid : Grid) (strictFlow : bool) (spawnRate : Q)
    (mallDistMap : option DistMap) (draws : TickDraws) (s : SimState)
    : result SimState :=
  let entries := getEntryPoints grid in
  let* exit := getExitPoint grid in
  let* st := step_cars grid exit strictFlow (dwellRoll draws) 0
               (sim_cars s) ([], sim_occupiedSpots s) in
  let* st' := spawn grid strictFlow spawnRate mallDistMap draws (sim_tick s)
                (sim_cars s) (sim_occupiedSpots s) entries st in
  Ok (mkSim (sim_tick s + 1) st'.1 st'.2).

Fixpoint run (grid : Grid) (strictFlow : bool) (spawnRate : Q)
    (mallDistMap : option DistMap) (draws : list TickDraws) (s : SimState)
    : result SimState :=
  match draws with
  | [] => Ok s
  | d :: draws' =>
      let* s' := tick grid strictFlow spawnRate mallDistMap d s in
      run grid strictFlow spawnRate mallDistMap draws' s'
  end.
End Clock.

(** ** Vocabulary of the properties *)

(** A rectangular grid: every row is as wide as the first one. *)
Definition rect (grid : Grid) : Prop :=
  Forall (λ row, length row = grid_width grid) grid.

Global Instance rect_dec grid : Decision (rect grid).
Proof. unfold rect. apply _. Defined.

(** [p] names a cell of the grid. *)
Definition in_grid (grid : Grid) (p : Point) : Prop :=
  0 ≤ px p < Z.of_nat (grid_width grid) ∧ 0 ≤ py p < Z.of_nat (length grid).

Global Instance in_grid_dec grid p : Decision (in_grid grid p).
Proof. unfold in_grid. apply _. Defined.

Definition move (p : Point) (d : Dir) : Point :=
  mkPoint (px p + dx d) (py p + dy d).

(** Orthogonal adjacency: one step up, right, down or left. *)
Definition adjacent (a b : Point) : Prop :=
  Z.abs (px b - px a) + Z.abs (py b - py a) = 1.

(** *** The traversal rules of the route finder, one by one *)

(** Rule 1, first sentence: a Path cell with flow is left along its rotation. *)
Definition rule_flow_exit (cur : GridCell) (d : Dir) : bool :=
  negb (flow_blocks (allowed_degrees cur) d).

(** The cell is a Path cell without an active flow. *)
Definition flowless_path (c : GridCell) : bool :=
  bool_decide (type c = PATH) && negb (truthy (hasFlow c)).

(** The cell is a Path cell whose flow points against direction [d]. *)
Definition opposing_flow (c : GridCell) (d : Dir) : Prop :=
  type c = PATH ∧ truthy (hasFlow c) = true
  ∧ Z.abs (rotation c - deg d) = 180.

(** Rule 2: not entering a flowed Path cell against its direction. *)
Definition rule_one_way (nxt : GridCell) (d : Dir) : bool :=
  negb (wrong_way nxt d).

(** Rule 3: no solid wall on the edge crossed, on either side. *)
Definition rule_edges (cur nxt : GridCell) (d : Dir) : bool :=
  negb (edge_solid cur (edge d)) && negb (edge_solid nxt (oppEdge d)).

(** Rule 4: the destination is not blocked by its sub-mask. *)
Definition rule_sub_mask (nxt : GridCell) : bool :=
  negb (sub_mask_blocked nxt).

(** Rule 5: the destination is walkable for this search. *)
Definition rule_walkable (strict : bool) (target : Point) (nxt : GridCell)
    (n : Point) : bool :=
  bool_decide (type nxt = ENTRY) || bool_decide (type nxt = EXIT)
  || (bool_decide (type nxt = PARKING) && bool_decide (n = target))
  || (bool_decide (type nxt = PATH) && (negb strict || truthy (hasFlow nxt))).

(** A move from [a] in direction [d] as the search accepts it: the
    destination lies in the grid and rules 1 to 5 hold, rule 2 being in force
    when [oneWay] is set. *)
Definition move_ok (oneWay : bool) (grid : Grid) (target : Point)
    (strict : bool) (a : Point) (d : Dir) : bool :=
  bool_decide (in_grid grid (move a d))
  && match cell_at grid a, cell_at grid (move a d) with
     | Some cur, Some nxt =>
         rule_flow_exit cur d
         && (negb oneWay || rule_one_way nxt d)
         && rule_edges cur nxt d
         && rule_sub_mask nxt
         && rule_walkable strict target nxt (move a d)
     | _, _ => false
     end.

(** The moves [findPath] explores: rule 2 is tested under [strictMode] only. *)
Definition legal_move (grid : Grid) (target : Point) (strict : bool)
    (a : Point) (d : Dir) : bool :=
  move_ok strict grid target strict a d.

Definition legal_step (grid : Grid) (target : Point) (strict : bool)
    (a b : Point) : Prop :=
  ∃ d, d ∈ directions ∧ b = move a d ∧ legal_move grid target strict a d = true.

(** The second sentence of rule 1: under strict flow a Path cell without flow
    has no legal exit, unless it is the start cell. *)
Definition rule_flowless_exit (grid : Grid) (start : Point) (strict : bool)
    (a : Point) : Prop :=
  strict = true →
  ∀ cur, cell_at grid a = Some cur → flowless_path cur = true → a = start.

(** A step that obeys the traversal rules of a search from [start] to
    [target]. With [oneWay := true] these are the rules as the specification
    words them (rule 2 whatever the mode); with [oneWay := strict] they are
    the rules with rule 2 in force under strict flow only. *)
Definition rules_step (oneWay : bool) (grid : Grid) (start target : Point)
    (strict : bool) (a b : Point) : Prop :=
  adjacent a b ∧ rule_flowless_exit grid start strict a
  ∧ ∃ d, d ∈ directions ∧ b = move a d
         ∧ move_ok oneWay grid target strict a d = true.

(** Every consecutive pair of [l] is related by [R]. *)
Fixpoint chain (R : Point → Point → Prop) (l : list Point) : Prop :=
  match l with
  | a :: l' =>
      match l' with
      | b :: _ => R a b ∧ chain R l'
      | [] => True
      end
  | [] => True
  end.

(** [l] is an ordered sequence of cells from [start] to [goal] whose
    consecutive pairs are related by [R]. *)
Definition route_of (R : Point → Point → Prop) (start goal : Point)
    (l : list Point) : Prop :=
  head l = Some start ∧ last l = Some goal ∧ chain R l.

(** Routes made of explored moves. *)
Definition is_route (grid : Grid) (start target : Point) (strict : bool)
    (goal : Point) (l : list Point) : Prop :=
  route_of (legal_step grid target strict) start goal l.

(** Legal routes of a search, for the rules as the code applies them and for
    the rules as the specification words them. *)
Definition legal_route (grid : Grid) (start target : Point) (strict : bool)
    (l : list Point) : Prop :=
  route_of (rules_step strict grid start target strict) start target l.

Definition spec_legal_route (grid : Grid) (start target : Point)
    (strict : bool) (l : list Point) : Prop :=
  route_of (rules_step true grid start target strict) start target l.

(** Routes grown at their end, the way the search builds them. *)
Inductive grown (R : Point → Point → Prop) (start : Point)
    : Point → list Point → Prop :=
  | grown_start : grown R start start [start]
  | grown_step a l b :
      grown R start a l → R a b → grown R start b (l ++ [b]).

(** A string without a comma. *)
Definition comma_free (s : string) : Prop :=
  ∀ s1 s2, s ≠ s1 +:+ String ","%char s2.

(** ** Invariants of the route search *)

(** Every queued entry carries a route grown from [start] to its cell. *)
Definition queue_sound (grid : Grid) (start target : Point) (strict : bool)
    (q : list QEntry) : Prop :=
  ∀ pos path, (pos, path) ∈ q →
    grown (legal_step grid target strict) start pos path.

(** ** Properties of a returned route *)

(** No step of [path] enters a Path cell whose flow points against the
    direction of travel. *)
Definition no_wrong_way_step (grid : Grid) (path : list Point) : Prop :=
  ∀ i a b cb d,
    path !! i = Some a → path !! S i = Some b →
    d ∈ directions → b = move a d →
    cell_at grid b = Some cb → ¬ opposing_flow cb d.

(** No cell of [path] after the first is a Path cell without flow. *)
Definition no_flowless_path_after_start (grid : Grid) (path : list Point)
    : Prop :=
  ∀ i p c,
    (0 < i)%nat → path !! i = Some p → cell_at grid p = Some c →
    flowless_path c = false.

(** Sample grids. *)
Definition plain_cell (t : CellType) : GridCell :=
  mkCell t 0 None None None None.

Definition flow_cell (r : Z) : GridCell :=
  mkCell PATH r None None None (Some true).

Definition dir_east : Dir := mkDir 1 0 90 Eeast Ewest.

(** An Entry cell followed by a Path cell whose flow points west. *)
Definition against_grid : Grid := [[plain_cell ENTRY; flow_cell 270]].

(** A Path cell without flow followed by an Entry cell. *)
Definition flowless_start_grid : Grid := [[plain_cell PATH; plain_cell ENTRY]].

(** The cells of a [w] by [h] grid, and those not yet in the visited set. *)
Definition all_cells (w h : nat) : list Point :=
  map (λ xy, mkPoint (Z.of_nat xy.1) (Z.of_nat xy.2))
      (list_prod (seq 0 w) (seq 0 h)).

Definition unvisited (cells : list Point) (v : gset string) : nat :=
  length (filter (λ p, pkey p ∉ v) cells).

(** The invariant of the [while] loop of [findPath]. [g] is a ghost: the
    number of cells of the route each visited cell was first reached by. *)
Definition closed_cell (grid : Grid) (target : Point) (strict : bool)
    (g : Point → nat) (v : gset string) (p : Point) : Prop :=
  p ≠ target
  ∧ ∀ d, d ∈ directions → legal_move grid target strict p d = true →
         pkey (move p d) ∈ v ∧ (g (move p d) ≤ S (g p))%nat.

Record bfs_inv (grid : Grid) (start target : Point) (strict : bool)
    (g : Point → nat) (q : list QEntry) (v : gset string) : Prop := {
  bi_start : pkey start ∈ v ∧ g start = 1%nat;
  bi_queue : ∀ pos path, (pos, path) ∈ q →
    grown (legal_step grid target strict) start pos path
    ∧ length path = g pos ∧ pkey pos ∈ v;
  bi_sorted : StronglySorted le ((λ e : QEntry, g e.1) <$> q);
  bi_span : ∀ e p, head q = Some e → pkey p ∈ v → (g p ≤ S (g e.1))%nat;
  bi_closed : ∀ p, pkey p ∈ v → p ∉ q.*1 →
    closed_cell grid target strict g v p;
  bi_in_grid : ∀ p, pkey p ∈ v → in_grid grid p
}.

(** The invariant of the [for] loop over the directions, while the cell [u]
    taken from the queue is expanded; [ds] are the directions already done. *)
Record mid_inv (grid : Grid) (start target : Point) (strict : bool)
    (u : Point) (pu : list Point) (ds : list Dir)
    (g : Point → nat) (q : list QEntry) (v : gset string) : Prop := {
  mi_start : pkey start ∈ v ∧ g start = 1%nat;
  mi_u : grown (legal_step grid target strict) start u pu
         ∧ length pu = g u ∧ pkey u ∈ v ∧ u ≠ target;
  mi_queue : ∀ pos path, (pos, path) ∈ q →
    grown (legal_step grid target strict) start pos path
    ∧ length path = g pos ∧ pkey pos ∈ v;
  mi_sorted : StronglySorted le ((λ e : QEntry, g e.1) <$> q);
  mi_low : ∀ e, e ∈ q → (g u ≤ g e.1)%nat;
  mi_span : ∀ p, pkey p ∈ v → (g p ≤ S (g u))%nat;
  mi_closed : ∀ p, pkey p ∈ v → p ≠ u → p ∉ q.*1 →
    closed_cell grid target strict g v p;
  mi_done : ∀ d, d ∈ ds → legal_move grid target strict u d = true →
    pkey (move u d) ∈ v ∧ (g (move u d) ≤ S (g u))%nat;
  mi_in_grid : ∀ p, pkey p ∈ v → in_grid grid p
}.

(** A 3 by 3 car park: the flow leads from the Entry cell around two Wall
    cells to the Parking cell. *)
Definition loop_grid : Grid :=
  [ [plain_cell ENTRY; flow_cell 90; flow_cell 180];
    [plain_cell WALL; plain_cell WALL; flow_cell 180];
    [plain_cell PARKING; flow_cell 270; flow_cell 270] ].

(** ** Vocabulary of the distance field *)

(** The element of the field at [p], when the field has one there. *)
Definition dist_at (d : DistMap) (p : Point) : option Dist :=
  match js_index d (py p) with
  | Some row => js_index row (px p)
  | None => None
  end.

(** A field of [h] rows of [w] elements. *)
Definition shape_ok (w h : nat) (d : DistMap) : Prop :=
  length d = h ∧ Forall (λ r, length r = w) d.

(** A cell of the grid that is not a Wall, and a Destination (Mall) cell. *)
Definition passable (grid : Grid) (p : Point) : Prop :=
  ∃ c, cell_at grid p = Some c ∧ type c ≠ WALL.

Definition is_mall (grid : Grid) (p : Point) : Prop :=
  ∃ c, cell_at grid p = Some c ∧ type c = MALL.

(** [l] is a walk from [p] to some Mall cell: consecutive cells are
    orthogonally adjacent and no cell of the walk is a Wall. *)
Definition walk_to_mall (grid : Grid) (p : Point) (l : list Point) : Prop :=
  head l = Some p
  ∧ (∃ m, last l = Some m ∧ is_mall grid m)
  ∧ Forall (passable grid) l
  ∧ chain adjacent l.

(** [n] is the least number of hops of a walk from [p] to a Mall cell. *)
Definition mall_distance (grid : Grid) (p : Point) (n : nat) : Prop :=
  (∃ l, walk_to_mall grid p l ∧ length l = S n)
  ∧ ∀ l, walk_to_mall grid p l → (S n ≤ length l)%nat.

Definition shift (p : Point) (dir : Z * Z) : Point :=
  mkPoint (px p + dir.1) (py p + dir.2).

(** Cells reached from a Mall cell in [n] hops, the way the search expands. *)
Inductive reach (grid : Grid) : Point → nat → Prop :=
  | reach_mall m : is_mall grid m → reach grid m 0
  | reach_step a b n dir :
      reach grid a n → dir ∈ mall_directions → b = shift a dir →
      passable grid b → reach grid b (S n).

Definition lvl (d : DistMap) (p : Point) : Z :=
  match dist_at d p with
  | Some (Num n) => n
  | _ => 0
  end.

Definition count_inf (cells : list Point) (d : DistMap) : nat :=
  length (filter (λ p, dist_at d p = Some Infinity) cells).

(** Every passable neighbour of [p] has a distance, at most one more. *)
Definition mall_closed (grid : Grid) (d : DistMap) (p : Point) : Prop :=
  ∀ n dir, dist_at d p = Some (Num n) → dir ∈ mall_directions →
    passable grid (shift p dir) →
    ∃ m, dist_at d (shift p dir) = Some (Num m) ∧ m ≤ n + 1.

(** What holds of every field the search goes through. *)
Record field_ok (grid : Grid) (d : DistMap) : Prop := {
  fo_shape : shape_ok (grid_width grid) (length grid) d;
  fo_values : ∀ p v, dist_at d p = Some v →
    v = Infinity ∨ ∃ n : nat, v = Num (Z.of_nat n) ∧ reach grid p n;
  fo_malls : ∀ p, is_mall grid p → dist_at d p = Some (Num 0)
}.

(** The invariant of the [while] loop of [generateMallDistanceMap]. *)
Record mall_inv (grid : Grid) (q : list Point) (d : DistMap) : Prop := {
  mv_field : field_ok grid d;
  mv_queue : ∀ p, p ∈ q → ∃ n, dist_at d p = Some (Num n);
  mv_sorted : StronglySorted Z.le (lvl d <$> q);
  mv_span : ∀ u p n, head q = Some u → dist_at d p = Some (Num n) →
    n ≤ lvl d u + 1;
  mv_closed : ∀ p, p ∉ q → mall_closed grid d p
}.

(** The invariant of its [for] loop, while [u] at distance [k] is expanded. *)
Record mall_mid (grid : Grid) (u : Point) (k : Z) (ds : list (Z * Z))
    (q : list Point) (d : DistMap) : Prop := {
  mm_field : field_ok grid d;
  mm_u : dist_at d u = Some (Num k);
  mm_queue : ∀ p, p ∈ q → ∃ n, dist_at d p = Some (Num n);
  mm_sorted : StronglySorted Z.le (lvl d <$> q);
  mm_low : ∀ p, p ∈ q → k ≤ lvl d p;
  mm_span : ∀ p n, dist_at d p = Some (Num n) → n ≤ k + 1;
  mm_closed : ∀ p, p ≠ u → p ∉ q → mall_closed grid d p;
  mm_done : ∀ dir, dir ∈ ds → passable grid (shift u dir) →
    ∃ m, dist_at d (shift u dir) = Some (Num m) ∧ m ≤ k + 1
}.

(** The invariant of the seeding pass: the cells before column [x] of row
    [y], in scan order, have been looked at. *)
Definition scanned (y x : nat) (p : Point) : Prop :=
  py p < Z.of_nat y ∨ (py p = Z.of_nat y ∧ px p < Z.of_nat x).

Record seed_inv (grid : Grid) (y x : nat) (q : list Point) (d : DistMap)
    : Prop := {
  si_shape : shape_ok (grid_width grid) (length grid) d;
  si_values : ∀ p v, dist_at d p = Some v →
    v = Infinity ∨ (v = Num 0 ∧ is_mall grid p ∧ scanned y x p);
  si_malls : ∀ p, is_mall grid p → scanned y x p →
    dist_at d p = Some (Num 0) ∧ p ∈ q;
  si_queue : ∀ p, p ∈ q → is_mall grid p
}.

(** [loop_grid] with a Mall cell in place of the Parking cell. *)
Definition mall_grid : Grid :=
  [ [plain_cell ENTRY; flow_cell 90; flow_cell 180];
    [plain_cell WALL; plain_cell WALL; flow_cell 180];
    [plain_cell MALL; flow_cell 270; flow_cell 270] ].

(** ** Vocabulary of the spot selector *)

(** The spot type a Parking cell counts as: [cell.spotType || STANDARD]. *)
Definition effective_spotType (cell : GridCell) : SpotType :=
  default STANDARD (spotType cell).

(** The compatibility table of the selector. *)
Definition compatible_per_table (carType st : SpotType) : Prop :=
  match carType with
  | EV => st = EV ∨ st = STANDARD
  | DISABLED => st = DISABLED
  | _ => st = STANDARD ∨ st = COMPACT
  end.

(** [p] is a Parking cell that is free and compatible with the preference. *)
Definition eligible (grid : Grid) (occupiedSpots : gset string)
    (carType : SpotType) (p : Point) : Prop :=
  ∃ cell, cell_at grid p = Some cell
          ∧ type cell = PARKING
          ∧ (pkey p ∉ occupiedSpots)
          ∧ is_compatible carType (effective_spotType cell) = true.

(** A sample scoring (the distance from the entry) and a sort by it. *)
Definition score_by_entry (_ : DriverProfile) (_ : Dist) (distFromEntry : Z)
    (_ : nat) : Z := distFromEntry.

Definition score_le (a b : Point * Z) : Prop := a.2 ≤ b.2.

Global Instance score_le_dec a b : Decision (score_le a b).
Proof. unfold score_le. apply _. Defined.

Definition sort_by_Z (l : list (Point * Z)) : list (Point * Z) :=
  merge_sort score_le l.

Definition spot_cell (st : option SpotType) : GridCell :=
  mkCell PARKING 0 st None None None.

(** Scenario B: an EV spot and a Disabled spot. *)
Definition scenario_B : Grid := [[spot_cell (Some EV); spot_cell (Some DISABLED)]].

Definition sample_profile : DriverProfile := mkProfile 0.5 0.5 1.

(** A Parking cell without a recorded spot type next to a Reserved one. *)
Definition untyped_grid : Grid := [[spot_cell None; spot_cell (Some RESERVED)]].

(** ** Vocabulary of the clock *)

Definition count_state (s : CarState) (cars : list Car) : nat :=
  length (filter (λ c, car_state c = s) cars).

(** An Entry cell walled off from the only Parking cell. *)
Definition blocked_grid : Grid :=
  [[plain_cell ENTRY; plain_cell WALL; plain_cell PARKING]].

(** Draws of a tick that spawns a Standard car, and of a tick that does not
    (with [spawnRate = 10] the spawn chance is 0.05). *)
Definition spawn_draws : TickDraws :=
  mkDraws 0 0 0.5 (λ _, 0%Q) "car" (0.5, 0.5, 0.5)%Q.

Definition idle_draws : TickDraws :=
  mkDraws 0.5 0 0.5 (λ _, 0%Q) "none" (0.5, 0.5, 0.5)%Q.

(** A car on the Entry cell of [blocked_grid], bound for the Parking cell. *)
Definition stuck_car (s : CarState) : Car :=
  mkCar "car" 0 0 s (Some (mkPoint 2 0)) 0 STANDARD 0 sample_profile None.


(** ** Further vocabulary of the route finder *)

(** Every queued route is free of repetitions and made of visited cells. *)
Definition queue_fresh (q : list QEntry) (v : gset string) : Prop :=
  ∀ pos path, (pos, path) ∈ q →
    NoDup path ∧ ∀ p, p ∈ path → pkey p ∈ v.

(** A cell a search towards [target] may step on: an Entry, an Exit or a
    Path cell, or the target itself when it is a Parking cell. *)
Definition steppable (grid : Grid) (target : Point) (p : Point) : Prop :=
  ∃ c, cell_at grid p = Some c
       ∧ (type c = ENTRY ∨ type c = EXIT ∨ type c = PATH
          ∨ (type c = PARKING ∧ p = target)).


(** Every step of [path] that leaves a Path cell with an active flow goes
    where the flow points. *)
Definition steps_follow_flow (grid : Grid) (path : list Point) : Prop :=
  ∀ i a b ca d,
    path !! i = Some a → path !! S i = Some b →
    cell_at grid a = Some ca →
    d ∈ directions → b = move a d →
    type ca = PATH → truthy (hasFlow ca) = true →
    rotation ca = deg d.

(** ** Further vocabulary of the grid scans *)

(** [p] comes before [q] when the grid is scanned row by row. *)
Definition scan_lt (p q : Point) : Prop :=
  py p < py q ∨ (py p = py q ∧ px p < px q).

Definition is_entry (grid : Grid) (p : Point) : Prop :=
  ∃ c, cell_at grid p = Some c ∧ type c = ENTRY.

Definition is_exit (grid : Grid) (p : Point) : Prop :=
  ∃ c, cell_at grid p = Some c ∧ type c = EXIT.

Global Instance score_le_trans : Transitive score_le.
Proof. unfold score_le. intros a b c. lia. Qed.

Global Instance score_le_total : Total score_le.
Proof. unfold score_le. intros a b. lia. Qed.

(** An Entry cell and an Exit cell around a Path cell. *)
Definition gate_grid : Grid :=
  [[plain_cell ENTRY; flow_cell 90; plain_cell EXIT]].

(** ** Further vocabulary of the clock *)

Definition car_pos (c : Car) : Point := mkPoint (car_x c) (car_y c).

(** The transitions of the lifecycle a tick can make a car take. *)
Definition lifecycle_step (s s' : CarState) : Prop :=
  match s with
  | entering => s' = entering ∨ s' = parking
  | parking => s' = parking ∨ s' = exiting
  | exiting => s' = exiting
  | parked => s' = parked
  end.

(** What a tick can turn car [c] into: the same car, after a transition of
    the lifecycle, either where it stood or, still Entering or Exiting, one
    orthogonal step further on a cell of the grid it may step on. *)
Definition car_next (grid : Grid) (c c' : Car) : Prop :=
  car_id c' = car_id c ∧ car_type c' = car_type c
  ∧ lifecycle_step (car_state c) (car_state c')
  ∧ (car_pos c' = car_pos c
     ∨ ((car_state c = entering ∨ car_state c = exiting)
        ∧ car_state c' = car_state c
        ∧ adjacent (car_pos c) (car_pos c')
        ∧ in_grid grid (car_pos c')
        ∧ ∃ tgt, car_target c = Some tgt ∧ steppable grid tgt (car_pos c'))).

(** The draw of a tick does not reach the spawn chance. *)
Definition no_spawn (spawnRate : Q) (d : TickDraws) : Prop :=
  ¬ (spawnRoll d < spawnRate / 200)%Q.

(** A car freshly spawned by a tick that started with [prevCars] and
    [occupiedSpots]. *)
Definition fresh_car (grid : Grid) (prevCars : list Car)
    (occupiedSpots : gset string) (tick : Z) (c : Car) (spot : Point) : Prop :=
  car_state c = entering ∧ car_target c = Some spot
  ∧ car_parkingTime c = 0 ∧ car_entryTick c = tick
  ∧ is_entry grid (car_pos c)
  ∧ (∀ c0, c0 ∈ prevCars → car_pos c0 ≠ car_pos c)
  ∧ (car_type c = EV ∨ car_type c = DISABLED ∨ car_type c = STANDARD)
  ∧ eligible grid occupiedSpots (car_type c) spot.

(** An Entry cell, a Path cell flowing east, two Parking cells and an Exit
    cell in a row. *)
Definition drive_grid : Grid :=
  [[plain_cell ENTRY; flow_cell 90; spot_cell None; spot_cell None;
    plain_cell EXIT]].

(** A car on the Path cell of [drive_grid], bound for the first Parking
    cell, and a car parking there for [t] more ticks. *)
Definition driving_car : Car :=
  mkCar "a" 1 0 entering (Some (mkPoint 2 0)) 0 STANDARD 0 sample_profile
        None.

Definition parked_car (t : Z) : Car :=
  mkCar "a" 2 0 parking (Some (mkPoint 2 0)) t STANDARD 0 sample_profile
        None.

(** [driving_car] on its way while its target is reserved. *)
Definition drive_state : SimState := mkSim 5 [driving_car] {[key 2 0]}.

(** ** Route search over a generated layout (second part of
    [src/utils/simulation.ts]: [findPath] on [CellData[][]] and
    [calculateFlowMap]) *)

Module Pathfinding.

Inductive Direction := UP | DOWN | LEFT | RIGHT.

Global Instance Direction_eq_dec : EqDecision Direction.
Proof. solve_decision. Defined.

(** The aliases of [CellType] this part of the code uses. *)
Abbreviation CAR_ENTRY := ENTRY.
Abbreviation CAR_EXIT := EXIT.
Abbreviation MALL_ENTRY := MALL.

(** [CellData], without its display label. *)
Record CellData := mkCellData {
  x : Z;
  y : Z;
  type : CellType;
  direction : option Direction;
  orientation : option Direction
}.

Record Step := mkStep { sx : Z; sy : Z; dir : Direction }.

Definition DIRECTIONS : list Step :=
  [ mkStep 0 (-1) UP; mkStep 1 0 RIGHT; mkStep 0 1 DOWN; mkStep (-1) 0 LEFT ].

(** The test on [cellType] that lets the search enter a cell. *)
Definition drivable (cellType : CellType) : bool :=
  bool_decide (cellType = PATH) || bool_decide (cellType = CAR_ENTRY)
  || bool_decide (cellType = CAR_EXIT) || bool_decide (cellType = MALL_ENTRY).

(** The body of [for (const d of DIRECTIONS)]. The cell is read only after
    the bounds and the visited set have been tested. *)
Definition visit_dir (grid : list (list CellData)) (width height : Z)
    (point : Point) (path : list Point) (st : list QEntry * gset string)
    (d : Step) : result (list QEntry * gset string) :=
  let nx := px point + sx d in
  let ny := py point + sy d in
  if bool_decide (0 ≤ nx ∧ nx < width ∧ 0 ≤ ny ∧ ny < height)
     && negb (bool_decide (key nx ny ∈ st.2)) then
    match js_index grid ny with
    | None => TypeError
    | Some row =>
        match js_index row nx with
        | None => TypeError
        | Some cell =>
            if drivable (type cell) then
              Ok (st.1 ++ [(mkPoint nx ny, path ++ [mkPoint nx ny])],
                  {[key nx ny]} ∪ st.2)
            else Ok st
        end
    end
  else Ok st.

Fixpoint visit_dirs (grid : list (list CellData)) (width height : Z)
    (point : Point) (path : list Point) (dirs : list Step)
    (st : list QEntry * gset string) : result (list QEntry * gset string) :=
  match dirs with
  | [] => Ok st
  | d :: dirs' =>
      let* st' := visit_dir grid width height point path st d in
      visit_dirs grid width height point path dirs' st'
  end.

(** The [while (queue.length > 0)] loop, one unit of fuel per test of the
    loop condition. *)
Fixpoint findPath_loop (fuel : nat) (grid : list (list CellData))
    (width height : Z) (end_ : Point) (queue : list QEntry)
    (visited : gset string) : result (list Point) :=
  match fuel with
  | O => OutOfFuel
  | S fuel' =>
      match queue with
      | [] => Ok []
      | (point, path) :: rest =>
          if decide (px point = px end_ ∧ py point = py end_) then Ok path
          else
            let* st := visit_dirs grid width height point path DIRECTIONS
                                  (rest, visited) in
            findPath_loop fuel' grid width height end_ st.1 st.2
      end
  end.

(** Only cells of the [width] by [height] box enter the visited set, each
    once, so the loop condition is tested at most [width * height + 2]
    times. *)
Definition findPath (grid : list (list CellData)) (start end_ : Point)
    (width height : Z) : result (list Point) :=
  findPath_loop (S (S (Z.to_nat width * Z.to_nat height))) grid width height
                end_ [(start, [start])] {[pkey start]}.

(** The direction [calculateFlowMap] gives to the step from [current] to
    [next]. *)
Definition step_dir (current next : Point) : Direction :=
  if decide (px current < px next) then RIGHT
  else if decide (px next < px current) then LEFT
  else if decide (py current < py next) then DOWN
  else if decide (py next < py current) then UP
  else RIGHT.

(** A [Map<string, Direction>]; the value [None] stands for an [undefined]
    stored through the non-null assertion. *)
Abbreviation FlowMap := (gmap string (option Direction)).

(** [for (let i = 0; i < path.length - 1; i++)], with [n] iterations left. *)
Fixpoint flow_loop (path : list Point) (n i : nat) (map : FlowMap)
    : result FlowMap :=
  match n with
  | O => Ok map
  | S n' =>
      match path !! i, path !! S i with
      | Some current, Some next =>
          flow_loop path n' (S i)
                    (<[pkey current := Some (step_dir current next)]> map)
      | _, _ => TypeError
      end
  end.

Definition calculateFlowMap (path : list Point) : result FlowMap :=
  let* map := flow_loop path (length path - 1) 0 ∅ in
  if bool_decide (1 < length path)%nat then
    match path !! (length path - 1)%nat, path !! (length path - 2)%nat with
    | Some last, Some prev =>
        Ok (<[pkey last := default None (map !! pkey prev)]> map)
    | _, _ => TypeError
    end
  else Ok map.

(** *** Vocabulary *)

(** The layout has a cell at every position of the [width] by [height]
    box: it has [height] rows at least, each of the first [height] with
    [width] cells at least. *)
Definition covers (grid : list (list CellData)) (width height : Z) : Prop :=
  (Z.to_nat height ≤ length grid)%nat
  ∧ Forall (λ row : list CellData, (Z.to_nat width ≤ length row)%nat)
           (take (Z.to_nat height) grid).

(** The cell one step in direction [d] from [p]. *)
Definition towards (p : Point) (d : Direction) : Point :=
  match d with
  | UP => mkPoint (px p) (py p - 1)
  | DOWN => mkPoint (px p) (py p + 1)
  | LEFT => mkPoint (px p - 1) (py p)
  | RIGHT => mkPoint (px p + 1) (py p)
  end.

(** A step the search can take from [a]: to an orthogonal neighbour inside
    the box whose cell is a Path, an Entry, an Exit or a Mall cell. *)
Definition drive_step (grid : list (list CellData)) (width height : Z)
    (a b : Point) : Prop :=
  (∃ d, b = towards a d)
  ∧ 0 ≤ px b < width ∧ 0 ≤ py b < height
  ∧ ∃ row cell, js_index grid (py b) = Some row
                ∧ js_index row (px b) = Some cell
                ∧ drivable (type cell) = true.

(** The invariant of the queue: every entry carries a route grown from
    [start] to its cell by such steps, without repetition, over visited
    cells. *)
Definition queue_ok (grid : list (list CellData)) (width height : Z)
    (start : Point) (q : list QEntry) (v : gset string) : Prop :=
  ∀ pos path, (pos, path) ∈ q →
    grown (drive_step grid width height) start pos path
    ∧ NoDup path ∧ ∀ p, p ∈ path → pkey p ∈ v.

(** The layout has exactly [height] rows of [width] cells. *)
Definition shaped (grid : list (list CellData)) (width height : Z) : Prop :=
  Z.of_nat (length grid) = height
  ∧ Forall (λ row : list CellData, Z.of_nat (length row) = width) grid.

(** The layout read as a grid of the simulation: a cell the search may enter
    keeps its kind, a Mall cell counting as an Entry, every other cell is a
    wall; there is no flow, no edge wall and no sub-mask. *)
Definition as_cell (c : CellData) : GridCell :=
  mkCell (if drivable (type c)
          then (if decide (type c = MALL) then ENTRY else type c)
          else WALL)
         0 None None None None.

Definition as_grid (grid : list (list CellData)) : Grid :=
  (λ row : list CellData, as_cell <$> row) <$> grid.

(** A layout of one row: an Entry, two Path cells and a Parking cell. *)
Definition lane : list (list CellData) :=
  [[mkCellData 0 0 CAR_ENTRY None None; mkCellData 1 0 PATH None None;
    mkCellData 2 0 PATH None None; mkCellData 3 0 PARKING None None]].

End Pathfinding.

(** A direction of the route finder and a step of the search over a layout
    that move alike. *)
Definition same_step (d : Dir) (d' : Pathfinding.Step) : Prop :=
  dx d = Pathfinding.sx d' ∧ dy d = Pathfinding.sy d'.

(** [p] lies in the [width] by [height] box. *)
Definition in_box (width height : Z) (p : Point) : Prop :=
  0 ≤ px p < width ∧ 0 ≤ py p < height.

Definition in_box_dec width height p : Decision (in_box width height p).
Proof. unfold in_box. apply _. Defined.

(** ** The undo / redo history of the editor ([App.tsx])

    The handlers are read as functions on the state of the render they were
    created in: [history], [redoStack], [grid] and [step] are among their
    dependencies, so the values they close over are the current ones. *)

Module Editor.

Inductive Step := upload | configure | processing | edit | simulate.

Global Instance Step_eq_dec : EqDecision Step.
Proof. solve_decision. Defined.

Record State := mkState {
  step : Step;
  grid : Grid;
  history : list Grid;
  redoStack : list Grid;
  cars : list Car;
  occupiedSpots : gset string
}.

Definition handleClearVehicles (s : State) : State :=
  mkState (step s) (grid s) (history s) (redoStack s) [] ∅.

Definition commitToHistory (prevGrid : Grid) (s : State) : State :=
  let newHistory := history s ++ [prevGrid] in
  mkState (step s) (grid s)
          (if bool_decide (50 < length newHistory)%nat
           then drop 1 newHistory else newHistory)
          [] (cars s) (occupiedSpots s).

(** [last] is [None] exactly when [history.length === 0]. *)
Definition handleUndo (s : State) : State :=
  match last (history s) with
  | None => s
  | Some previousGrid =>
      let s1 := if decide (step s = simulate) then handleClearVehicles s
                else s in
      mkState (step s1) previousGrid
              (take (length (history s) - 1) (history s))
              (grid s :: redoStack s) (cars s1) (occupiedSpots s1)
  end.

Definition handleRedo (s : State) : State :=
  match redoStack s with
  | [] => s
  | nextGrid :: rest =>
      let s1 := if decide (step s = simulate) then handleClearVehicles s
                else s in
      mkState (step s1) nextGrid (history s ++ [grid s]) rest
              (cars s1) (occupiedSpots s1)
  end.

Definition performAtomicEdit (action : Grid → Grid) (s : State) : State :=
  let s1 := commitToHistory (grid s) s in
  mkState (step s1) (action (grid s1)) (history s1) (redoStack s1)
          (cars s1) (occupiedSpots s1).

(** What the user can do to the history: undo, redo, commit a grid (the end
    of a drag, a resampling), an edit by a button, and a change of the grid
    that leaves the history alone (a drag in progress). *)
Inductive Action :=
  | Undo
  | Redo
  | Commit (prevGrid : Grid)
  | AtomicEdit (action : Grid → Grid)
  | SetGrid (newGrid : Grid).

Definition act (s : State) (a : Action) : State :=
  match a with
  | Undo => handleUndo s
  | Redo => handleRedo s
  | Commit prevGrid => commitToHistory prevGrid s
  | AtomicEdit action => performAtomicEdit action s
  | SetGrid newGrid =>
      mkState (step s) newGrid (history s) (redoStack s) (cars s)
              (occupiedSpots s)
  end.

Definition acts (s : State) (l : list Action) : State := foldl act s l.

(** The two stacks hold fifty grids at most. *)
Definition bounded (s : State) : Prop :=
  (length (history s) + length (redoStack s) ≤ 50)%nat.

(** A state in the editor with one grid to undo to and one to redo. *)
Definition sample : State :=
  mkState edit against_grid [flowless_start_grid] [blocked_grid] [] ∅.

End Editor.


(** * Properties *)

(** ** Outcomes *)

Lemma rbind_Ok {A B} (m : result A) (k : A → result B) b :
  rbind m k = Ok b → ∃ a, m = Ok a ∧ k a = Ok b.
Proof. destruct m; simpl; intros; eauto; discriminate. Qed.

Ltac inv_bind H :=
  let a := fresh "a" in
  let Ha := fresh "Ha" in
  apply rbind_Ok in H as (a & Ha & H).

(** ** Array reads *)

Lemma js_index_Some {A} (l : list A) i v :
  js_index l i = Some v ↔ 0 ≤ i ∧ l !! Z.to_nat i = Some v.
Proof. unfold js_index. case_decide; split; intros; try done; tauto. Qed.

Lemma js_index_lt {A} (l : list A) i v :
  js_index l i = Some v → 0 ≤ i < Z.of_nat (length l).
Proof.
  rewrite js_index_Some. intros [? H%lookup_lt_Some]. lia.
Qed.

Lemma js_index_is_Some {A} (l : list A) i :
  0 ≤ i < Z.of_nat (length l) → is_Some (js_index l i).
Proof.
  intros [? ?]. unfold js_index. rewrite decide_True by done.
  apply lookup_lt_is_Some. lia.
Qed.

Lemma cell_at_Some grid p c :
  cell_at grid p = Some c →
  ∃ row, js_index grid (py p) = Some row ∧ js_index row (px p) = Some c.
Proof.
  unfold cell_at. destruct (js_index grid (py p)) as [row|]; [eauto|done].
Qed.

Lemma rect_row grid y row :
  rect grid → js_index grid y = Some row → length row = grid_width grid.
Proof.
  intros Hr [_ H]%js_index_Some. unfold rect in Hr.
  rewrite Forall_forall in Hr. apply Hr. by eapply list_elem_of_lookup_2.
Qed.

Lemma cell_at_in_grid grid p :
  rect grid → in_grid grid p → is_Some (cell_at grid p).
Proof.
  intros Hr [Hx Hy]. unfold cell_at.
  destruct (js_index_is_Some grid (py p) Hy) as [row Hrow]. rewrite Hrow.
  apply js_index_is_Some. rewrite (rect_row _ _ _ Hr Hrow). done.
Qed.

Lemma grid_width_head (grid : Grid) row0 :
  grid !! 0%nat = Some row0 → grid_width grid = length row0.
Proof. unfold grid_width. by intros ->. Qed.

(** ** The key of a cell determines the cell *)

Lemma comma_free_String c s :
  c ≠ ","%char → comma_free s → comma_free (String c s).
Proof.
  intros Hc Hs [|c1 s1] s2; simpl; intros [= ? ?]; subst; [done|].
  by eapply Hs.
Qed.

Lemma comma_free_empty : comma_free "".
Proof. intros [|??] ?; done. Qed.

Lemma pretty_N_char_no_comma x : pretty_N_char x ≠ ","%char.
Proof. unfold pretty_N_char. by repeat case_match. Qed.

Lemma pretty_N_go_comma_free x s : comma_free s → comma_free (pretty_N_go x s).
Proof.
  revert s. induction (N.lt_wf_0 x) as [x _ IH]; intros s Hs.
  assert (x = 0 ∨ 0 < x)%N as [->|?] by lia.
  - by rewrite pretty_N_go_0.
  - rewrite pretty_N_go_step by done. apply IH.
    { by apply N.div_lt. }
    apply comma_free_String; [apply pretty_N_char_no_comma|done].
Qed.

Lemma pretty_N_comma_free (x : N) : comma_free (pretty x).
Proof.
  unfold pretty, pretty_N. case_decide.
  - apply comma_free_String; [done|apply comma_free_empty].
  - apply pretty_N_go_comma_free, comma_free_empty.
Qed.

Lemma pretty_Z_comma_free (x : Z) : comma_free (pretty x).
Proof.
  unfold pretty, pretty_Z. destruct x as [|p|p].
  - apply comma_free_String; [done|apply comma_free_empty].
  - apply pretty_N_comma_free.
  - apply comma_free_String; [done|apply pretty_N_comma_free].
Qed.

Lemma comma_split a a' b b' :
  comma_free a → comma_free a' →
  a +:+ String ","%char b = a' +:+ String ","%char b' → a = a' ∧ b = b'.
Proof.
  revert a'. induction a as [|c a IH]; intros [|c' a'] Ha Ha'; simpl.
  - by intros [= ->].
  - intros [= <- Hb]. by destruct (Ha' "" a').
  - intros [= -> Hb]. by destruct (Ha "" a).
  - intros [= -> Hb]. destruct (IH a') as [-> ->]; try done.
    + intros s1 s2 ->. by apply (Ha (String c' s1) s2).
    + intros s1 s2 ->. by apply (Ha' (String c' s1) s2).
Qed.

Lemma key_inj x y x' y' : key x y = key x' y' → x = x' ∧ y = y'.
Proof.
  unfold key. intros H.
  apply comma_split in H as [Hx Hy]; auto using pretty_Z_comma_free.
  split; by apply (inj pretty).
Qed.

Lemma pkey_inj p q : pkey p = pkey q → p = q.
Proof.
  destruct p, q. unfold pkey; simpl. intros [-> ->]%key_inj. done.
Qed.

(** ** One probe of the route finder decides a legal move *)

Lemma point_eq_iff nx ny (t : Point) :
  mkPoint nx ny = t ↔ nx = px t ∧ ny = py t.
Proof. destruct t; simpl. split; [by intros [= -> ->]|by intros [-> ->]]. Qed.

Lemma is_walkable_rule strict target nc nx ny :
  is_walkable strict target nc nx ny
  = rule_walkable strict target nc (mkPoint nx ny).
Proof.
  unfold is_walkable, rule_walkable.
  assert (bool_decide (mkPoint nx ny = target)
          = bool_decide (nx = px target) && bool_decide (ny = py target)) as ->.
  { rewrite <- bool_decide_and. apply bool_decide_ext, point_eq_iff. }
  destruct (type nc), strict, (truthy (hasFlow nc)); simpl;
    repeat case_decide; try done;
    rewrite ?andb_false_r, ?orb_false_r, ?andb_assoc; done.
Qed.

Lemma probe_Ok grid row0 target strict pos cur d r :
  grid !! 0%nat = Some row0 →
  cell_at grid pos = Some cur →
  probe grid (Z.of_nat (length row0)) (Z.of_nat (length grid)) target strict
        pos cur (allowed_degrees cur) d = Ok r →
  r = if legal_move grid target strict pos d then Some (move pos d) else None.
Proof.
  intros Hrow0 Hcur. unfold probe, legal_move, move_ok.
  rewrite Hcur. unfold rule_flow_exit, rule_one_way, rule_edges, rule_sub_mask.
  assert (bool_decide (in_grid grid (move pos d))
          = bool_decide (0 ≤ px pos + dx d ∧ px pos + dx d < Z.of_nat (length row0)
                         ∧ 0 ≤ py pos + dy d
                         ∧ py pos + dy d < Z.of_nat (length grid))) as ->.
  { apply bool_decide_ext. unfold in_grid.
    rewrite (grid_width_head _ _ Hrow0). simpl. lia. }
  destruct (flow_blocks _ _); simpl.
  { intros [= <-].
    destruct (cell_at grid (move pos d)); simpl; by rewrite andb_false_r. }
  case_bool_decide as Hb; [|by intros [= <-]].
  simpl.
  unfold cell_at, move; simpl.
  destruct (js_index grid _) as [row|]; [|done].
  destruct (js_index row _) as [nc|]; simpl.
  - rewrite is_walkable_rule.
    destruct strict; simpl.
    + destruct (wrong_way nc d); simpl; [by intros [= <-]|].
      destruct (edge_solid cur _); simpl; [by intros [= <-]|].
      destruct (edge_solid nc _); simpl; [by intros [= <-]|].
      destruct (sub_mask_blocked nc); simpl; [by intros [= <-]|].
      destruct (rule_walkable _ _ _ _); by intros [= <-].
    + destruct (edge_solid cur _); simpl; [by intros [= <-]|].
      destruct (edge_solid nc _); simpl; [by intros [= <-]|].
      destruct (sub_mask_blocked nc); simpl; [by intros [= <-]|].
      destruct (rule_walkable _ _ _ _); by intros [= <-].
  - destruct strict; simpl; [done|].
    destruct (edge_solid cur _); simpl; [by intros [= <-]|done].
Qed.

Lemma probe_defined grid row0 target strict pos cur d :
  rect grid →
  grid !! 0%nat = Some row0 →
  ∃ r, probe grid (Z.of_nat (length row0)) (Z.of_nat (length grid)) target
             strict pos cur (allowed_degrees cur) d = Ok r.
Proof.
  intros Hr Hrow0. unfold probe.
  destruct (flow_blocks _ _); [eauto|].
  case_bool_decide as Hb; [|eauto].
  destruct (js_index_is_Some grid (py pos + dy d)) as [row Hrow]; [lia|].
  rewrite Hrow.
  destruct (js_index_is_Some row (px pos + dx d)) as [nc Hnc].
  { rewrite (rect_row _ _ _ Hr Hrow), (grid_width_head _ _ Hrow0). lia. }
  rewrite Hnc. destruct strict; simpl.
  - destruct (wrong_way nc d); simpl; [eauto|].
    repeat (match goal with |- context [if ?b then _ else _] => destruct b end;
            eauto).
  - repeat (match goal with |- context [if ?b then _ else _] => destruct b end;
            eauto).
Qed.

Lemma legal_move_in_grid grid target strict a d :
  legal_move grid target strict a d = true → in_grid grid (move a d).
Proof.
  unfold legal_move, move_ok. intros [H _]%andb_prop.
  by apply bool_decide_eq_true in H.
Qed.

Lemma legal_move_source grid target strict a d :
  legal_move grid target strict a d = true → is_Some (cell_at grid a).
Proof.
  unfold legal_move, move_ok. intros [_ H]%andb_prop.
  destruct (cell_at grid a); [eauto|done].
Qed.

(** ** Routes: grown at the end, or read as a chain *)

Lemma chain_snoc R l a b :
  chain R l → last l = Some a → R a b → chain R (l ++ [b]).
Proof.
  induction l as [|x [|y l] IH]; simpl; intros Hc Hl HR.
  - done.
  - injection Hl as ->. done.
  - destruct Hc as [Hxy Hc]. split; [done|]. apply IH; done.
Qed.

Lemma grown_route_of R start goal l :
  grown R start goal l → route_of R start goal l.
Proof.
  induction 1 as [|a l b Hg (Hh & Hl & Hc) HR].
  - by repeat split.
  - repeat split.
    + destruct l; [done|]. done.
    + by rewrite last_snoc.
    + by eapply chain_snoc.
Qed.

Lemma chain_snoc_inv R l a b :
  chain R (l ++ [a; b]) → chain R (l ++ [a]) ∧ R a b.
Proof.
  induction l as [|x l IH]; simpl.
  - tauto.
  - destruct l as [|y l]; simpl in *; [tauto|].
    intros [Hxy Hc]. destruct (IH Hc) as [? ?]. tauto.
Qed.

Lemma route_of_grown R start goal l :
  route_of R start goal l → grown R start goal l.
Proof.
  revert goal. induction l as [|b l IH] using rev_ind; intros goal (Hh & Hl & Hc).
  - done.
  - rewrite last_snoc in Hl. injection Hl as ->.
    destruct l as [|x l' _] using rev_ind.
    + simpl in Hh. injection Hh as ->. constructor.
    + rewrite <- app_assoc in Hc. simpl in Hc.
      apply chain_snoc_inv in Hc as [Hc HR].
      apply grown_step with (a := x); [|done].
      apply IH. repeat split; [|by rewrite last_snoc|done].
      destruct l'; simpl in *; done.
Qed.

Lemma grown_length R start goal l :
  grown R start goal l → (1 ≤ length l)%nat.
Proof. destruct 1; rewrite ?length_app; simpl; lia. Qed.

(** ** Soundness of the search: what is queued or returned is a route *)

Lemma findPath_loop_S fuel grid width height target strictMode queue visited :
  findPath_loop (S fuel) grid width height target strictMode queue visited
  = match queue with
    | [] => Ok []
    | (pos, path) :: rest =>
        if decide (px pos = px target ∧ py pos = py target) then Ok path
        else
          match cell_at grid pos with
          | None => TypeError
          | Some currentCell =>
              let* st := visit_dirs grid width height target strictMode pos
                           path currentCell (allowed_degrees currentCell)
                           directions (rest, visited) in
              findPath_loop fuel grid width height target strictMode
                            st.1 st.2
          end
    end.
Proof. reflexivity. Qed.

Section Soundness.
Variables (grid : Grid) (row0 : list GridCell) (start target : Point)
          (strict : bool).
Hypothesis Hrow0 : grid !! 0%nat = Some row0.

Let gw := Z.of_nat (length row0).
Let gh := Z.of_nat (length grid).
Let R := legal_step grid target strict.

Lemma visit_dir_sound pos path cur q v q' v' d :
  cell_at grid pos = Some cur →
  grown R start pos path →
  d ∈ directions →
  queue_sound grid start target strict q →
  visit_dir grid gw gh target strict pos path cur (allowed_degrees cur)
            (q, v) d = Ok (q', v') →
  queue_sound grid start target strict q'.
Proof.
  intros Hcur Hg Hd Hq Hv. unfold visit_dir in Hv.
  inv_bind Hv. apply (probe_Ok _ _ _ _ _ _ _ _ Hrow0 Hcur) in Ha.
  destruct (legal_move grid target strict pos d) eqn:Hlm; subst a; simpl in Hv.
  - case_decide; injection Hv as <- <-; [done|].
    intros p pa [Hin|Hin%list_elem_of_singleton]%elem_of_app; [by apply Hq|].
    injection Hin as -> ->. eapply grown_step; [done|].
    exists d. done.
  - by injection Hv as <- <-.
Qed.

Lemma visit_dirs_sound pos path cur dirs q v q' v' :
  cell_at grid pos = Some cur →
  grown R start pos path →
  dirs ⊆ directions →
  queue_sound grid start target strict q →
  visit_dirs grid gw gh target strict pos path cur (allowed_degrees cur)
             dirs (q, v) = Ok (q', v') →
  queue_sound grid start target strict q'.
Proof.
  intros Hcur Hg. revert q v.
  induction dirs as [|d dirs IH]; intros q v Hsub Hq Hv; simpl in Hv.
  - by injection Hv as <- <-.
  - inv_bind Hv. destruct a as [q1 v1].
    eapply (IH q1 v1); [set_solver| |done].
    eapply visit_dir_sound; [done..| |done|done]. set_solver.
Qed.

Lemma findPath_loop_sound fuel q v path :
  queue_sound grid start target strict q →
  findPath_loop fuel grid gw gh target strict q v = Ok path →
  path = [] ∨ grown R start target path.
Proof.
  revert q v. induction fuel as [|fuel IH]; intros q v Hq Hl; [done|].
  rewrite findPath_loop_S in Hl.
  destruct q as [|[pos pa] rest]; [left; congruence|].
  destruct (decide _) as [Ht|Ht].
  - injection Hl as <-. right.
    assert (pos = target) as <-.
    { destruct pos, target; simpl in *. destruct Ht as [-> ->]. done. }
    apply Hq. left.
  - destruct (cell_at grid pos) as [cur|] eqn:Hcur; [|done].
    inv_bind Hl. destruct a as [q1 v1]. simpl in Hl.
    eapply IH; [|done].
    eapply (visit_dirs_sound pos pa); [done| |done| |done].
    + apply Hq. left.
    + intros p l Hin. apply Hq. by right.
Qed.
End Soundness.

Lemma findPath_sound grid start target strict path :
  findPath grid start target strict = Ok path →
  path = [] ∨ grown (legal_step grid target strict) start target path.
Proof.
  unfold findPath. destruct (grid !! 0%nat) as [row0|] eqn:Hrow0; [|done].
  apply findPath_loop_sound; [done|].
  intros pos pa Hin%list_elem_of_singleton. injection Hin as -> ->.
  constructor.
Qed.

(** ** Steps of a route *)

Lemma chain_lookup R l i a b :
  chain R l → l !! i = Some a → l !! S i = Some b → R a b.
Proof.
  revert i. induction l as [|x l IH]; intros i Hc Ha Hb; [done|].
  destruct l as [|y l]; [done|]. destruct Hc as [Hxy Hc].
  destruct i as [|i]; simpl in *.
  - by injection Ha as ->; injection Hb as ->.
  - by eapply IH.
Qed.

Lemma dir_unique a d d' :
  d ∈ directions → d' ∈ directions → move a d = move a d' → d = d'.
Proof.
  unfold directions, move. intros Hd Hd' [= Hx Hy].
  repeat (apply elem_of_cons in Hd as [->|Hd]);
    repeat (apply elem_of_cons in Hd' as [->|Hd']); simpl in *;
    try done; try lia; try (by apply elem_of_nil in Hd);
    by apply elem_of_nil in Hd'.
Qed.

Lemma wrong_way_false nxt d : wrong_way nxt d = false ↔ ¬ opposing_flow nxt d.
Proof.
  unfold wrong_way, opposing_flow. split.
  - intros Hw (Ht & Hf & Hr).
    rewrite bool_decide_true, Hf, bool_decide_true in Hw by done. done.
  - intros Hn. destruct (bool_decide (type nxt = PATH)) eqn:E1; [|done].
    destruct (truthy (hasFlow nxt)) eqn:E2; [|done].
    destruct (bool_decide (Z.abs _ = 180)) eqn:E3; [|done].
    apply bool_decide_eq_true in E1, E3. destruct Hn. done.
Qed.

Lemma legal_move_strict grid target a d :
  legal_move grid target true a d = true →
  ∃ nxt, cell_at grid (move a d) = Some nxt
         ∧ flowless_path nxt = false ∧ ¬ opposing_flow nxt d.
Proof.
  unfold legal_move, move_ok. intros [_ Hm]%andb_prop.
  destruct (cell_at grid a) as [cur|]; [|done].
  destruct (cell_at grid (move a d)) as [nxt|]; [|done].
  exists nxt. split; [done|].
  repeat (apply andb_prop in Hm as [Hm ?]).
  simpl in *. split.
  - unfold rule_walkable in *. unfold flowless_path.
    destruct (bool_decide (type nxt = PATH)) eqn:E; [|done].
    apply bool_decide_eq_true in E. rewrite E in *. simpl in *.
    by destruct (truthy (hasFlow nxt)).
  - apply wrong_way_false. unfold rule_one_way in *.
    by destruct (wrong_way nxt d).
Qed.

Lemma strict_route_steps grid start target goal path :
  grown (legal_step grid target true) start goal path →
  no_flowless_path_after_start grid path ∧ no_wrong_way_step grid path.
Proof.
  intros (_ & _ & Hc)%grown_route_of. split.
  - intros i p c Hi Hp Hcell. destruct i as [|i]; [lia|].
    destruct (path !! i) as [a|] eqn:Ha.
    2:{ apply lookup_ge_None in Ha. apply lookup_lt_Some in Hp. lia. }
    destruct (chain_lookup _ _ _ _ _ Hc Ha Hp) as (d & _ & -> & Hm).
    apply legal_move_strict in Hm as (nxt & Hn & Hf & _). congruence.
  - intros i a b cb d Ha Hb Hd -> Hcell.
    destruct (chain_lookup _ _ _ _ _ Hc Ha Hb) as (d' & Hd' & Heq & Hm).
    assert (d = d') as <- by by eapply dir_unique.
    apply legal_move_strict in Hm as (nxt & Hn & _ & Ho). congruence.
Qed.

(** ** Claims C5, C6, C8 and C9 *)

(** C5: under [strictFlow = true] a returned route never passes through a
    Path cell without an active flow, and no step of it enters a cell whose
    flow is opposite (180 degrees) to the direction of travel. Only the first
    cell of the route, the start cell, is exempt from the first property: a
    flowless Path cell may be left when the search starts on it. *)
Theorem strict_flow_route_respects_flow grid start target path :
  findPath grid start target true = Ok path →
  no_flowless_path_after_start grid path ∧ no_wrong_way_step grid path.
Proof.
  intros Hf. apply findPath_sound in Hf as [->|Hg].
  - split; intros i; intros; by rewrite lookup_nil in *.
  - by eapply strict_route_steps.
Qed.

(** The witness is the stated exception: the search starts on a flowless
    Path cell and leaves it. *)
Lemma strict_flow_route_respects_flow_witness :
  findPath flowless_start_grid (mkPoint 0 0) (mkPoint 1 0) true
    = Ok [mkPoint 0 0; mkPoint 1 0]
  ∧ (∃ c, cell_at flowless_start_grid (mkPoint 0 0) = Some c
          ∧ flowless_path c = true)
  ∧ no_flowless_path_after_start flowless_start_grid
      [mkPoint 0 0; mkPoint 1 0]
  ∧ no_wrong_way_step flowless_start_grid [mkPoint 0 0; mkPoint 1 0].
Proof.
  split; [vm_compute; reflexivity|].
  split; [eexists; split; vm_compute; reflexivity|].
  apply (strict_flow_route_respects_flow flowless_start_grid
           (mkPoint 0 0) (mkPoint 1 0)); vm_compute; reflexivity.
Defined.

(** C6, as stated, fails: without strict flow the one-way test is skipped, and
    the search steps east into a Path cell whose flow points west. *)
Lemma one_way_rule_skipped_without_strict_flow :
  findPath against_grid (mkPoint 0 0) (mkPoint 1 0) false
    = Ok [mkPoint 0 0; mkPoint 1 0]
  ∧ probe against_grid 2 1 (mkPoint 1 0) false (mkPoint 0 0)
          (plain_cell ENTRY) (allowed_degrees (plain_cell ENTRY)) dir_east
    = Ok (Some (mkPoint 1 0))
  ∧ opposing_flow (flow_cell 270) dir_east
  ∧ ¬ no_wrong_way_step against_grid [mkPoint 0 0; mkPoint 1 0].
Proof.
  assert (opposing_flow (flow_cell 270) dir_east) as Ho by (by vm_compute).
  split; [vm_compute; reflexivity|].
  split; [vm_compute; reflexivity|].
  split; [done|].
  intros Hn.
  apply (Hn 0%nat (mkPoint 0 0) (mkPoint 1 0) (flow_cell 270) dir_east);
    try done.
  unfold directions, dir_east. set_solver.
Qed.

Lemma probe_rejects_wrong_way grid width height target pos cur allowedDegrees
    d nxt :
  cell_at grid (move pos d) = Some nxt →
  opposing_flow nxt d →
  probe grid width height target true pos cur allowedDegrees d = Ok None.
Proof.
  intros Hcell Ho. unfold probe.
  destruct (flow_blocks _ _); [done|].
  case_bool_decide; [|done].
  apply cell_at_Some in Hcell as (row & Hrow & Hnc). simpl in *.
  rewrite Hrow, Hnc. simpl.
  destruct (wrong_way nxt d) eqn:Hw; [done|].
  by apply wrong_way_false in Hw.
Qed.

(** C6, amended: under [strictFlow = true] a candidate move whose destination
    is a Path cell with an active flow opposite (180 degrees) to the direction
    of travel is rejected: the probe fails and queue and visited set are left
    as they were; hence no route returned under strict flow contains a step
    that enters a flowed Path cell against its direction. *)
Theorem one_way_rule_under_strict_flow grid target :
  (∀ width height pos path cur allowedDegrees d nxt st,
     cell_at grid (move pos d) = Some nxt →
     opposing_flow nxt d →
     probe grid width height target true pos cur allowedDegrees d = Ok None
     ∧ visit_dir grid width height target true pos path cur allowedDegrees
                 st d = Ok st)
  ∧ (∀ start path,
       findPath grid start target true = Ok path →
       no_wrong_way_step grid path).
Proof.
  split.
  - intros width height pos path cur ad d nxt st Hcell Ho.
    pose proof (probe_rejects_wrong_way grid width height target pos cur ad d
                  nxt Hcell Ho) as Hp.
    split; [done|]. unfold visit_dir. by rewrite Hp.
  - intros start path Hf. apply findPath_sound in Hf as [->|Hg].
    + intros i; intros; by rewrite lookup_nil in *.
    + by eapply strict_route_steps.
Qed.

Lemma one_way_rule_under_strict_flow_witness :
  (probe against_grid 2 1 (mkPoint 1 0) true (mkPoint 0 0)
         (plain_cell ENTRY) None dir_east = Ok None
   ∧ visit_dir against_grid 2 1 (mkPoint 1 0) true (mkPoint 0 0)
       [mkPoint 0 0] (plain_cell ENTRY) None ([], {[pkey (mkPoint 0 0)]})
       dir_east = Ok ([], {[pkey (mkPoint 0 0)]}))
  ∧ no_wrong_way_step against_grid [].
Proof.
  destruct (one_way_rule_under_strict_flow against_grid (mkPoint 1 0))
    as [Hmove Hroute].
  split.
  - apply (Hmove 2 1 (mkPoint 0 0) [mkPoint 0 0] (plain_cell ENTRY) None
             dir_east (flow_cell 270)).
    + vm_compute; reflexivity.
    + vm_compute. repeat split; reflexivity.
  - apply (Hroute (mkPoint 0 0)). vm_compute; reflexivity.
Defined.

(** C9: on a grid that contains the cell, a search whose start equals its
    target returns the one-cell route, whatever the cell is (Wall, blocked by
    its sub-mask, a Parking spot, a flowless Path cell) and for both values
    of [strictFlow]. *)
Theorem findPath_start_equals_target grid start strict :
  in_grid grid start →
  findPath grid start start strict = Ok [start].
Proof.
  intros [_ Hy]. unfold findPath.
  destruct grid as [|row0 grid]; [simpl in Hy; lia|].
  simpl. rewrite decide_True; done.
Qed.

Lemma findPath_start_equals_target_witness :
  in_grid [[plain_cell WALL]] (mkPoint 0 0)
  ∧ findPath [[plain_cell WALL]] (mkPoint 0 0) (mkPoint 0 0) true
    = Ok [mkPoint 0 0].
Proof.
  assert (in_grid [[plain_cell WALL]] (mkPoint 0 0)) as Hin.
  { vm_compute. repeat split; intros; discriminate. }
  split; [exact Hin|].
  apply (findPath_start_equals_target [[plain_cell WALL]] (mkPoint 0 0) true
           Hin).
Defined.

(** C8: what the code does on a zero-sized grid. The distance field of a grid
    without rows, or whose rows are empty, is the empty field of the same
    shape; [findPath] reads [grid[0].length] and throws on a grid without
    rows, and on rows of zero width it throws on the first cell read unless
    start and target coincide. *)
Theorem zero_sized_grid_results n start target strict :
  generateMallDistanceMap (replicate n []) = Ok (replicate n [])
  ∧ findPath [] start target strict = TypeError
  ∧ findPath (replicate (S n) []) start target strict
    = if decide (px start = px target ∧ py start = py target)
      then Ok [start] else TypeError.
Proof.
  split; [|split].
  - unfold generateMallDistanceMap.
    assert (grid_width (replicate n ([] : list GridCell)) = 0%nat) as ->.
    { by destruct n. }
    assert (∀ m y st, seed_rows (replicate m []) y st = Ok st) as ->.
    { induction m as [|m IH]; intros; simpl; [done|apply IH]. }
    simpl. by rewrite length_replicate.
  - reflexivity.
  - unfold findPath. simpl. case_decide; [done|].
    unfold cell_at. destruct (js_index _ (py start)) as [row|] eqn:E; [|done].
    apply js_index_Some in E as [_ E].
    apply list_elem_of_lookup_2 in E.
    change ([] :: replicate n []) with (replicate (S n) ([] : list GridCell)) in E.
    apply elem_of_replicate in E as [-> _].
    unfold js_index. by case_decide.
Qed.


(** ** Termination of the route search *)

Lemma all_cells_length w h : length (all_cells w h) = (w * h)%nat.
Proof.
  unfold all_cells. by rewrite length_map, length_prod, !length_seq.
Qed.

Lemma all_cells_elem w h p :
  0 ≤ px p < Z.of_nat w → 0 ≤ py p < Z.of_nat h → p ∈ all_cells w h.
Proof.
  intros Hx Hy. unfold all_cells. apply list_elem_of_fmap.
  exists (Z.to_nat (px p), Z.to_nat (py p)). split.
  - destruct p; simpl in *. f_equal; lia.
  - apply list_elem_of_In, in_prod; apply in_seq; lia.
Qed.

Lemma unvisited_le cells v : (unvisited cells v ≤ length cells)%nat.
Proof. unfold unvisited. apply length_filter. Qed.

Lemma unvisited_mono cells v n :
  (unvisited cells ({[pkey n]} ∪ v) ≤ unvisited cells v)%nat.
Proof.
  unfold unvisited. induction cells as [|c cells IH]; [done|].
  rewrite !filter_cons. repeat case_decide; simpl; try lia.
  set_solver.
Qed.

Lemma unvisited_insert cells v n :
  n ∈ cells → pkey n ∉ v →
  (unvisited cells ({[pkey n]} ∪ v) < unvisited cells v)%nat.
Proof.
  unfold unvisited. induction cells as [|c cells IH]; intros Hin Hn.
  - by apply elem_of_nil in Hin.
  - rewrite !filter_cons. apply elem_of_cons in Hin as [<-|Hin].
    + rewrite decide_False by set_solver. rewrite decide_True by done.
      simpl. pose proof (unvisited_mono cells v n) as Hm.
      unfold unvisited in Hm. lia.
    + specialize (IH Hin Hn).
      repeat case_decide; simpl; try lia. set_solver.
Qed.

Lemma probe_not_OutOfFuel grid width height target strict pos cur ad d :
  probe grid width height target strict pos cur ad d ≠ OutOfFuel.
Proof.
  unfold probe.
  repeat (match goal with
          | |- context [if ?b then _ else _] => destruct b
          | |- context [match ?o with Some _ => _ | None => _ end] =>
              destruct o
          end; simpl; try done).
Qed.

Section Termination.
Variables (grid : Grid) (row0 : list GridCell) (target : Point)
          (strict : bool).
Hypothesis Hrow0 : grid !! 0%nat = Some row0.

Let gw := Z.of_nat (length row0).
Let gh := Z.of_nat (length grid).
Let cells := all_cells (length row0) (length grid).

Lemma visit_dir_measure pos path cur q v d r :
  cell_at grid pos = Some cur →
  visit_dir grid gw gh target strict pos path cur (allowed_degrees cur)
            (q, v) d = r →
  r = TypeError
  ∨ ∃ q' v', r = Ok (q', v')
      ∧ (length q' + unvisited cells v' ≤ length q + unvisited cells v)%nat.
Proof.
  intros Hcur <-. unfold visit_dir.
  destruct (probe grid gw gh target strict pos cur (allowed_degrees cur) d)
    as [r| |] eqn:Hp; simpl; [|by left|by apply probe_not_OutOfFuel in Hp].
  right. apply (probe_Ok _ _ _ _ _ _ _ _ Hrow0 Hcur) in Hp.
  destruct (legal_move grid target strict pos d) eqn:Hlm; subst r.
  - case_decide as Hv; [by eauto|].
    eexists _, _. split; [done|]. rewrite length_app. simpl.
    apply legal_move_in_grid in Hlm as [Hx Hy].
    rewrite (grid_width_head _ _ Hrow0) in Hx.
    pose proof (unvisited_insert cells v (move pos d)
                  (all_cells_elem _ _ _ Hx Hy) Hv). lia.
  - by eauto.
Qed.

Lemma visit_dirs_measure pos path cur dirs q v r :
  cell_at grid pos = Some cur →
  visit_dirs grid gw gh target strict pos path cur (allowed_degrees cur)
             dirs (q, v) = r →
  r = TypeError
  ∨ ∃ q' v', r = Ok (q', v')
      ∧ (length q' + unvisited cells v' ≤ length q + unvisited cells v)%nat.
Proof.
  intros Hcur. revert q v r.
  induction dirs as [|d dirs IH]; intros q v r <-; simpl.
  - right. by eauto.
  - destruct (visit_dir_measure pos path cur q v d _ Hcur eq_refl)
      as [->|(q1 & v1 & -> & Hle)]; [by left|]. simpl.
    destruct (IH q1 v1 _ eq_refl) as [->|(q2 & v2 & -> & Hle2)];
      [by left|].
    right. eexists _, _. split; [done|lia].
Qed.

Lemma findPath_loop_fuel fuel q v :
  (length q + unvisited cells v < fuel)%nat →
  findPath_loop fuel grid gw gh target strict q v ≠ OutOfFuel.
Proof.
  revert q v. induction fuel as [|fuel IH]; intros q v Hlt; [lia|].
  rewrite findPath_loop_S. destruct q as [|[pos pa] rest]; [done|].
  destruct (decide _); [done|].
  destruct (cell_at grid pos) as [cur|] eqn:Hcur; [|done].
  destruct (visit_dirs_measure pos pa cur directions rest v _ Hcur eq_refl)
    as [->|(q1 & v1 & -> & Hle)]; [done|].
  simpl. apply IH. simpl in Hlt. lia.
Qed.
End Termination.

Lemma findPath_terminates grid start target strict :
  findPath grid start target strict ≠ OutOfFuel.
Proof.
  unfold findPath. destruct (grid !! 0%nat) as [row0|] eqn:Hrow0; [|done].
  apply findPath_loop_fuel; [done|]. simpl.
  pose proof (unvisited_le (all_cells (length row0) (length grid))
                {[pkey start]}) as Hle.
  rewrite all_cells_length in Hle. lia.
Qed.

(** ** The invariant of the search *)

Lemma StronglySorted_snoc (l : list nat) x :
  StronglySorted le l → Forall (λ y, (y ≤ x)%nat) l →
  StronglySorted le (l ++ [x]).
Proof.
  induction 1 as [|a l Hs IH Ha]; intros Hall; simpl.
  - repeat constructor.
  - apply Forall_cons in Hall as [Hax Hall]. constructor; [by apply IH|].
    apply Forall_app. split; [done|]. by constructor.
Qed.

Lemma visited_grow (v : gset string) k k' : k ∈ v → k ∈ {[k']} ∪ v.
Proof. intros Hk. apply elem_of_union. by right. Qed.

Lemma visited_new (v : gset string) k : k ∈ {[k]} ∪ v.
Proof. apply elem_of_union. left. by apply elem_of_singleton. Qed.

Section Search.
Variables (grid : Grid) (row0 : list GridCell) (start target : Point)
          (strict : bool).
Hypothesis Hrow0 : grid !! 0%nat = Some row0.
Hypothesis Hrect : rect grid.

Let gw := Z.of_nat (length row0).
Let gh := Z.of_nat (length grid).
Let R := legal_step grid target strict.

Lemma mid_init g u pu rest v :
  bfs_inv grid start target strict g ((u, pu) :: rest) v →
  u ≠ target →
  mid_inv grid start target strict u pu [] g rest v.
Proof.
  intros [Hs Hq Hsort Hspan Hcl Hin] Hu.
  destruct (Hq u pu) as (Hg & Hlen & Hv); [left|].
  simpl in Hsort. apply StronglySorted_inv in Hsort as [Hsort Hlow].
  split; try done.
  - intros pos path Hpos. apply Hq. by right.
  - intros e He. rewrite Forall_forall in Hlow. apply Hlow.
    by apply (list_elem_of_fmap_2 (λ e : QEntry, g e.1)).
  - intros p Hp. by apply (Hspan (u, pu)).
  - intros p Hp Hne Hnq. apply Hcl; [done|].
    rewrite fmap_cons, not_elem_of_cons. done.
  - intros d Hd. by apply elem_of_nil in Hd.
Qed.

Lemma mid_final g u pu ds q v :
  mid_inv grid start target strict u pu ds g q v →
  directions ⊆ ds →
  bfs_inv grid start target strict g q v.
Proof.
  intros [Hs (Hg & Hlen & Hv & Hne) Hq Hsort Hlow Hspan Hcl Hdone Hin] Hds.
  split; try done.
  - intros e p He Hp. specialize (Hspan p Hp).
    assert (e ∈ q) as Heq by (destruct q; simplify_eq/=; left).
    specialize (Hlow e Heq). lia.
  - intros p Hp Hnq. destruct (decide (p = u)) as [->|Hpu].
    + split; [done|]. intros d Hd Hlm. apply Hdone; [by apply Hds|done].
    + by apply Hcl.
Qed.

Lemma mid_step g u pu cur ds q v d :
  cell_at grid u = Some cur →
  d ∈ directions →
  mid_inv grid start target strict u pu ds g q v →
  ∃ q' v' g',
    visit_dir grid gw gh target strict u pu cur (allowed_degrees cur)
              (q, v) d = Ok (q', v')
    ∧ mid_inv grid start target strict u pu (d :: ds) g' q' v'.
Proof.
  intros Hcur Hd Hmid.
  destruct Hmid as
    [Hs (Hg & Hlen & Hv & Hne) Hq Hsort Hlow Hspan Hcl Hdone Hin].
  unfold visit_dir.
  destruct (probe_defined grid row0 target strict u cur d Hrect Hrow0)
    as [r Hp].
  fold gw gh in Hp. rewrite Hp. simpl.
  apply (probe_Ok _ _ _ _ _ _ _ _ Hrow0 Hcur) in Hp.
  destruct (legal_move grid target strict u d) eqn:Hlm; subst r.
  2:{ exists q, v, g. split; [done|]. split; try done.
      intros d' [->|Hd']%elem_of_cons Hlm'; [congruence|by apply Hdone]. }
  set (n := move u d).
  case_decide as Hnv.
  { exists q, v, g. split; [done|]. split; try done.
    intros d' [->|Hd']%elem_of_cons Hlm'; [|by apply Hdone].
    split; [done|]. by apply Hspan. }
  set (g' := λ p, if decide (p = n) then S (g u) else g p).
  assert (Hfresh : ∀ p, pkey p ∈ v → g' p = g p).
  { intros p Hpv. unfold g'. case_decide; [|done]. subst p. done. }
  assert (Hgn : g' n = S (g u)).
  { unfold g'. by rewrite decide_True. }
  assert (Hold : ∀ p, pkey p ∈ {[pkey n]} ∪ v → p ≠ n → pkey p ∈ v).
  { intros p [Hpn%elem_of_singleton|Hpv]%elem_of_union Hpne; [|done].
    by apply pkey_inj in Hpn. }
  exists (q ++ [(n, pu ++ [n])]), ({[pkey n]} ∪ v), g'.
  split; [done|]. split.
  - destruct Hs as [Hsv Hs1]. split; [by apply visited_grow|].
    by rewrite Hfresh.
  - rewrite (Hfresh u Hv). repeat split; try done. by apply visited_grow.
  - intros pos path [Hpos|Hpos%list_elem_of_singleton]%elem_of_app.
    + destruct (Hq pos path Hpos) as (Hg1 & Hl1 & Hv1).
      rewrite (Hfresh pos Hv1). repeat split; try done.
      by apply visited_grow.
    + injection Hpos as -> ->. repeat split.
      * eapply grown_step; [done|]. by exists d.
      * rewrite length_app, Hgn. simpl. lia.
      * apply visited_new.
  - rewrite fmap_app. simpl. rewrite Hgn.
    assert ((λ e : QEntry, g' e.1) <$> q = (λ e : QEntry, g e.1) <$> q)
      as ->.
    { apply list_fmap_ext. intros i [pos path] Hpos. simpl.
      apply Hfresh. apply (Hq pos path). by eapply list_elem_of_lookup_2. }
    apply StronglySorted_snoc; [done|].
    apply Forall_forall. intros y Hy.
    apply list_elem_of_fmap in Hy as ([pos path] & -> & Hpos). simpl.
    apply Hspan. by apply (Hq pos path).
  - rewrite (Hfresh u Hv).
    intros e [He|He%list_elem_of_singleton]%elem_of_app.
    + destruct e as [pos path]. simpl.
      rewrite (Hfresh pos); [by apply (Hlow (pos, path))|].
      by apply (Hq pos path).
    + subst e. simpl. rewrite Hgn. lia.
  - rewrite (Hfresh u Hv). intros p Hp.
    destruct (decide (p = n)) as [->|Hpn]; [rewrite Hgn; lia|].
    rewrite Hfresh by auto. auto.
  - intros p Hp Hpu Hpq.
    assert (p ≠ n) as Hpn.
    { intros ->. apply Hpq. rewrite fmap_app. apply elem_of_app. right.
      simpl. left. }
    assert (pkey p ∈ v) as Hpv by auto.
    destruct (Hcl p Hpv Hpu) as [Hpt Hsucc].
    { intros Hc. apply Hpq. rewrite fmap_app. apply elem_of_app. by left. }
    split; [done|]. intros d' Hd' Hlm'.
    destruct (Hsucc d' Hd' Hlm') as [Hmv Hmg].
    split; [by apply visited_grow|]. rewrite !Hfresh by done. done.
  - rewrite (Hfresh u Hv).
    intros d' [->|Hd']%elem_of_cons Hlm'.
    + fold n. rewrite Hgn. split; [apply visited_new|lia].
    + destruct (Hdone d' Hd' Hlm') as [Hmv Hmg].
      split; [by apply visited_grow|]. by rewrite Hfresh.
  - intros p Hp. destruct (decide (p = n)) as [->|Hpn].
    + by apply legal_move_in_grid in Hlm.
    + auto.
Qed.

Lemma mid_steps g u pu cur dirs ds q v :
  cell_at grid u = Some cur →
  dirs ⊆ directions →
  mid_inv grid start target strict u pu ds g q v →
  ∃ q' v' g' ds',
    visit_dirs grid gw gh target strict u pu cur (allowed_degrees cur)
               dirs (q, v) = Ok (q', v')
    ∧ dirs ⊆ ds' ∧ ds ⊆ ds'
    ∧ mid_inv grid start target strict u pu ds' g' q' v'.
Proof.
  intros Hcur. revert ds g q v.
  induction dirs as [|d dirs IH]; intros ds g q v Hsub Hmid; simpl.
  - exists q, v, g, ds. split; [done|]. split; [set_solver|done].
  - destruct (mid_step g u pu cur ds q v d Hcur)
      as (q1 & v1 & g1 & -> & Hm1); [set_solver|done|].
    simpl. destruct (IH (d :: ds) g1 q1 v1)
      as (q2 & v2 & g2 & ds2 & -> & Hs2 & Hs3 & Hm2); [set_solver|done|].
    exists q2, v2, g2, ds2. split; [done|]. split.
    { intros x [->|Hx]%elem_of_cons; [apply Hs3; left|by apply Hs2]. }
    split; [|done]. intros x Hx. apply Hs3. by right.
Qed.

(** Routes only reach visited cells once every visited cell is closed. *)
Lemma closed_reach g v c l :
  pkey start ∈ v →
  (∀ p, pkey p ∈ v → closed_cell grid target strict g v p) →
  grown R start c l → pkey c ∈ v.
Proof.
  intros Hs Hcl. induction 1 as [|a l b Hg IH (d & Hd & -> & Hlm)]; [done|].
  by apply (Hcl a IH).
Qed.

(** While the queue is not empty, a route either ends in a visited cell
    that was reached by no more cells, or is at least as long as the route
    of the head of the queue. *)
Lemma reach_bound g u pu rest v c l :
  bfs_inv grid start target strict g ((u, pu) :: rest) v →
  grown R start c l →
  (pkey c ∈ v ∧ g c ≤ length l)%nat ∨ (g u ≤ length l)%nat.
Proof.
  intros [Hs Hq Hsort Hspan Hcl Hin].
  induction 1 as [|a l b Hg IH (d & Hd & -> & Hlm)].
  - left. destruct Hs as [? ->]. done.
  - rewrite length_app. simpl.
    destruct IH as [[Hav Hag]|Hu]; [|right; lia].
    destruct (decide (a ∈ ((u, pu) :: rest).*1)) as [Haq|Haq].
    + right. simpl in Hsort.
      apply StronglySorted_inv in Hsort as [_ Hlow].
      rewrite Forall_forall in Hlow.
      rewrite fmap_cons in Haq. apply elem_of_cons in Haq as [->|Haq];
        [simpl in *; lia|].
      apply list_elem_of_fmap in Haq as ([pos path] & -> & Hpos).
      simpl in *.
      assert (g u ≤ g pos)%nat; [|lia].
      apply Hlow. by apply (list_elem_of_fmap_2 (λ e : QEntry, g e.1) _ (pos, path)).
    + left. destruct (Hcl a Hav Haq) as [_ Hsucc].
      destruct (Hsucc d Hd Hlm). split; [done|lia].
Qed.

Lemma findPath_loop_correct fuel g q v :
  bfs_inv grid start target strict g q v →
  findPath_loop fuel grid gw gh target strict q v = OutOfFuel
  ∨ ∃ path,
      findPath_loop fuel grid gw gh target strict q v = Ok path
      ∧ ((path = [] ∧ ∀ l, ¬ grown R start target l)
         ∨ (grown R start target path
            ∧ ∀ l, grown R start target l → (length path ≤ length l)%nat)).
Proof.
  revert g q v. induction fuel as [|fuel IH]; intros g q v Hinv; [by left|].
  rewrite findPath_loop_S. destruct q as [|[pos pa] rest].
  - right. exists []. split; [done|]. left. split; [done|].
    intros l Hl. destruct Hinv as [Hs Hq Hsort Hspan Hcl Hin].
    assert (pkey target ∈ v) as Ht.
    { eapply closed_reach; [apply Hs| |done].
      intros p Hp. apply Hcl; [done|]. rewrite fmap_nil. set_solver. }
    destruct (Hcl target Ht) as [Hne _]; [rewrite fmap_nil; set_solver|done].
  - destruct (decide _) as [Ht|Ht].
    + right. exists pa. split; [done|]. right.
      assert (pos = target) as ->.
      { destruct pos, target; simpl in *. destruct Ht as [-> ->]. done. }
      destruct (bi_queue _ _ _ _ _ _ _ Hinv target pa) as (Hg & Hlen & Hv);
        [left|].
      split; [done|]. intros l Hl.
      destruct (reach_bound g target pa rest v target l Hinv Hl)
        as [[_ Hle]|Hle]; lia.
    + assert (pos ≠ target) as Hne.
      { intros ->. by apply Ht. }
      destruct (bi_queue _ _ _ _ _ _ _ Hinv pos pa) as (Hg & Hlen & Hv);
        [left|].
      destruct (cell_at_in_grid grid pos Hrect) as [cur Hcur].
      { by eapply bi_in_grid. }
      rewrite Hcur.
      destruct (mid_steps g pos pa cur directions [] rest v Hcur)
        as (q1 & v1 & g1 & ds1 & -> & Hds & _ & Hmid);
        [done|by apply mid_init|].
      simpl. apply (IH g1). by eapply mid_final.
Qed.
End Search.

(** ** Explored routes are the legal routes *)

Lemma dir_adjacent a d : d ∈ directions → adjacent a (move a d).
Proof.
  unfold directions, adjacent, move. intros Hd.
  repeat (apply elem_of_cons in Hd as [->|Hd]); simpl; try lia.
  by apply elem_of_nil in Hd.
Qed.

Lemma chain_mono (R R' : Point → Point → Prop) l :
  (∀ a b, R a b → R' a b) → chain R l → chain R' l.
Proof.
  intros HR. induction l as [|a [|b l] IH]; simpl; try done.
  intros [Hab Hc]. split; [by apply HR|by apply IH].
Qed.

Lemma legal_move_entered grid target a d nxt :
  legal_move grid target true a d = true →
  cell_at grid (move a d) = Some nxt → flowless_path nxt = false.
Proof.
  intros (nxt' & Hn & Hf & _)%legal_move_strict Hcell. congruence.
Qed.

Lemma grown_legal_route grid start target strict c l :
  grown (legal_step grid target strict) start c l →
  route_of (rules_step strict grid start target strict) start c l.
Proof.
  intros Hg.
  cut (route_of (rules_step strict grid start target strict) start c l
       ∧ (c = start
          ∨ (strict = true →
             ∀ cur, cell_at grid c = Some cur → flowless_path cur = false))).
  { tauto. }
  induction Hg as [|a l b Hg [(Hh & Hl & Hc) Hent] (d & Hd & -> & Hlm)].
  - split; [by repeat split|by left].
  - split.
    + split; [by destruct l|]. split; [by rewrite last_snoc|].
      eapply chain_snoc; [done..|].
      split; [by apply dir_adjacent|]. split; [|by exists d].
      intros -> cur Hcur Hfl. destruct Hent as [->|Hent]; [done|].
      rewrite (Hent eq_refl cur Hcur) in Hfl. done.
    + right. intros -> cur Hcur. by eapply legal_move_entered.
Qed.

Lemma legal_route_grown grid start target strict c l :
  route_of (rules_step strict grid start target strict) start c l →
  grown (legal_step grid target strict) start c l.
Proof.
  intros (Hh & Hl & Hc). apply route_of_grown. repeat split; try done.
  eapply chain_mono; [|done].
  intros a b (_ & _ & d & Hd & -> & Hm). by exists d.
Qed.

(** ** Claim C1 *)

(** C1, as stated, fails for [strictFlow = false]: measured by the traversal
    rules as the specification words them, where rule 2 holds in both modes,
    the route returned on [against_grid] is not legal, and it is returned
    although no legal route exists. *)
Lemma findPath_returns_route_against_one_way_rule :
  findPath against_grid (mkPoint 0 0) (mkPoint 1 0) false
    = Ok [mkPoint 0 0; mkPoint 1 0]
  ∧ ∀ l, ¬ spec_legal_route against_grid (mkPoint 0 0) (mkPoint 1 0) false l.
Proof.
  split; [vm_compute; reflexivity|].
  intros l Hl. apply route_of_grown in Hl.
  inversion Hl as [|a l' b Hg (_ & _ & d & Hd & Hb & Hm)]; subst.
  destruct a as [ax ay]. unfold move in Hb. simpl in Hb.
  unfold directions in Hd.
  repeat (apply elem_of_cons in Hd as [->|Hd]); simpl in Hb;
    try (by apply elem_of_nil in Hd);
    injection Hb as Hx Hy;
    [ assert (ax = 1) as -> by lia; assert (ay = 1) as -> by lia
    | assert (ax = 0) as -> by lia; assert (ay = 0) as -> by lia
    | assert (ax = 1) as -> by lia; assert (ay = -1) as -> by lia
    | assert (ax = 2) as -> by lia; assert (ay = 0) as -> by lia ];
    vm_compute in Hm; discriminate.
Qed.

(** C1, amended: on a rectangular grid that contains the start cell,
    [findPath] returns a sequence of cells that is either empty or a legal
    route: it starts at the start cell, ends at the target cell, every
    consecutive pair is orthogonally adjacent and every move satisfies the
    traversal rules, rule 2 (one-way collision) being in force under
    [strictFlow = true] only; no legal route has fewer cells; and the
    sequence is empty exactly when no legal route exists. *)
Theorem findPath_shortest_legal_route grid start target strict :
  rect grid → in_grid grid start →
  ∃ path,
    findPath grid start target strict = Ok path
    ∧ (path = []
       ∨ (legal_route grid start target strict path
          ∧ chain adjacent path
          ∧ ∀ l, legal_route grid start target strict l →
                 (length path ≤ length l)%nat))
    ∧ (path = [] ↔ ∀ l, ¬ legal_route grid start target strict l).
Proof.
  intros Hrect Hstart.
  pose proof (findPath_terminates grid start target strict) as Hterm.
  unfold findPath in *.
  destruct (grid !! 0%nat) as [row0|] eqn:Hrow0.
  2:{ destruct Hstart as [_ Hy]. destruct grid; [simpl in Hy; lia|done]. }
  destruct (findPath_loop_correct grid row0 start target strict Hrow0 Hrect
              (S (S (length row0 * length grid))) (λ _, 1%nat)
              [(start, [start])] {[pkey start]}) as [Hout|(path & Hp & Hres)].
  { split.
    - split; [set_solver|done].
    - intros pos pa Hin%list_elem_of_singleton. injection Hin as -> ->.
      split; [constructor|]. split; [done|set_solver].
    - simpl. repeat constructor.
    - intros; lia.
    - intros p Hp%elem_of_singleton%pkey_inj Hnq. subst p.
      destruct Hnq. simpl. set_solver.
    - intros p Hp%elem_of_singleton%pkey_inj. by subst p. }
  { done. }
  exists path. split; [done|].
  destruct Hres as [[-> Hnone]|[Hg Hmin]].
  - split; [by left|]. split; [|done].
    intros _ l Hl. apply (Hnone l). by apply legal_route_grown.
  - pose proof (grown_length _ _ _ _ Hg) as Hlen.
    pose proof (grown_legal_route _ _ _ _ _ _ Hg) as Hroute.
    split.
    + right. split; [done|]. split.
      * destruct Hroute as (_ & _ & Hc). eapply chain_mono; [|done].
        intros a b Hab. apply Hab.
      * intros l Hl. apply Hmin. by apply legal_route_grown.
    + split; [intros ->; simpl in Hlen; lia|].
      intros Hnone. destruct (Hnone path). done.
Qed.

Lemma findPath_shortest_legal_route_witness :
  rect loop_grid ∧ in_grid loop_grid (mkPoint 0 0)
  ∧ ∃ path,
      findPath loop_grid (mkPoint 0 0) (mkPoint 0 2) true = Ok path
      ∧ (path = []
         ∨ (legal_route loop_grid (mkPoint 0 0) (mkPoint 0 2) true path
            ∧ chain adjacent path
            ∧ ∀ l, legal_route loop_grid (mkPoint 0 0) (mkPoint 0 2) true l →
                   (length path ≤ length l)%nat))
      ∧ (path = []
         ↔ ∀ l, ¬ legal_route loop_grid (mkPoint 0 0) (mkPoint 0 2) true l).
Proof.
  assert (rect loop_grid) as Hr by (by vm_compute; repeat constructor).
  assert (in_grid loop_grid (mkPoint 0 0)) as Hs.
  { vm_compute. repeat split; intros; discriminate. }
  split; [exact Hr|]. split; [exact Hs|].
  exact (findPath_shortest_legal_route loop_grid (mkPoint 0 0) (mkPoint 0 2)
           true Hr Hs).
Defined.


(** ** Reads and writes of the distance field *)

Lemma shape_row w h d y row :
  shape_ok w h d → js_index d y = Some row → length row = w.
Proof.
  intros [_ Hall] [_ Hrow]%js_index_Some.
  rewrite Forall_forall in Hall. apply Hall. by eapply list_elem_of_lookup_2.
Qed.

Lemma dist_at_bounds w h d p v :
  shape_ok w h d → dist_at d p = Some v →
  0 ≤ px p < Z.of_nat w ∧ 0 ≤ py p < Z.of_nat h.
Proof.
  intros Hs Hd. unfold dist_at in Hd.
  destruct (js_index d (py p)) as [row|] eqn:Hrow; [|done].
  pose proof (shape_row _ _ _ _ _ Hs Hrow) as Hlen.
  apply js_index_lt in Hrow, Hd. destruct Hs as [Hh _]. lia.
Qed.

Lemma dist_at_is_Some w h d p :
  shape_ok w h d →
  0 ≤ px p < Z.of_nat w → 0 ≤ py p < Z.of_nat h →
  is_Some (dist_at d p).
Proof.
  intros Hs Hx Hy. unfold dist_at.
  destruct (js_index_is_Some d (py p)) as [row Hrow].
  { destruct Hs as [-> _]. done. }
  rewrite Hrow. apply js_index_is_Some.
  by rewrite (shape_row _ _ _ _ _ Hs Hrow).
Qed.

Lemma dm_get_dist_at d p v :
  dist_at d p = Some v → dm_get d (py p) (px p) = Ok v.
Proof.
  unfold dist_at, dm_get.
  destruct (js_index d (py p)) as [row|]; [|done]. by intros ->.
Qed.

Lemma dm_set_spec w h d p v :
  shape_ok w h d → is_Some (dist_at d p) →
  ∃ d', dm_set d (py p) (px p) v = Ok d'
        ∧ shape_ok w h d'
        ∧ ∀ q, dist_at d' q = if decide (q = p) then Some v else dist_at d q.
Proof.
  intros Hs [old Hold]. unfold dm_set.
  pose proof (dist_at_bounds _ _ _ _ _ Hs Hold) as [Hx Hy].
  unfold dist_at in Hold.
  destruct (js_index d (py p)) as [row|] eqn:Hrow; [|done].
  pose proof (shape_row _ _ _ _ _ Hs Hrow) as Hlen.
  apply js_index_Some in Hrow as [_ Hrow].
  eexists. split; [done|].
  assert (js_set row (Z.to_nat (px p)) v = <[Z.to_nat (px p) := v]> row) as ->.
  { unfold js_set. rewrite decide_True; [done|lia]. }
  split.
  - destruct Hs as [Hh Hall]. split; [by rewrite length_insert|].
    rewrite Forall_forall in Hall. apply Forall_forall. intros r Hr.
    apply list_elem_of_lookup in Hr as [i Hi].
    destruct (decide (i = Z.to_nat (py p))) as [->|Hne].
    + rewrite list_lookup_insert_eq in Hi by (by eapply lookup_lt_Some).
      injection Hi as <-. by rewrite length_insert.
    + rewrite list_lookup_insert_ne in Hi by done.
      apply Hall. by eapply list_elem_of_lookup_2.
  - intros q. unfold dist_at, js_index.
    destruct (decide (0 ≤ py q)) as [Hqy|Hqy].
    2:{ case_decide; [subst; lia|done]. }
    destruct (decide (Z.to_nat (py q) = Z.to_nat (py p))) as [Hey|Hney].
    + rewrite Hey.
      rewrite list_lookup_insert_eq by (by eapply lookup_lt_Some).
      rewrite Hrow.
      destruct (decide (0 ≤ px q)) as [Hqx|Hqx].
      2:{ case_decide; [subst; lia|done]. }
      destruct (decide (Z.to_nat (px q) = Z.to_nat (px p))) as [Hex|Hnex].
      * rewrite Hex. rewrite list_lookup_insert_eq by lia.
        rewrite decide_True; [done|]. destruct p, q; simpl in *. f_equal; lia.
      * rewrite list_lookup_insert_ne by done.
        rewrite decide_False; [done|]. intros ->. done.
    + rewrite list_lookup_insert_ne by done.
      rewrite decide_False; [done|]. intros ->. done.
Qed.

Lemma count_inf_le cells d : (count_inf cells d ≤ length cells)%nat.
Proof. unfold count_inf. apply length_filter. Qed.

Lemma count_inf_set cells d d' p v :
  v ≠ Infinity →
  (∀ q, dist_at d' q = if decide (q = p) then Some v else dist_at d q) →
  (count_inf cells d' ≤ count_inf cells d)%nat
  ∧ (p ∈ cells → dist_at d p = Some Infinity →
     (count_inf cells d' < count_inf cells d)%nat).
Proof.
  intros Hv Hd'. unfold count_inf.
  induction cells as [|c cells [IH1 IH2]].
  - split; [done|]. by intros ?%elem_of_nil.
  - rewrite !filter_cons, Hd'.
    destruct (decide (c = p)) as [->|Hne].
    + rewrite decide_False by congruence. split.
      * case_decide; simpl; lia.
      * intros _ Hp. rewrite decide_True by done. simpl. lia.
    + split.
      * case_decide; simpl; lia.
      * intros [->|Hin]%elem_of_cons Hp; [done|].
        specialize (IH2 Hin Hp). case_decide; simpl; lia.
Qed.

(** ** The seeding pass *)

Lemma cell_at_bounds grid p c :
  rect grid → cell_at grid p = Some c → in_grid grid p.
Proof.
  intros Hr (row & Hrow & Hc)%cell_at_Some.
  pose proof (rect_row _ _ _ Hr Hrow) as Hlen.
  apply js_index_lt in Hrow, Hc. unfold in_grid. lia.
Qed.

Lemma is_mall_passable grid p : is_mall grid p → passable grid p.
Proof. intros (c & Hc & Ht). exists c. split; [done|]. by rewrite Ht. Qed.

Lemma cell_at_lookup (grid : Grid) y pre cell rest :
  grid !! y = Some (pre ++ cell :: rest) →
  cell_at grid (mkPoint (Z.of_nat (length pre)) (Z.of_nat y)) = Some cell.
Proof.
  intros Hrow. unfold cell_at, js_index. simpl.
  rewrite decide_True by lia. rewrite Nat2Z.id, Hrow.
  rewrite decide_True by lia. rewrite Nat2Z.id.
  by rewrite list_lookup_middle.
Qed.

Section Seeding.
Variable grid : Grid.
Hypothesis Hrect : rect grid.

Lemma scanned_next y x p :
  scanned y x p → scanned y (S x) p.
Proof. unfold scanned. lia. Qed.

Lemma scanned_prev y x p :
  scanned y (S x) p → p ≠ mkPoint (Z.of_nat x) (Z.of_nat y) →
  scanned y x p.
Proof.
  unfold scanned. intros [Hy|[Hy Hx]] Hne; [by left|].
  right. split; [done|].
  destruct (decide (px p = Z.of_nat x)) as [Hpx|Hpx]; [|lia].
  destruct Hne. destruct p; simpl in *. by subst.
Qed.

Lemma seed_row_spec y rest pre q d :
  grid !! y = Some (pre ++ rest) →
  seed_inv grid y (length pre) q d →
  ∃ q' d',
    seed_row rest (length pre) y (q, d) = Ok (q', d')
    ∧ seed_inv grid y (length (pre ++ rest)) q' d'
    ∧ (length q' ≤ length q + length rest)%nat.
Proof.
  revert pre q d. induction rest as [|cell rest IH]; intros pre q d Hrow Hinv.
  - exists q, d. rewrite app_nil_r. simpl. split; [done|]. split; [done|lia].
  - simpl. set (p := mkPoint (Z.of_nat (length pre)) (Z.of_nat y)).
    pose proof (cell_at_lookup _ _ _ _ _ Hrow) as Hcell. fold p in Hcell.
    assert (grid !! y = Some ((pre ++ [cell]) ++ rest)) as Hrow'.
    { by rewrite <- app_assoc. }
    assert (length (pre ++ [cell]) = S (length pre)) as Hlen.
    { rewrite length_app. simpl. lia. }
    destruct Hinv as [Hshape Hval Hmall Hq].
    destruct (decide (type cell = MALL)) as [Ht|Ht].
    + destruct (dm_set_spec _ _ d p (Num 0) Hshape) as (d' & Hset & Hs' & Hd').
      { pose proof (cell_at_bounds _ _ _ Hrect Hcell) as [Hx Hy].
        by eapply dist_at_is_Some. }
      simpl in Hset. rewrite Hset. simpl.
      destruct (IH (pre ++ [cell]) (q ++ [p]) d') as (q2 & d2 & Hr & Hi & Hl).
      { done. }
      { rewrite Hlen. split; [done| | |].
        - intros r v. rewrite Hd'. case_decide as Hrp.
          + intros [= <-]. right. subst r. split; [done|].
            split; [by exists cell|]. unfold scanned, p. simpl. lia.
          + intros Hr. destruct (Hval r v Hr) as [->|(-> & ? & ?)];
              [by left|]. right. auto using scanned_next.
        - intros r Hr Hsc. rewrite Hd'. case_decide as Hrp.
          + split; [done|]. subst r. apply elem_of_app. right. left.
          + destruct (Hmall r Hr) as [? ?]; [by apply scanned_prev|].
            split; [done|]. apply elem_of_app. by left.
        - intros r [Hr|Hr%list_elem_of_singleton]%elem_of_app; [auto|].
          subst r. by exists cell. }
      rewrite Hlen in Hr. exists q2, d2. split; [done|].
      rewrite <- app_assoc in Hi. split; [done|].
      rewrite length_app in Hl. simpl in *. lia.
    + simpl. destruct (IH (pre ++ [cell]) q d) as (q2 & d2 & Hr & Hi & Hl).
      { done. }
      { rewrite Hlen. split; [done| | |].
        - intros r v Hr. destruct (Hval r v Hr) as [->|(-> & ? & ?)];
            [by left|]. right. auto using scanned_next.
        - intros r Hr Hsc. apply Hmall; [done|].
          apply scanned_prev; [done|]. intros ->.
          destruct Hr as (c & Hc & Hct). fold p in Hc. congruence.
        - done. }
      rewrite Hlen in Hr. exists q2, d2. split; [done|].
      rewrite <- app_assoc in Hi. split; [done|]. simpl. lia.
Qed.

Lemma seed_rows_spec rows pre q d :
  grid = pre ++ rows →
  seed_inv grid (length pre) 0 q d →
  ∃ q' d',
    seed_rows rows (length pre) (q, d) = Ok (q', d')
    ∧ seed_inv grid (length grid) 0 q' d'
    ∧ (length q' ≤ length q + length (concat rows))%nat.
Proof.
  revert pre q d. induction rows as [|row rows IH]; intros pre q d Hg Hinv.
  - exists q, d. subst grid. rewrite app_nil_r in *. simpl.
    split; [done|]. split; [done|lia].
  - simpl.
    assert (grid !! length pre = Some ([] ++ row)) as Hrow.
    { subst grid. by rewrite list_lookup_middle. }
    destruct (seed_row_spec (length pre) row [] q d Hrow Hinv)
      as (q1 & d1 & Hr1 & Hi1 & Hl1).
    simpl in Hr1. rewrite Hr1. simpl.
    assert (length (pre ++ [row]) = S (length pre)) as Hlen.
    { rewrite length_app. simpl. lia. }
    assert (length row = grid_width grid) as Hw.
    { unfold rect in Hrect. rewrite Forall_forall in Hrect. apply Hrect.
      by eapply list_elem_of_lookup_2. }
    destruct (IH (pre ++ [row]) q1 d1) as (q2 & d2 & Hr2 & Hi2 & Hl2).
    { by rewrite <- app_assoc. }
    { rewrite Hlen. simpl in Hi1. destruct Hi1 as [Hshape Hval Hmall Hq].
      split; [done|..|done].
      - intros r v Hr. destruct (Hval r v Hr) as [->|(-> & ? & Hsc)];
          [by left|]. right. split; [done|]. split; [done|].
        unfold scanned in *. lia.
      - intros r Hr Hsc. apply Hmall; [done|].
        destruct Hr as (c & Hc & _).
        apply (cell_at_bounds _ _ _ Hrect) in Hc as [Hx Hy].
        unfold scanned in *. lia. }
    rewrite Hlen in Hr2. exists q2, d2. split; [done|]. split; [done|].
    rewrite length_app. lia.
Qed.

Lemma dist_at_replicate w h p v :
  dist_at (replicate h (replicate w Infinity)) p = Some v → v = Infinity.
Proof.
  unfold dist_at. destruct (js_index _ (py p)) as [row|] eqn:Hrow; [|done].
  apply js_index_Some in Hrow as [_ Hrow].
  apply lookup_replicate in Hrow as [-> _].
  intros [_ Hv]%js_index_Some. by apply lookup_replicate in Hv as [-> _].
Qed.

Lemma seeding_spec :
  ∃ q d,
    seed_rows grid 0
      ([], replicate (length grid) (replicate (grid_width grid) Infinity))
    = Ok (q, d)
    ∧ seed_inv grid (length grid) 0 q d
    ∧ (length q ≤ length (concat grid))%nat.
Proof.
  destruct (seed_rows_spec grid [] []
              (replicate (length grid) (replicate (grid_width grid) Infinity)))
    as (q & d & Hr & Hi & Hl); [done| |by exists q, d].
  simpl. split.
  - split; [by rewrite length_replicate|].
    apply Forall_forall. intros r [-> _]%elem_of_replicate.
    by rewrite length_replicate.
  - intros p v Hv. left. by eapply dist_at_replicate.
  - intros p (c & Hc & _) Hsc.
    apply (cell_at_bounds _ _ _ Hrect) in Hc as [Hx Hy].
    unfold scanned in Hsc. lia.
  - by intros p ?%elem_of_nil.
Qed.
End Seeding.

(** ** The invariant of the distance search *)

Lemma mall_loop_S fuel grid width height queue distMap :
  mall_loop (S fuel) grid width height queue distMap
  = match queue with
    | [] => Ok distMap
    | pos :: rest =>
        let* currentDist := dm_get distMap (py pos) (px pos) in
        let* st := relax_dirs grid width height pos currentDist
                     mall_directions (rest, distMap) in
        mall_loop fuel grid width height st.1 st.2
    end.
Proof. reflexivity. Qed.

Lemma StronglySorted_snoc_Z (l : list Z) x :
  StronglySorted Z.le l → Forall (λ y, y ≤ x) l →
  StronglySorted Z.le (l ++ [x]).
Proof.
  induction 1 as [|a l Hs IH Ha]; intros Hall; simpl.
  - repeat constructor.
  - apply Forall_cons in Hall as [Hax Hall]. constructor; [by apply IH|].
    apply Forall_app. split; [done|]. by constructor.
Qed.

Section MallSearch.
Variable grid : Grid.
Hypothesis Hrect : rect grid.

Let gw := Z.of_nat (grid_width grid).
Let gh := Z.of_nat (length grid).
Let cells := all_cells (grid_width grid) (length grid).

Lemma passable_in_grid p : passable grid p → in_grid grid p.
Proof. intros (c & Hc & _). by eapply cell_at_bounds. Qed.

Lemma mall_mid_init u rest d :
  mall_inv grid (u :: rest) d →
  ∃ k, dist_at d u = Some (Num k) ∧ mall_mid grid u k [] rest d.
Proof.
  intros [Hf Hq Hsort Hspan Hcl].
  destruct (Hq u) as [k Hk]; [left|]. exists k. split; [done|].
  rewrite fmap_cons in Hsort. apply StronglySorted_inv in Hsort as [Hsort Hlow].
  assert (lvl d u = k) as Hlu by (unfold lvl; by rewrite Hk).
  split; try done.
  - intros p Hp. apply Hq. by right.
  - intros p Hp. rewrite Forall_forall, Hlu in Hlow. apply Hlow.
    by apply list_elem_of_fmap_2.
  - intros p n Hn. rewrite <- Hlu. by apply (Hspan u p n).
  - intros p Hpu Hpq. apply Hcl. by apply not_elem_of_cons.
  - by intros dir ?%elem_of_nil.
Qed.

Lemma mall_mid_final u k ds q d :
  mall_mid grid u k ds q d → mall_directions ⊆ ds → mall_inv grid q d.
Proof.
  intros [Hf Hu Hq Hsort Hlow Hspan Hcl Hdone] Hds.
  split; try done.
  - intros u' p n Hhead Hn. specialize (Hspan p n Hn).
    assert (u' ∈ q) as Hin by (destruct q; simplify_eq/=; left).
    specialize (Hlow u' Hin). lia.
  - intros p Hpq. destruct (decide (p = u)) as [->|Hpu]; [|by apply Hcl].
    intros n dir Hn Hdir Hpass.
    assert (n = k) as -> by congruence. apply Hdone; [by apply Hds|done].
Qed.

Lemma relax_dir_step u k ds q d dir :
  dir ∈ mall_directions →
  mall_mid grid u k ds q d →
  ∃ q' d',
    relax_dir grid gw gh u (Num k) (q, d) dir = Ok (q', d')
    ∧ mall_mid grid u k (dir :: ds) q' d'
    ∧ (length q' + count_inf cells d' ≤ length q + count_inf cells d)%nat.
Proof.
  intros Hdir Hmid.
  destruct Hmid as [Hf Hu Hq Hsort Hlow Hspan Hcl Hdone].
  unfold relax_dir.
  change (mkPoint (px u + dir.1) (py u + dir.2)) with (shift u dir).
  change (px u + dir.1) with (px (shift u dir)).
  change (py u + dir.2) with (py (shift u dir)).
  assert (Hstep : ∀ a n, reach grid a n → passable grid (shift a dir) →
            reach grid (shift a dir) (S n)).
  { intros a n Ha Hp. by eapply reach_step. }
  remember (shift u dir) as b eqn:Hbdef.
  assert (Hkeep : ∀ q0 d0, q0 = q → d0 = d →
            ¬ passable grid b
            ∨ (∃ m, dist_at d b = Some (Num m) ∧ m ≤ k + 1) →
            ∃ q' d', Ok (q0, d0) = Ok (q', d')
              ∧ mall_mid grid u k (dir :: ds) q' d'
              ∧ (length q' + count_inf cells d'
                 ≤ length q + count_inf cells d)%nat).
  { intros q0 d0 -> -> Hcase. exists q, d. split; [done|]. split; [|lia].
    split; try done.
    intros dir' [->|Hd']%elem_of_cons Hpass; [|by apply Hdone].
    rewrite <- Hbdef in *. destruct Hcase as [Hn|Hm]; [done|done]. }
  case_bool_decide as Hb.
  2:{ apply Hkeep; [done..|]. left. intros Hp.
      apply passable_in_grid in Hp as [Hx Hy].
      apply Hb. unfold gw, gh. lia. }
  assert (in_grid grid b) as Hbin by (unfold in_grid, gw, gh in *; lia).
  destruct (cell_at_in_grid grid b Hrect Hbin) as [cell Hcell].
  pose proof Hcell as Hcell'.
  apply cell_at_Some in Hcell' as (row & Hrow & Hc). rewrite Hrow, Hc.
  case_bool_decide as Hwall; simpl.
  { apply Hkeep; [done..|]. left. intros (c & Hc' & Hne). congruence. }
  assert (passable grid b) as Hpass by (by exists cell).
  destruct (dist_at_is_Some _ _ d b (fo_shape _ _ Hf)) as [old Hold];
    [apply Hbin..|].
  rewrite (dm_get_dist_at _ _ _ Hold). simpl.
  destruct (fo_values _ _ Hf b old Hold) as [->|(m & -> & Hreach)].
  2:{ simpl. pose proof (Hspan b _ Hold) as Hle.
      rewrite bool_decide_false by lia.
      apply Hkeep; [done..|]. right. eauto. }
  simpl.
  destruct (dm_set_spec _ _ d b (Num (k + 1)) (fo_shape _ _ Hf))
    as (d' & Hset & Hs' & Hd'); [by eauto|].
  rewrite Hset. simpl.
  destruct (fo_values _ _ Hf u _ Hu) as [?|(n0 & Hn0 & Hru)]; [done|].
  injection Hn0 as ->.
  assert (Hfin : ∀ p n, dist_at d p = Some (Num n) → dist_at d' p = Some (Num n)).
  { intros p n Hn. rewrite Hd'. case_decide; [|done]. congruence. }
  assert (Hlvl : ∀ p n, dist_at d p = Some (Num n) → lvl d' p = lvl d p).
  { intros p n Hn. unfold lvl. by rewrite (Hfin p n Hn), Hn. }
  exists (q ++ [b]), d'. split; [done|]. split.
  - split.
    + split; [done| |].
      * intros p v. rewrite Hd'. case_decide as Hpb.
        -- intros [= <-]. right. exists (S n0). split; [f_equal; lia|].
           subst p b. by apply Hstep.
        -- apply (fo_values _ _ Hf).
      * intros p Hp. eapply Hfin. by apply (fo_malls _ _ Hf).
    + by apply Hfin.
    + intros p [Hp|Hp%list_elem_of_singleton]%elem_of_app; [|subst p].
      * destruct (Hq p Hp) as [n Hn]. exists n. by apply Hfin.
      * exists (Z.of_nat n0 + 1). rewrite Hd'. by rewrite decide_True.
    + rewrite fmap_app. simpl.
      assert (lvl d' <$> q = lvl d <$> q) as ->.
      { apply list_fmap_ext. intros i p Hp.
        destruct (Hq p) as [n Hn]; [by eapply list_elem_of_lookup_2|].
        by eapply Hlvl. }
      apply StronglySorted_snoc_Z; [done|].
      apply Forall_forall. intros y Hy.
      apply list_elem_of_fmap in Hy as (p & -> & Hp).
      destruct (Hq p Hp) as [n Hn].
      assert (lvl d' b = Z.of_nat n0 + 1) as ->.
      { unfold lvl. rewrite Hd'. by rewrite decide_True. }
      unfold lvl. rewrite Hn. by eapply Hspan.
    + intros p [Hp|Hp%list_elem_of_singleton]%elem_of_app; [|subst p].
      * destruct (Hq p Hp) as [n Hn]. rewrite (Hlvl p n Hn). by apply Hlow.
      * unfold lvl. rewrite Hd'. rewrite decide_True by done. lia.
    + intros p n. rewrite Hd'. case_decide.
      * intros [= <-]. lia.
      * apply Hspan.
    + intros p Hpu Hpq n dir' Hn Hdir' Hpass'.
      assert (p ≠ b) as Hpb.
      { intros ->. apply Hpq, elem_of_app. right. left. }
      rewrite Hd' in Hn. rewrite decide_False in Hn by done.
      destruct (Hcl p Hpu) with (n := n) (dir := dir') as (m & Hm & Hle);
        [intros Hpin; apply Hpq, elem_of_app; by left|done..|].
      exists m. split; [by eapply Hfin|done].
    + intros dir' [->|Hd2]%elem_of_cons Hpass'.
      * exists (Z.of_nat n0 + 1). rewrite <- Hbdef, Hd'.
        rewrite decide_True by done. split; [done|lia].
      * destruct (Hdone dir' Hd2 Hpass') as (m & Hm & Hle).
        exists m. split; [by eapply Hfin|done].
  - rewrite length_app. simpl.
    destruct (count_inf_set cells d d' b (Num (Z.of_nat n0 + 1)))
      as [_ Hlt]; [done|done|].
    specialize (Hlt (all_cells_elem _ _ _ (proj1 Hbin) (proj2 Hbin)) Hold).
    lia.
Qed.

Lemma relax_dirs_steps u k dirs ds q d :
  dirs ⊆ mall_directions →
  mall_mid grid u k ds q d →
  ∃ q' d' ds',
    relax_dirs grid gw gh u (Num k) dirs (q, d) = Ok (q', d')
    ∧ dirs ⊆ ds' ∧ ds ⊆ ds'
    ∧ mall_mid grid u k ds' q' d'
    ∧ (length q' + count_inf cells d' ≤ length q + count_inf cells d)%nat.
Proof.
  revert ds q d. induction dirs as [|dir dirs IH]; intros ds q d Hsub Hmid.
  - exists q, d, ds. simpl. split; [done|]. split; [set_solver|].
    split; [done|]. split; [done|lia].
  - simpl.
    destruct (relax_dir_step u k ds q d dir) as (q1 & d1 & -> & Hm1 & Hl1);
      [set_solver|done|].
    simpl.
    destruct (IH (dir :: ds) q1 d1)
      as (q2 & d2 & ds2 & -> & Hs2 & Hs3 & Hm2 & Hl2); [set_solver|done|].
    exists q2, d2, ds2. split; [done|]. split.
    { intros x [->|Hx]%elem_of_cons; [apply Hs3; left|by apply Hs2]. }
    split; [intros x Hx; apply Hs3; by right|]. split; [done|lia].
Qed.

Lemma mall_loop_correct fuel q d :
  mall_inv grid q d →
  (length q + count_inf cells d < fuel)%nat →
  ∃ d', mall_loop fuel grid gw gh q d = Ok d'
        ∧ field_ok grid d' ∧ ∀ p, mall_closed grid d' p.
Proof.
  revert q d. induction fuel as [|fuel IH]; intros q d Hinv Hlt; [lia|].
  rewrite mall_loop_S. destruct q as [|u rest].
  - exists d. split; [done|]. split; [apply Hinv|].
    intros p. apply (mv_closed _ _ _ Hinv). set_solver.
  - destruct (mall_mid_init u rest d Hinv) as (k & Hk & Hmid).
    rewrite (dm_get_dist_at _ _ _ Hk). cbn [rbind].
    destruct (relax_dirs_steps u k mall_directions [] rest d)
      as (q1 & d1 & ds1 & -> & Hs1 & _ & Hm1 & Hl1); [done..|].
    simpl. apply IH; [by eapply mall_mid_final|].
    simpl in Hlt. lia.
Qed.
End MallSearch.

(** ** Walks to a Mall cell and cells reached from one *)

Lemma adjacent_shift a b :
  adjacent a b → ∃ dir, dir ∈ mall_directions ∧ a = shift b dir.
Proof.
  unfold adjacent, mall_directions. intros Hadj.
  exists (px a - px b, py a - py b). split.
  - assert ((px a - px b = 0 ∧ py a - py b = 1)
            ∨ (px a - px b = 0 ∧ py a - py b = -1)
            ∨ (px a - px b = 1 ∧ py a - py b = 0)
            ∨ (px a - px b = -1 ∧ py a - py b = 0))
      as [[-> ->]|[[-> ->]|[[-> ->]|[-> ->]]]] by lia; set_solver.
  - destruct a, b; unfold shift; simpl. f_equal; lia.
Qed.

Lemma shift_adjacent a dir : dir ∈ mall_directions → adjacent (shift a dir) a.
Proof.
  unfold mall_directions, adjacent, shift. intros Hd.
  repeat (apply elem_of_cons in Hd as [->|Hd]); simpl; try lia.
  by apply elem_of_nil in Hd.
Qed.

Lemma walk_reach grid p l :
  walk_to_mall grid p l → reach grid p (length l - 1).
Proof.
  revert p. induction l as [|x l IH]; intros p (Hh & (m & Hl & Hm) & Hp & Hc).
  - done.
  - simpl in Hh. injection Hh as ->. destruct l as [|y l].
    + simpl in Hl. injection Hl as ->. by constructor.
    + destruct Hc as [Hxy Hc]. apply Forall_cons in Hp as [Hpp Hp].
      apply adjacent_shift in Hxy as (dir & Hdir & ->).
      assert (reach grid y (length (y :: l) - 1)) as Hr.
      { apply IH. split; [done|]. split; [by exists m|]. done. }
      simpl in *. rewrite Nat.sub_0_r in *. by eapply reach_step.
Qed.

Lemma reach_walk grid p n :
  reach grid p n → ∃ l, walk_to_mall grid p l ∧ length l = S n.
Proof.
  induction 1 as [m Hm|a b n dir Hr (l & (Hh & (m & Hl & Hm) & Hp & Hc) & Hlen)
                              Hdir -> Hpass].
  - exists [m]. split; [|done]. split; [done|]. split; [by exists m|].
    split; [|done]. constructor; [by apply is_mall_passable|constructor].
  - exists (shift a dir :: l). split; [|simpl; lia].
    destruct l as [|x l]; [done|]. simpl in Hh. injection Hh as ->.
    split; [done|]. split; [by exists m|]. split; [by constructor|].
    split; [by apply shift_adjacent|done].
Qed.

Lemma closed_reach_le grid d p n :
  field_ok grid d → (∀ a, mall_closed grid d a) → reach grid p n →
  ∃ m, dist_at d p = Some (Num m) ∧ m ≤ Z.of_nat n.
Proof.
  intros Hf Hcl. induction 1 as [m Hm|a b n dir Hr (m & Hm & Hle) Hdir -> Hpass].
  - exists 0. split; [by apply (fo_malls _ _ Hf)|lia].
  - destruct (Hcl a m dir Hm Hdir Hpass) as (m' & Hm' & Hle').
    exists m'. split; [done|lia].
Qed.

Lemma reach_has_mall grid p n : reach grid p n → ∃ m, is_mall grid m.
Proof. induction 1; eauto. Qed.

(** ** Claim C2 *)

(** C2: on a rectangular grid [generateMallDistanceMap] returns a field of
    the shape of the grid in which every Destination (Mall) cell has distance
    0, a cell has distance [n] exactly when [n] is the least number of
    orthogonal hops of a walk from it to some Mall cell over cells that are
    not Walls (the cell itself included, so a Wall cell has no walk), and a
    cell holds [Infinity] exactly when no such walk exists;
    in particular a grid without Mall cells gives a field that is
    [Infinity] everywhere. *)
Theorem mall_distance_map_correct grid :
  rect grid →
  ∃ d,
    generateMallDistanceMap grid = Ok d
    ∧ shape_ok (grid_width grid) (length grid) d
    ∧ (∀ p, is_mall grid p → dist_at d p = Some (Num 0))
    ∧ (∀ p (n : nat),
         dist_at d p = Some (Num (Z.of_nat n)) ↔ mall_distance grid p n)
    ∧ (∀ p, dist_at d p = Some Infinity
            ↔ in_grid grid p ∧ ∀ l, ¬ walk_to_mall grid p l)
    ∧ (∀ p, in_grid grid p →
            dist_at d p = Some Infinity
            ∨ ∃ n : nat, dist_at d p = Some (Num (Z.of_nat n)))
    ∧ ((∀ m, ¬ is_mall grid m) →
       ∀ p, in_grid grid p → dist_at d p = Some Infinity).
Proof.
  intros Hrect. unfold generateMallDistanceMap.
  destruct (seeding_spec grid Hrect) as (q0 & d0 & -> & Hseed & Hlen).
  cbn [rbind fst snd].
  destruct Hseed as [Hshape Hval Hmall Hq].
  assert (Hinv : mall_inv grid q0 d0).
  { assert (Hzero : ∀ p, p ∈ q0 → dist_at d0 p = Some (Num 0)).
    { intros p Hp. pose proof (Hq p Hp) as Hm.
      apply Hmall; [done|]. destruct Hm as (c & Hc & _).
      apply (cell_at_bounds _ _ _ Hrect) in Hc as [_ Hy]. left. lia. }
    assert (Hnum : ∀ p n, dist_at d0 p = Some (Num n) →
                          n = 0 ∧ is_mall grid p ∧ p ∈ q0).
    { intros p n Hn. destruct (Hval p _ Hn) as [?|(Hn0 & Hm & Hsc)]; [done|].
      injection Hn0 as ->. split; [done|]. split; [done|].
      by apply Hmall. }
    split.
    - split; [done| |].
      + intros p v Hv. destruct (Hval p v Hv) as [->|(-> & Hm & _)];
          [by left|]. right. exists 0%nat. split; [done|by constructor].
      + intros p Hp. apply Hmall; [done|]. destruct Hp as (c & Hc & _).
        apply (cell_at_bounds _ _ _ Hrect) in Hc as [_ Hy]. left. lia.
    - intros p Hp. exists 0. by apply Hzero.
    - assert (Forall (λ z, z = 0) (lvl d0 <$> q0)) as Hall.
      { apply Forall_forall. intros z (p & -> & Hp)%list_elem_of_fmap.
        unfold lvl. by rewrite (Hzero p Hp). }
      induction Hall as [|z l -> Hall IH]; constructor; [done|].
      eapply Forall_impl; [done|]. simpl. lia.
    - intros u p n Hu Hn. apply Hnum in Hn as (-> & _ & _).
      assert (u ∈ q0) as Huq by (destruct q0; simplify_eq/=; left).
      unfold lvl. rewrite (Hzero u Huq). lia.
    - intros p Hpq n dir Hn. by apply Hnum in Hn as (_ & _ & ?). }
  destruct (mall_loop_correct grid Hrect
              (S (length (concat grid) + grid_width grid * length grid))
              q0 d0 Hinv) as (d & Hd & Hf & Hcl).
  { pose proof (count_inf_le (all_cells (grid_width grid) (length grid)) d0)
      as Hc. rewrite all_cells_length in Hc. lia. }
  exists d. split; [done|]. split; [apply Hf|].
  assert (Hle : ∀ p l, walk_to_mall grid p l →
            ∃ m, dist_at d p = Some (Num m) ∧ m ≤ Z.of_nat (length l - 1)).
  { intros p l Hw. eapply closed_reach_le; [done..|]. by apply walk_reach. }
  assert (Hnat : ∀ p m, dist_at d p = Some (Num m) →
            ∃ n : nat, m = Z.of_nat n ∧ reach grid p n).
  { intros p m Hm. destruct (fo_values _ _ Hf p _ Hm) as [?|(n & Hn & Hr)];
      [done|]. injection Hn as ->. eauto. }
  split; [apply Hf|]. split; [|split; [|split]].
  - intros p n. split.
    + intros Hn. destruct (Hnat p _ Hn) as (n' & Hn' & Hr).
      assert (n' = n) as -> by lia. split; [by apply reach_walk|].
      intros l Hw. destruct (Hle p l Hw) as (m & Hm & Hlm).
      assert (m = Z.of_nat n) as -> by congruence.
      destruct Hw as (Hh & _). destruct l; [done|]. simpl in *. lia.
    + intros [(l & Hw & Hl) Hmin].
      destruct (Hle p l Hw) as (m & Hm & Hlm).
      destruct (Hnat p m Hm) as (n' & -> & Hr).
      destruct (reach_walk _ _ _ Hr) as (l' & Hw' & Hl').
      specialize (Hmin l' Hw'). rewrite Hm. do 2 f_equal. lia.
  - intros p. split.
    + intros Hp. split.
      * pose proof (dist_at_bounds _ _ _ _ _ (fo_shape _ _ Hf) Hp). done.
      * intros l Hw. destruct (Hle p l Hw) as (m & Hm & _). congruence.
    + intros [[Hx Hy] Hno].
      destruct (dist_at_is_Some _ _ d p (fo_shape _ _ Hf) Hx Hy) as [v Hv].
      destruct (fo_values _ _ Hf p v Hv) as [->|(n & -> & Hr)]; [done|].
      destruct (reach_walk _ _ _ Hr) as (l & Hw & _). by destruct (Hno l).
  - intros p [Hx Hy].
    destruct (dist_at_is_Some _ _ d p (fo_shape _ _ Hf) Hx Hy) as [v Hv].
    destruct (fo_values _ _ Hf p v Hv) as [->|(n & -> & Hr)]; eauto.
  - intros Hnomall p [Hx Hy].
    destruct (dist_at_is_Some _ _ d p (fo_shape _ _ Hf) Hx Hy) as [v Hv].
    destruct (fo_values _ _ Hf p v Hv) as [->|(n & -> & Hr)]; [done|].
    destruct (reach_has_mall _ _ _ Hr) as [m Hm]. by destruct (Hnomall m).
Qed.

Lemma mall_distance_map_correct_witness :
  rect mall_grid
  ∧ ∃ d,
      generateMallDistanceMap mall_grid = Ok d
      ∧ shape_ok (grid_width mall_grid) (length mall_grid) d
      ∧ (∀ p, is_mall mall_grid p → dist_at d p = Some (Num 0))
      ∧ (∀ p (n : nat),
           dist_at d p = Some (Num (Z.of_nat n)) ↔ mall_distance mall_grid p n)
      ∧ (∀ p, dist_at d p = Some Infinity
              ↔ in_grid mall_grid p ∧ ∀ l, ¬ walk_to_mall mall_grid p l)
      ∧ (∀ p, in_grid mall_grid p →
              dist_at d p = Some Infinity
              ∨ ∃ n : nat, dist_at d p = Some (Num (Z.of_nat n)))
      ∧ ((∀ m, ¬ is_mall mall_grid m) →
         ∀ p, in_grid mall_grid p → dist_at d p = Some Infinity).
Proof.
  assert (rect mall_grid) as Hr by (by vm_compute; repeat constructor).
  split; [exact Hr|].
  exact (mall_distance_map_correct mall_grid Hr).
Defined.


(** ** The spot selector *)

Lemma is_compatible_table carType st :
  is_compatible carType st = true ↔ compatible_per_table carType st.
Proof.
  unfold is_compatible, compatible_per_table.
  destruct carType; rewrite bool_decide_eq_true; done.
Qed.

Section Selector.
Context {Score : Type}.
Variable score : DriverProfile → Dist → Z → nat → Score.
Variable sort_by_score : list (Point * Score) → list (Point * Score).
Hypothesis sort_perm : ∀ l, sort_by_score l ≡ₚ l.

Variables (grid : Grid) (occupiedSpots : gset string) (entryPoint : Point)
          (carType : SpotType) (profile : DriverProfile)
          (mallDistanceMap : option DistMap).

Let E := eligible grid occupiedSpots carType.

(** What one cell of the scan does to the list of candidates. *)
Lemma spot_row_spec y rest pre cands cands' :
  grid !! y = Some (pre ++ rest) →
  spot_row score occupiedSpots entryPoint carType profile mallDistanceMap
           rest (length pre) y cands = Ok cands' →
  (∀ c, c ∈ cands' → c ∈ cands ∨ E c.1)
  ∧ (∀ c, c ∈ cands → c ∈ cands')
  ∧ (∀ p, E p → py p = Z.of_nat y →
          Z.of_nat (length pre) ≤ px p → p ∈ cands'.*1).
Proof.
  revert pre cands. induction rest as [|cell rest IH]; intros pre cands Hrow.
  - simpl. intros [= <-]. split; [auto|]. split; [auto|].
    intros p (c & Hc & _) Hy Hx.
    apply cell_at_Some in Hc as (row & Hr & Hc).
    apply js_index_Some in Hr as [_ Hr]. rewrite Hy, Nat2Z.id, Hrow in Hr.
    injection Hr as <-. apply js_index_lt in Hc. rewrite app_nil_r in Hc. lia.
  - simpl. intros Hs. inv_bind Hs.
    pose proof (cell_at_lookup _ _ _ _ _ Hrow) as Hcell.
    set (p0 := mkPoint (Z.of_nat (length pre)) (Z.of_nat y)) in *.
    assert (grid !! y = Some ((pre ++ [cell]) ++ rest)) as Hrow'.
    { by rewrite <- app_assoc. }
    assert (length (pre ++ [cell]) = S (length pre)) as Hlen.
    { rewrite length_app. simpl. lia. }
    rewrite <- Hlen in Hs.
    destruct (IH _ _ Hrow' Hs) as (Hsound & Hkeep & Hfind).
    assert (Hhere : (E p0 ∧ ∃ s, a = cands ++ [(p0, s)])
                    ∨ (¬ E p0 ∧ a = cands)).
    { destruct (bool_decide (type cell = PARKING)) eqn:Ht; simpl in Ha.
      2:{ right. injection Ha as <-. split; [|done].
          intros (c & Hc & Hct & _). apply bool_decide_eq_false in Ht.
          congruence. }
      apply bool_decide_eq_true in Ht.
      destruct (bool_decide (key _ _ ∈ occupiedSpots)) eqn:Ho; simpl in Ha.
      { right. injection Ha as <-. split; [|done].
        intros (c & _ & _ & Hocc & _). apply bool_decide_eq_true in Ho.
        done. }
      apply bool_decide_eq_false in Ho.
      destruct (is_compatible carType _) eqn:Hcomp.
      2:{ right. injection Ha as <-. split; [|done].
          intros (c & Hc & _ & _ & Hcc).
          assert (c = cell) as -> by congruence.
          unfold effective_spotType in Hcc. congruence. }
      left. split; [by exists cell|].
      inv_bind Ha. injection Ha as <-. eauto. }
    split; [|split].
    + intros c Hc. destruct (Hsound c Hc) as [Hin|He]; [|by right].
      destruct Hhere as [[He (s & ->)]|[_ ->]]; [|by left].
      apply elem_of_app in Hin as [Hin|Hin%list_elem_of_singleton];
        [by left|]. subst c. by right.
    + intros c Hc. apply Hkeep.
      destruct Hhere as [[_ (s & ->)]|[_ ->]]; [|done].
      apply elem_of_app. by left.
    + intros p Hp Hy Hx.
      destruct (decide (px p = Z.of_nat (length pre))) as [Hpx|Hpx].
      * assert (p = p0) as ->.
        { destruct p; unfold p0; simpl in *. by subst. }
        destruct Hhere as [[_ (s & ->)]|[Hne _]]; [|done].
        apply list_elem_of_fmap. exists (p0, s). split; [done|].
        apply Hkeep. apply elem_of_app. right. left.
      * apply Hfind; [done..|]. lia.
Qed.

Lemma spot_rows_spec rows pre cands cands' :
  grid = pre ++ rows →
  spot_rows score occupiedSpots entryPoint carType profile mallDistanceMap
            rows (length pre) cands = Ok cands' →
  (∀ c, c ∈ cands' → c ∈ cands ∨ E c.1)
  ∧ (∀ c, c ∈ cands → c ∈ cands')
  ∧ (∀ p, E p → Z.of_nat (length pre) ≤ py p → p ∈ cands'.*1).
Proof.
  revert pre cands. induction rows as [|row rows IH]; intros pre cands Hg.
  - simpl. intros [= <-]. split; [auto|]. split; [auto|].
    intros p (c & Hc & _) Hy.
    apply cell_at_Some in Hc as (r & Hr & _).
    apply js_index_lt in Hr. subst grid. rewrite app_nil_r in Hr. lia.
  - simpl. intros Hs. inv_bind Hs.
    assert (grid !! length pre = Some ([] ++ row)) as Hrow.
    { subst grid. by rewrite list_lookup_middle. }
    destruct (spot_row_spec _ _ [] _ _ Hrow Ha) as (Hs1 & Hk1 & Hf1).
    assert (length (pre ++ [row]) = S (length pre)) as Hlen.
    { rewrite length_app. simpl. lia. }
    rewrite <- Hlen in Hs.
    destruct (IH (pre ++ [row]) a) as (Hs2 & Hk2 & Hf2);
      [by rewrite <- app_assoc|done|].
    split; [|split].
    + intros c Hc. destruct (Hs2 c Hc) as [Hin|He]; [|by right]. auto.
    + auto.
    + intros p Hp Hy.
      destruct (decide (py p = Z.of_nat (length pre))) as [Hpy|Hpy].
      * assert (p ∈ a.*1) as Hin.
        { apply Hf1; [done..|]. destruct Hp as (c & Hc & _).
          apply cell_at_Some in Hc as (r & _ & Hc).
          apply js_index_lt in Hc. simpl. lia. }
        apply list_elem_of_fmap in Hin as (c & -> & Hc).
        apply list_elem_of_fmap_2. auto.
      * apply Hf2; [done|]. lia.
Qed.

(** The candidates are the eligible cells. *)
Lemma candidates_spec cands :
  spot_rows score occupiedSpots entryPoint carType profile mallDistanceMap
            grid 0 [] = Ok cands →
  ∀ p, p ∈ cands.*1 ↔ E p.
Proof.
  intros Hs.
  destruct (spot_rows_spec grid [] [] cands eq_refl Hs) as (Hs1 & _ & Hf1).
  intros p. split.
  - intros (c & -> & Hc)%list_elem_of_fmap.
    destruct (Hs1 c Hc) as [Hin|He]; [by apply elem_of_nil in Hin|done].
  - intros Hp. apply Hf1; [done|]. destruct Hp as (c & Hc & _).
    apply cell_at_Some in Hc as (r & Hr & _). apply js_index_lt in Hr.
    simpl. lia.
Qed.

Lemma spot_row_none y rest pre cands :
  grid !! y = Some (pre ++ rest) →
  (∀ p, ¬ E p) →
  spot_row score occupiedSpots entryPoint carType profile mallDistanceMap
           rest (length pre) y cands = Ok cands.
Proof.
  intros Hrow Hnone. revert pre Hrow.
  induction rest as [|cell rest IH]; intros pre Hrow; [done|].
  simpl.
  pose proof (cell_at_lookup _ _ _ _ _ Hrow) as Hcell.
  assert (length (pre ++ [cell]) = S (length pre)) as Hlen.
  { rewrite length_app. simpl. lia. }
  destruct (bool_decide (type cell = PARKING)) eqn:Ht; simpl.
  2:{ rewrite <- Hlen. apply IH. by rewrite <- app_assoc. }
  destruct (bool_decide (key _ _ ∈ occupiedSpots)) eqn:Ho; simpl.
  { rewrite <- Hlen. apply IH. by rewrite <- app_assoc. }
  destruct (is_compatible carType _) eqn:Hcomp; simpl.
  2:{ rewrite <- Hlen. apply IH. by rewrite <- app_assoc. }
  apply bool_decide_eq_true in Ht. apply bool_decide_eq_false in Ho.
  destruct (Hnone (mkPoint (Z.of_nat (length pre)) (Z.of_nat y))).
  by exists cell.
Qed.

Lemma spot_rows_none rows pre cands :
  grid = pre ++ rows →
  (∀ p, ¬ E p) →
  spot_rows score occupiedSpots entryPoint carType profile mallDistanceMap
            rows (length pre) cands = Ok cands.
Proof.
  intros Hg Hnone. revert pre Hg.
  induction rows as [|row rows IH]; intros pre Hg; [done|].
  simpl.
  assert (grid !! length pre = Some ([] ++ row)) as Hrow.
  { subst grid. by rewrite list_lookup_middle. }
  rewrite (spot_row_none _ _ [] _ Hrow Hnone). simpl.
  assert (length (pre ++ [row]) = S (length pre)) as Hlen.
  { rewrite length_app. simpl. lia. }
  rewrite <- Hlen. apply IH. by rewrite <- app_assoc.
Qed.

(** The cell returned is one of the candidates. *)
Lemma findBestSpot_eligible p :
  findBestSpot score sort_by_score grid occupiedSpots entryPoint carType
               profile mallDistanceMap = Ok (Some p) →
  E p.
Proof.
  unfold findBestSpot. intros Hf. inv_bind Hf.
  destruct a as [|c0 cands]; [done|].
  destruct (sort_by_score (c0 :: cands)) as [|c sorted] eqn:Hsort; [done|].
  injection Hf as <-.
  apply (candidates_spec _ Ha). apply list_elem_of_fmap_2.
  rewrite <- (sort_perm (c0 :: cands)), Hsort. left.
Qed.

Lemma findBestSpot_none :
  (∀ p, ¬ E p) →
  findBestSpot score sort_by_score grid occupiedSpots entryPoint carType
               profile mallDistanceMap = Ok None.
Proof.
  intros Hnone. unfold findBestSpot.
  pose proof (spot_rows_none grid [] [] eq_refl Hnone) as Hs.
  simpl in Hs. by rewrite Hs.
Qed.

Lemma findBestSpot_some r p :
  findBestSpot score sort_by_score grid occupiedSpots entryPoint carType
               profile mallDistanceMap = Ok r →
  E p → ∃ p', r = Some p' ∧ E p'.
Proof.
  intros Hf Hp. destruct r as [p'|].
  - exists p'. split; [done|]. by apply findBestSpot_eligible.
  - unfold findBestSpot in Hf. inv_bind Hf.
    apply (candidates_spec _ Ha) in Hp.
    destruct a as [|c0 cands]; [by apply elem_of_nil in Hp|].
    destruct (sort_by_score (c0 :: cands)); done.
Qed.
End Selector.

(** ** Claims C7 and C10 *)

Lemma sort_by_Z_perm l : sort_by_Z l ≡ₚ l.
Proof. apply merge_sort_Permutation. Qed.

(** C7: whatever the scores and however the sort orders them, the cell
    [findBestSpot] returns is a Parking cell that is not in [occupiedSpots]
    and whose spot type (Standard when the cell records none) is compatible
    with the preference: EV or Standard for an EV preference, Disabled for a
    Disabled preference, Standard or Compact otherwise. In particular an EV
    preference gets no spot when every free Parking cell is a Disabled spot. *)
Theorem findBestSpot_free_and_compatible {Score : Type}
    (score : DriverProfile → Dist → Z → nat → Score)
    (sort_by_score : list (Point * Score) → list (Point * Score))
    grid occupiedSpots entryPoint carType profile mallDistanceMap :
  (∀ l, sort_by_score l ≡ₚ l) →
  (∀ p,
     findBestSpot score sort_by_score grid occupiedSpots entryPoint carType
                  profile mallDistanceMap = Ok (Some p) →
     (pkey p ∉ occupiedSpots)
     ∧ ∃ cell, cell_at grid p = Some cell ∧ type cell = PARKING
               ∧ compatible_per_table carType (effective_spotType cell))
  ∧ (carType = EV →
     (∀ p cell, cell_at grid p = Some cell → type cell = PARKING →
                pkey p ∉ occupiedSpots → spotType cell = Some DISABLED) →
     findBestSpot score sort_by_score grid occupiedSpots entryPoint carType
                  profile mallDistanceMap = Ok None).
Proof.
  intros Hperm. split.
  - intros p Hf.
    apply (findBestSpot_eligible score sort_by_score Hperm) in Hf
      as (cell & Hc & Ht & Ho & Hcomp).
    split; [done|]. exists cell. split; [done|]. split; [done|].
    by apply is_compatible_table.
  - intros -> Hdis. apply findBestSpot_none.
    intros p (cell & Hc & Ht & Ho & Hcomp).
    unfold effective_spotType in Hcomp.
    by rewrite (Hdis p cell Hc Ht Ho) in Hcomp.
Qed.

Lemma findBestSpot_free_and_compatible_witness :
  (∀ l, sort_by_Z l ≡ₚ l)
  ∧ ((pkey (mkPoint 0 0) ∉ (∅ : gset string))
     ∧ ∃ cell, cell_at scenario_B (mkPoint 0 0) = Some cell
               ∧ type cell = PARKING
               ∧ compatible_per_table EV (effective_spotType cell))
  ∧ findBestSpot score_by_entry sort_by_Z scenario_B {[key 0 0]}
      (mkPoint 0 0) EV sample_profile None = Ok None.
Proof.
  split; [exact sort_by_Z_perm|]. split.
  - apply (findBestSpot_free_and_compatible score_by_entry sort_by_Z
             scenario_B ∅ (mkPoint 0 0) EV sample_profile None
             sort_by_Z_perm).
    vm_compute. reflexivity.
  - apply (findBestSpot_free_and_compatible score_by_entry sort_by_Z
             scenario_B {[key 0 0]} (mkPoint 0 0) EV sample_profile None
             sort_by_Z_perm); [reflexivity|].
    intros [x y] cell Hc Ht Ho.
    apply cell_at_Some in Hc as (row & Hr & Hc). simpl in *.
    apply js_index_Some in Hr as [Hy Hr].
    destruct (Z.to_nat y) as [|[|?]] eqn:Ey; simpl in Hr; try done.
    injection Hr as <-. apply js_index_Some in Hc as [Hx Hc].
    destruct (Z.to_nat x) as [|[|?]] eqn:Ex; simpl in Hc; try done.
    + injection Hc as <-. assert (x = 0) as -> by lia.
      assert (y = 0) as -> by lia. destruct Ho. unfold pkey. simpl.
      set_solver.
    + by injection Hc as <-.
Defined.

(** C10: whatever the preference, the cell [findBestSpot] returns is never a
    Reserved spot; and a free Parking cell that records no spot type counts
    as Standard: for a Standard and for an EV preference it is among the
    candidates, so the selector returns some spot, and returns this cell
    when no other cell is eligible. *)
Theorem findBestSpot_reserved_and_untyped {Score : Type}
    (score : DriverProfile → Dist → Z → nat → Score)
    (sort_by_score : list (Point * Score) → list (Point * Score))
    grid occupiedSpots entryPoint carType profile mallDistanceMap :
  (∀ l, sort_by_score l ≡ₚ l) →
  (∀ p cell,
     findBestSpot score sort_by_score grid occupiedSpots entryPoint carType
                  profile mallDistanceMap = Ok (Some p) →
     cell_at grid p = Some cell → spotType cell ≠ Some RESERVED)
  ∧ (∀ p cell,
       cell_at grid p = Some cell → type cell = PARKING →
       spotType cell = None → pkey p ∉ occupiedSpots →
       carType = STANDARD ∨ carType = EV →
       effective_spotType cell = STANDARD
       ∧ (∀ cands,
            spot_rows score occupiedSpots entryPoint carType profile
                      mallDistanceMap grid 0 [] = Ok cands →
            p ∈ cands.*1)
       ∧ (∀ r,
            findBestSpot score sort_by_score grid occupiedSpots entryPoint
                         carType profile mallDistanceMap = Ok r →
            r ≠ None
            ∧ ((∀ p', eligible grid occupiedSpots carType p' → p' = p) →
               r = Some p))).
Proof.
  intros Hperm. split.
  - intros p cell Hf Hc.
    apply (findBestSpot_eligible score sort_by_score Hperm) in Hf
      as (cell' & Hc' & Ht & Ho & Hcomp).
    assert (cell' = cell) as -> by congruence.
    intros Hres. unfold effective_spotType in Hcomp. rewrite Hres in Hcomp.
    by destruct carType.
  - intros p cell Hc Ht Hst Ho Hpref.
    assert (eligible grid occupiedSpots carType p) as He.
    { exists cell. split; [done|]. split; [done|]. split; [done|].
      unfold effective_spotType. rewrite Hst.
      by destruct Hpref as [-> | ->]. }
    split; [unfold effective_spotType; by rewrite Hst|]. split.
    + intros cands Hs. by eapply candidates_spec.
    + intros r Hf.
      destruct (findBestSpot_some score sort_by_score Hperm _ _ _ _ _ _ r p
                  Hf He) as (p' & -> & He').
      split; [done|]. intros Honly. by rewrite (Honly p' He').
Qed.

Lemma findBestSpot_reserved_and_untyped_witness :
  (∀ l, sort_by_Z l ≡ₚ l)
  ∧ findBestSpot score_by_entry sort_by_Z untyped_grid ∅ (mkPoint 0 0)
      STANDARD sample_profile None = Ok (Some (mkPoint 0 0))
  ∧ spotType (spot_cell None) ≠ Some RESERVED
  ∧ effective_spotType (spot_cell None) = STANDARD.
Proof.
  destruct (findBestSpot_reserved_and_untyped score_by_entry sort_by_Z
              untyped_grid ∅ (mkPoint 0 0) STANDARD sample_profile None
              sort_by_Z_perm) as [Hres Hunt].
  assert (findBestSpot score_by_entry sort_by_Z untyped_grid ∅ (mkPoint 0 0)
            STANDARD sample_profile None = Ok (Some (mkPoint 0 0))) as Hf.
  { vm_compute. reflexivity. }
  split; [exact sort_by_Z_perm|]. split; [exact Hf|]. split.
  - apply (Hres (mkPoint 0 0) (spot_cell None) Hf). reflexivity.
  - apply (Hunt (mkPoint 0 0) (spot_cell None)); try reflexivity.
    + set_solver.
    + by left.
Defined.


(** ** Claims C3 and C4: the clock when a car has no route *)

(** C3 fails on the code: when the route of a car is empty the tick takes the
    branch of a route of one cell. An Entering car becomes Parking where it
    stands, with a fresh dwell time; an Exiting car is dropped from the
    active set. *)
Theorem step_car_without_route grid exit strictFlow r car tgt st :
  car_target car = Some tgt →
  findPath grid (mkPoint (car_x car) (car_y car)) tgt strictFlow = Ok [] →
  (car_state car = entering →
   step_car grid exit strictFlow r car st
   = Ok (st.1 ++ [set_parking (set_path car []) (roll_parkingTime r car)],
         st.2))
  ∧ (car_state car = exiting →
     step_car grid exit strictFlow r car st = Ok st).
Proof.
  intros Ht Hf. unfold step_car. split; intros ->; rewrite Ht, Hf; done.
Qed.

Lemma step_car_without_route_witness :
  findPath blocked_grid (mkPoint 0 0) (mkPoint 2 0) true = Ok []
  ∧ step_car blocked_grid None true 0 (stuck_car entering) ([], ∅)
    = Ok ([set_parking (set_path (stuck_car entering) []) 20], ∅)
  ∧ step_car blocked_grid None true 0 (stuck_car exiting) ([], ∅)
    = Ok ([], ∅).
Proof.
  assert (findPath blocked_grid (mkPoint 0 0) (mkPoint 2 0) true = Ok [])
    as Hf by (vm_compute; reflexivity).
  split; [exact Hf|]. split.
  - apply (step_car_without_route blocked_grid None true 0
             (stuck_car entering) (mkPoint 2 0) ([], ∅) eq_refl Hf).
    reflexivity.
  - apply (step_car_without_route blocked_grid None true 0
             (stuck_car exiting) (mkPoint 2 0) ([], ∅) eq_refl Hf).
    reflexivity.
Defined.

(** C4 fails on the code, through the same branch: a car spawned on
    [blocked_grid] reserves the Parking cell, finds no route on the next
    tick and starts Parking on the Entry cell; one tick later it records
    the Entry cell as occupied too. After three ticks two spots are occupied
    while one car is Parking and none is Entering. *)
Theorem occupancy_count_breaks_without_route :
  ∃ s,
    run score_by_entry sort_by_Z blocked_grid true 10 None
        [spawn_draws; idle_draws; idle_draws] (mkSim 0 [] ∅) = Ok s
    ∧ sim_occupiedSpots s = {[key 2 0; key 0 0]}
    ∧ size (sim_occupiedSpots s) = 2%nat
    ∧ count_state parking (sim_cars s) = 1%nat
    ∧ count_state entering (sim_cars s) = 0%nat.
Proof.
  eexists. split; [vm_compute; reflexivity|].
  split; [|split; [|split]]; vm_compute; reflexivity.
Qed.


(** * Further properties of the route finder *)

Lemma visit_dir_fresh grid width height target strict pos path cur ad q v
    q' v' d :
  NoDup path → (∀ p, p ∈ path → pkey p ∈ v) →
  queue_fresh q v →
  visit_dir grid width height target strict pos path cur ad (q, v) d
    = Ok (q', v') →
  queue_fresh q' v' ∧ v ⊆ v'.
Proof.
  intros Hnd Hpv Hq Hv. unfold visit_dir in Hv. inv_bind Hv.
  destruct a as [n|]; simpl in Hv.
  2:{ by injection Hv as <- <-. }
  case_decide as Hn; [by injection Hv as <- <-|].
  injection Hv as <- <-. split.
  - intros p0 pa [Hin|Hin%list_elem_of_singleton]%elem_of_app.
    + destruct (Hq p0 pa Hin) as [Hnd0 Hv0]. split; [done|].
      intros p Hp. apply elem_of_union. right. by apply Hv0.
    + injection Hin as -> ->. split.
      * apply NoDup_app. split; [done|]. split; [|apply NoDup_singleton].
        intros p Hp ->%list_elem_of_singleton. apply Hn. by apply Hpv.
      * intros p [Hp|Hp%list_elem_of_singleton]%elem_of_app.
        -- apply elem_of_union. right. by apply Hpv.
        -- subst p. apply elem_of_union. left. by apply elem_of_singleton.
  - intros k Hk. apply elem_of_union. by right.
Qed.

Lemma visit_dirs_fresh grid width height target strict pos path cur ad dirs
    q v q' v' :
  NoDup path → (∀ p, p ∈ path → pkey p ∈ v) →
  queue_fresh q v →
  visit_dirs grid width height target strict pos path cur ad dirs (q, v)
    = Ok (q', v') →
  queue_fresh q' v'.
Proof.
  intros Hnd. revert q v.
  induction dirs as [|d dirs IH]; intros q v Hpv Hq Hv; simpl in Hv.
  - by injection Hv as <- <-.
  - inv_bind Hv. destruct a as [q1 v1].
    destruct (visit_dir_fresh _ _ _ _ _ _ _ _ _ _ _ _ _ _ Hnd Hpv Hq Ha)
      as [Hq1 Hsub].
    eapply (IH q1 v1); [|done|done].
    intros p Hp. apply Hsub. by apply Hpv.
Qed.

Lemma findPath_loop_fresh fuel grid width height target strict q v path :
  queue_fresh q v →
  findPath_loop fuel grid width height target strict q v = Ok path →
  NoDup path.
Proof.
  revert q v. induction fuel as [|fuel IH]; intros q v Hq Hl; [done|].
  rewrite findPath_loop_S in Hl.
  destruct q as [|[pos pa] rest]; [injection Hl as <-; constructor|].
  destruct (Hq pos pa) as [Hnd Hpv]; [left|].
  destruct (decide _) as [Ht|Ht]; [by injection Hl as <-|].
  destruct (cell_at grid pos) as [cur|]; [|done].
  inv_bind Hl. destruct a as [q1 v1]. simpl in Hl.
  eapply IH; [|done].
  eapply visit_dirs_fresh; [done..| |done].
  intros p l Hin. apply (Hq p l). by right.
Qed.

Lemma findPath_NoDup grid start target strict path :
  findPath grid start target strict = Ok path → NoDup path.
Proof.
  unfold findPath. destruct (grid !! 0%nat) as [row0|]; [|done].
  apply findPath_loop_fresh.
  intros pos pa Hin%list_elem_of_singleton. injection Hin as -> ->.
  split; [apply NoDup_singleton|].
  intros p ->%list_elem_of_singleton. by apply elem_of_singleton.
Qed.

Lemma legal_move_inv grid target strict a d :
  legal_move grid target strict a d = true →
  ∃ cur nxt,
    cell_at grid a = Some cur ∧ cell_at grid (move a d) = Some nxt
    ∧ in_grid grid (move a d)
    ∧ rule_flow_exit cur d = true
    ∧ rule_edges cur nxt d = true
    ∧ rule_sub_mask nxt = true
    ∧ rule_walkable strict target nxt (move a d) = true.
Proof.
  intros Hlm. pose proof (legal_move_in_grid _ _ _ _ _ Hlm) as Hin.
  unfold legal_move, move_ok in Hlm. apply andb_prop in Hlm as [_ Hm].
  destruct (cell_at grid a) as [cur|]; [|done].
  destruct (cell_at grid (move a d)) as [nxt|]; [|done].
  exists cur, nxt.
  repeat (apply andb_prop in Hm as [Hm ?]). done.
Qed.

Lemma rule_walkable_steppable grid strict target nxt n :
  cell_at grid n = Some nxt →
  rule_walkable strict target nxt n = true →
  steppable grid target n.
Proof.
  intros Hc Hw. exists nxt. split; [done|]. unfold rule_walkable in Hw.
  repeat (apply orb_prop in Hw as [Hw|Hw]).
  - apply bool_decide_eq_true in Hw. auto.
  - apply bool_decide_eq_true in Hw. auto.
  - apply andb_prop in Hw as [Ht Hn]. apply bool_decide_eq_true in Ht, Hn.
    auto.
  - apply andb_prop in Hw as [Ht _]. apply bool_decide_eq_true in Ht. auto.
Qed.

Lemma legal_move_relax grid target a d :
  legal_move grid target true a d = true →
  legal_move grid target false a d = true.
Proof.
  unfold legal_move, move_ok. intros [Hin Hm]%andb_prop.
  rewrite Hin. simpl.
  destruct (cell_at grid a) as [cur|]; [|done].
  destruct (cell_at grid (move a d)) as [nxt|]; [|done].
  apply andb_prop in Hm as [Hm Hw]. apply andb_prop in Hm as [Hm Hs].
  apply andb_prop in Hm as [Hm He]. apply andb_prop in Hm as [Hf Ho].
  rewrite Hf, He, Hs. simpl.
  unfold rule_walkable in *. simpl in *.
  destruct (bool_decide (type nxt = PATH)); [by rewrite orb_true_r|].
  simpl in *. by rewrite orb_false_r in *.
Qed.

Lemma grown_relax grid start target goal l :
  grown (legal_step grid target true) start goal l →
  grown (legal_step grid target false) start goal l.
Proof.
  induction 1 as [|a l b Hg IH (d & Hd & -> & Hlm)]; [constructor|].
  eapply grown_step; [done|]. exists d.
  split; [done|]. split; [done|]. by apply legal_move_relax.
Qed.

(** What [findPath] returns on a rectangular grid that contains the start
    cell, in terms of the routes the search can grow. *)
Lemma findPath_result grid start target strict :
  rect grid → in_grid grid start →
  ∃ path,
    findPath grid start target strict = Ok path
    ∧ ((path = [] ∧ ∀ l, ¬ grown (legal_step grid target strict) start target l)
       ∨ (grown (legal_step grid target strict) start target path
          ∧ ∀ l, grown (legal_step grid target strict) start target l →
                 (length path ≤ length l)%nat)).
Proof.
  intros Hrect Hstart.
  pose proof (findPath_terminates grid start target strict) as Hterm.
  unfold findPath in *.
  destruct (grid !! 0%nat) as [row0|] eqn:Hrow0.
  2:{ destruct Hstart as [_ Hy]. destruct grid; [simpl in Hy; lia|done]. }
  destruct (findPath_loop_correct grid row0 start target strict Hrow0 Hrect
              (S (S (length row0 * length grid))) (λ _, 1%nat)
              [(start, [start])] {[pkey start]}) as [Hout|(path & Hp & Hres)];
    [|done|by exists path].
  split.
  - split; [by apply elem_of_singleton|done].
  - intros pos pa Hin%list_elem_of_singleton. injection Hin as -> ->.
    split; [constructor|]. split; [done|by apply elem_of_singleton].
  - simpl. repeat constructor.
  - intros; lia.
  - intros p Hp%elem_of_singleton%pkey_inj Hnq. subst p.
    destruct Hnq. simpl. left.
  - intros p Hp%elem_of_singleton%pkey_inj. by subst p.
Qed.

(** ** The loop of the route finder ends *)

(** X1: whatever the grid (jagged or empty), the start and the target,
    [findPath] returns or throws: the [while] loop never needs more than
    [width * height + 2] tests of its condition. *)
Theorem findPath_returns_or_throws grid start target strict :
  (∃ path, findPath grid start target strict = Ok path)
  ∨ findPath grid start target strict = TypeError.
Proof.
  pose proof (findPath_terminates grid start target strict) as Hterm.
  destruct (findPath grid start target strict); [eauto|by right|done].
Qed.

(** ** Shape of a returned route *)

(** X2: a returned route visits no cell twice. *)
Theorem findPath_route_visits_cells_once grid start target strict path :
  findPath grid start target strict = Ok path → NoDup path.
Proof. apply findPath_NoDup. Qed.

Lemma findPath_route_visits_cells_once_witness :
  findPath loop_grid (mkPoint 0 0) (mkPoint 0 2) true
    = Ok [mkPoint 0 0; mkPoint 1 0; mkPoint 2 0; mkPoint 2 1; mkPoint 2 2;
          mkPoint 1 2; mkPoint 0 2]
  ∧ NoDup [mkPoint 0 0; mkPoint 1 0; mkPoint 2 0; mkPoint 2 1; mkPoint 2 2;
           mkPoint 1 2; mkPoint 0 2].
Proof.
  assert (findPath loop_grid (mkPoint 0 0) (mkPoint 0 2) true
          = Ok [mkPoint 0 0; mkPoint 1 0; mkPoint 2 0; mkPoint 2 1;
                mkPoint 2 2; mkPoint 1 2; mkPoint 0 2]) as Hf.
  { vm_compute. reflexivity. }
  split; [exact Hf|].
  exact (findPath_route_visits_cells_once loop_grid (mkPoint 0 0)
           (mkPoint 0 2) true _ Hf).
Defined.

(** X3: every cell of a returned route after the first lies inside the grid
    and is an Entry, an Exit or a Path cell, or is the target; a Parking cell
    is stepped on only as the target, at the end of the route. *)
Theorem findPath_route_cells_are_steppable grid start target strict path :
  findPath grid start target strict = Ok path →
  ∀ i p, (0 < i)%nat → path !! i = Some p →
    in_grid grid p ∧ steppable grid target p
    ∧ ∀ c, cell_at grid p = Some c → type c = PARKING →
           p = target ∧ S i = length path.
Proof.
  intros Hf i p Hi Hp.
  pose proof (findPath_NoDup _ _ _ _ _ Hf) as Hnd.
  apply findPath_sound in Hf as [->|Hg]; [by rewrite lookup_nil in Hp|].
  apply grown_route_of in Hg as (_ & Hlast & Hc).
  destruct i as [|i]; [lia|].
  destruct (path !! i) as [a|] eqn:Ha.
  2:{ apply lookup_ge_None in Ha. apply lookup_lt_Some in Hp. lia. }
  destruct (chain_lookup _ _ _ _ _ Hc Ha Hp) as (d & _ & -> & Hm).
  apply legal_move_inv in Hm
    as (cur & nxt & Hcur & Hnxt & Hin & _ & _ & _ & Hw).
  pose proof (rule_walkable_steppable _ _ _ _ _ Hnxt Hw) as Hst.
  split; [done|]. split; [done|].
  intros c Hc' Ht. destruct Hst as (c' & Hc'' & Hty).
  assert (c' = c) as -> by congruence.
  destruct Hty as [Hty|[Hty|[Hty|[_ Htg]]]]; try congruence.
  split; [done|]. rewrite last_lookup in Hlast.
  rewrite <- Htg in Hlast.
  pose proof (NoDup_lookup _ _ _ _ Hnd Hp Hlast) as Hidx.
  apply lookup_lt_Some in Hp. lia.
Qed.

Lemma findPath_route_cells_are_steppable_witness :
  findPath loop_grid (mkPoint 0 0) (mkPoint 0 2) true
    = Ok [mkPoint 0 0; mkPoint 1 0; mkPoint 2 0; mkPoint 2 1; mkPoint 2 2;
          mkPoint 1 2; mkPoint 0 2]
  ∧ (in_grid loop_grid (mkPoint 0 2)
     ∧ steppable loop_grid (mkPoint 0 2) (mkPoint 0 2)
     ∧ ∀ c, cell_at loop_grid (mkPoint 0 2) = Some c → type c = PARKING →
            mkPoint 0 2 = mkPoint 0 2 ∧ 7%nat = 7%nat).
Proof.
  assert (findPath loop_grid (mkPoint 0 0) (mkPoint 0 2) true
          = Ok [mkPoint 0 0; mkPoint 1 0; mkPoint 2 0; mkPoint 2 1;
                mkPoint 2 2; mkPoint 1 2; mkPoint 0 2]) as Hf.
  { vm_compute. reflexivity. }
  split; [exact Hf|].
  apply (findPath_route_cells_are_steppable loop_grid (mkPoint 0 0)
           (mkPoint 0 2) true _ Hf 6%nat (mkPoint 0 2)); [lia|reflexivity].
Defined.

Lemma route_step_inv grid start target strict path i a b d :
  findPath grid start target strict = Ok path →
  path !! i = Some a → path !! S i = Some b →
  d ∈ directions → b = move a d →
  legal_move grid target strict a d = true.
Proof.
  intros Hf Ha Hb Hd ->.
  apply findPath_sound in Hf as [->|Hg]; [by rewrite lookup_nil in Ha|].
  apply grown_route_of in Hg as (_ & _ & Hc).
  destruct (chain_lookup _ _ _ _ _ Hc Ha Hb) as (d' & Hd' & Heq & Hm).
  by rewrite (dir_unique a d d' Hd Hd' Heq).
Qed.



(** X5: with or without strict flow, every step of a returned route that
    leaves a Path cell with an active flow goes in the direction of its
    rotation. *)
Theorem findPath_route_follows_flow grid start target strict path :
  findPath grid start target strict = Ok path →
  steps_follow_flow grid path.
Proof.
  intros Hf i a b ca d Ha Hb Hca Hd Hmv Hty Hfl.
  pose proof (route_step_inv _ _ _ _ _ _ _ _ _ Hf Ha Hb Hd Hmv) as Hm.
  apply legal_move_inv in Hm as (cur & nxt & Hcur & _ & _ & Hfx & _).
  assert (cur = ca) as -> by congruence.
  unfold rule_flow_exit, flow_blocks, allowed_degrees in Hfx.
  rewrite decide_True, Hfl in Hfx by done.
  apply negb_true_iff, negb_false_iff, bool_decide_eq_true in Hfx. done.
Qed.

Lemma findPath_route_follows_flow_witness :
  findPath loop_grid (mkPoint 0 0) (mkPoint 0 2) false
    = Ok [mkPoint 0 0; mkPoint 1 0; mkPoint 2 0; mkPoint 2 1; mkPoint 2 2;
          mkPoint 1 2; mkPoint 0 2]
  ∧ steps_follow_flow loop_grid
      [mkPoint 0 0; mkPoint 1 0; mkPoint 2 0; mkPoint 2 1; mkPoint 2 2;
       mkPoint 1 2; mkPoint 0 2].
Proof.
  assert (findPath loop_grid (mkPoint 0 0) (mkPoint 0 2) false
          = Ok [mkPoint 0 0; mkPoint 1 0; mkPoint 2 0; mkPoint 2 1;
                mkPoint 2 2; mkPoint 1 2; mkPoint 0 2]) as Hf.
  { vm_compute. reflexivity. }
  split; [exact Hf|].
  exact (findPath_route_follows_flow loop_grid (mkPoint 0 0) (mkPoint 0 2)
           false _ Hf).
Defined.

(** X6: on a rectangular grid that contains the start cell, switching
    strict flow off never loses a route and never lengthens it: when the
    strict search returns a route, the search without strict flow returns
    one with no more cells. *)
Theorem findPath_relaxed_route_no_longer grid start target strictPath :
  rect grid → in_grid grid start →
  findPath grid start target true = Ok strictPath →
  strictPath ≠ [] →
  ∃ path, findPath grid start target false = Ok path
          ∧ path ≠ [] ∧ (length path ≤ length strictPath)%nat.
Proof.
  intros Hrect Hstart Hf Hne.
  apply findPath_sound in Hf as [->|Hg]; [done|].
  apply grown_relax in Hg.
  destruct (findPath_result grid start target false Hrect Hstart)
    as (path & Hp & [[-> Hnone]|[Hg' Hmin]]).
  - by destruct (Hnone strictPath).
  - exists path. split; [done|]. split; [|by apply Hmin].
    apply grown_length in Hg'. destruct path; simpl in *; [lia|done].
Qed.

Lemma findPath_relaxed_route_no_longer_witness :
  rect loop_grid ∧ in_grid loop_grid (mkPoint 0 0)
  ∧ ∃ path, findPath loop_grid (mkPoint 0 0) (mkPoint 0 2) false = Ok path
            ∧ path ≠ [] ∧ (length path ≤ 7)%nat.
Proof.
  assert (rect loop_grid) as Hr by (by vm_compute; repeat constructor).
  assert (in_grid loop_grid (mkPoint 0 0)) as Hs.
  { vm_compute. repeat split; intros; discriminate. }
  split; [exact Hr|]. split; [exact Hs|].
  apply (findPath_relaxed_route_no_longer loop_grid (mkPoint 0 0)
           (mkPoint 0 2)
           [mkPoint 0 0; mkPoint 1 0; mkPoint 2 0; mkPoint 2 1; mkPoint 2 2;
            mkPoint 1 2; mkPoint 0 2] Hr Hs).
  - vm_compute. reflexivity.
  - discriminate.
Defined.


(** * Entry and exit cells *)

Lemma cell_at_nat (grid : Grid) p c :
  cell_at grid p = Some c ↔
  0 ≤ px p ∧ 0 ≤ py p
  ∧ ∃ row, grid !! Z.to_nat (py p) = Some row
           ∧ row !! Z.to_nat (px p) = Some c.
Proof.
  unfold cell_at. split.
  - destruct (js_index grid (py p)) as [row|] eqn:Hr; [|done].
    intros Hc. apply js_index_Some in Hr as [? ?].
    apply js_index_Some in Hc as [? ?]. eauto.
  - intros (Hx & Hy & row & Hr & Hc).
    unfold js_index. rewrite decide_True by done. rewrite Hr.
    by rewrite decide_True.
Qed.

Lemma entries_row_spec row x y p :
  p ∈ entries_row row x y ↔
  py p = Z.of_nat y
  ∧ ∃ i c, row !! i = Some c ∧ type c = ENTRY ∧ px p = Z.of_nat (x + i).
Proof.
  revert x. induction row as [|cell row IH]; intros x; simpl.
  - split; [by intros ?%elem_of_nil|]. by intros (_ & i & c & ? & _).
  - rewrite elem_of_app, IH. split.
    + intros [Hp|(Hy & i & c & Hi & Ht & Hx)].
      * case_decide as Ht; [|by apply elem_of_nil in Hp].
        apply list_elem_of_singleton in Hp as ->. simpl.
        split; [done|]. exists 0%nat, cell. repeat split; [done|].
        f_equal. lia.
      * split; [done|]. exists (S i), c. repeat split; [done..|]. lia.
    + intros (Hy & [|i] & c & Hi & Ht & Hx); simpl in Hi.
      * injection Hi as ->. left. rewrite decide_True by done.
        apply list_elem_of_singleton. destruct p; simpl in *. subst.
        f_equal. lia.
      * right. split; [done|]. exists i, c. repeat split; [done..|]. lia.
Qed.

Lemma entries_rows_spec rows y p :
  p ∈ entries_rows rows y ↔
  ∃ j row i c, rows !! j = Some row ∧ row !! i = Some c ∧ type c = ENTRY
               ∧ py p = Z.of_nat (y + j) ∧ px p = Z.of_nat i.
Proof.
  revert y. induction rows as [|row rows IH]; intros y; simpl.
  - split; [by intros ?%elem_of_nil|]. by intros (j & r & ? & ? & ? & _).
  - rewrite elem_of_app, IH, entries_row_spec. split.
    + intros [(Hy & i & c & Hi & Ht & Hx)|(j & r & i & c & Hj & Hi & Ht & Hy & Hx)].
      * exists 0%nat, row, i, c. repeat split; try done. lia.
      * exists (S j), r, i, c. repeat split; try done. lia.
    + intros ([|j] & r & i & c & Hj & Hi & Ht & Hy & Hx); simpl in Hj.
      * injection Hj as ->. left. split; [lia|]. by exists i, c.
      * right. exists j, r, i, c. repeat split; try done. lia.
Qed.

Lemma entries_row_sorted row x y :
  StronglySorted scan_lt (entries_row row x y).
Proof.
  revert x. induction row as [|cell row IH]; intros x; simpl; [constructor|].
  case_decide; simpl; [|apply IH]. constructor; [apply IH|].
  apply Forall_forall. intros p (Hy & i & c & _ & _ & Hx)%entries_row_spec.
  right. simpl. lia.
Qed.

Lemma StronglySorted_app_scan l1 l2 :
  StronglySorted scan_lt l1 → StronglySorted scan_lt l2 →
  (∀ p q, p ∈ l1 → q ∈ l2 → scan_lt p q) →
  StronglySorted scan_lt (l1 ++ l2).
Proof.
  intros H1 H2 H12. induction H1 as [|a l1 Hs IH Ha]; simpl; [done|].
  constructor.
  - apply IH. intros p q Hp Hq. apply H12; [by right|done].
  - apply Forall_app. split; [done|].
    apply Forall_forall. intros q Hq. apply H12; [left|done].
Qed.

Lemma entries_rows_sorted rows y :
  StronglySorted scan_lt (entries_rows rows y).
Proof.
  revert y. induction rows as [|row rows IH]; intros y; simpl; [constructor|].
  apply StronglySorted_app_scan; [apply entries_row_sorted|apply IH|].
  intros p q (Hy & _)%entries_row_spec
    (j & r & i & c & _ & _ & _ & Hy' & _)%entries_rows_spec.
  left. lia.
Qed.

(** X7: [getEntryPoints] lists exactly the Entry cells of the grid, each
    once, in the order of a scan row by row. *)
Theorem getEntryPoints_lists_entry_cells grid :
  (∀ p, p ∈ getEntryPoints grid ↔ is_entry grid p)
  ∧ StronglySorted scan_lt (getEntryPoints grid)
  ∧ NoDup (getEntryPoints grid).
Proof.
  assert (StronglySorted scan_lt (getEntryPoints grid)) as Hs.
  { apply entries_rows_sorted. }
  split; [|split; [done|]].
  - intros p. unfold getEntryPoints, is_entry.
    rewrite entries_rows_spec. split.
    + intros (j & r & i & c & Hj & Hi & Ht & Hy & Hx).
      exists c. split; [|done]. apply cell_at_nat.
      split; [lia|]. split; [lia|]. exists r.
      rewrite Hy, Hx, !Nat2Z.id. done.
    + intros (c & (Hx & Hy & r & Hr & Hc)%cell_at_nat & Ht).
      exists (Z.to_nat (py p)), r, (Z.to_nat (px p)), c.
      repeat split; try done; lia.
  - induction Hs as [|a l Hs IH Ha]; constructor; [|done].
    intros Hin. rewrite Forall_forall in Ha. specialize (Ha a Hin).
    unfold scan_lt in Ha. lia.
Qed.

Lemma exit_cols_spec row n x y :
  (x + n ≤ length row)%nat →
  ∃ r, exit_cols row n x y = Ok r
       ∧ match r with
         | Some p =>
             py p = Z.of_nat y
             ∧ ∃ i c, (x ≤ i < x + n)%nat ∧ px p = Z.of_nat i
                      ∧ row !! i = Some c ∧ type c = EXIT
                      ∧ ∀ j c', (x ≤ j < i)%nat → row !! j = Some c' →
                                type c' ≠ EXIT
         | None =>
             ∀ j c', (x ≤ j < x + n)%nat → row !! j = Some c' →
                     type c' ≠ EXIT
         end.
Proof.
  revert x. induction n as [|n IH]; intros x Hlen; simpl.
  - exists None. split; [done|]. intros; lia.
  - destruct (lookup_lt_is_Some_2 row x) as [cell Hcell]; [lia|].
    rewrite Hcell. case_decide as Ht.
    + eexists. split; [done|]. simpl. split; [done|].
      exists x, cell. repeat split; try done; try lia.
    + destruct (IH (S x)) as (r & -> & Hr); [lia|].
      exists r. split; [done|]. destruct r as [p|].
      * destruct Hr as (Hy & i & c & Hi & Hx & Hc & Hty & Hbefore).
        split; [done|]. exists i, c. repeat split; try done; try lia.
        intros j c' Hj Hc'. destruct (decide (j = x)) as [->|Hne].
        -- congruence.
        -- apply (Hbefore j); [lia|done].
      * intros j c' Hj Hc'. destruct (decide (j = x)) as [->|Hne].
        -- congruence.
        -- apply (Hr j); [lia|done].
Qed.

Lemma exit_rows_spec rows width y :
  Forall (λ r, length r = width) rows →
  ∃ r, exit_rows rows width y = Ok r
       ∧ match r with
         | Some p =>
             ∃ j row i c,
               rows !! j = Some row ∧ py p = Z.of_nat (y + j)
               ∧ px p = Z.of_nat i ∧ row !! i = Some c ∧ type c = EXIT
               ∧ (∀ i' c', (i' < i)%nat → row !! i' = Some c' →
                           type c' ≠ EXIT)
               ∧ (∀ j' row' i' c', (j' < j)%nat → rows !! j' = Some row' →
                                   row' !! i' = Some c' → type c' ≠ EXIT)
         | None =>
             ∀ j row i c, rows !! j = Some row → row !! i = Some c →
                          type c ≠ EXIT
         end.
Proof.
  revert y. induction rows as [|row rows IH]; intros y Hall; simpl.
  - exists None. split; [done|]. intros j row i c Hj. by destruct j.
  - apply Forall_cons in Hall as [Hlen Hall].
    destruct (exit_cols_spec row width 0 y) as (r0 & -> & Hr0); [lia|].
    simpl. destruct r0 as [p|].
    + exists (Some p). split; [done|].
      destruct Hr0 as (Hy & i & c & Hi & Hx & Hc & Hty & Hbefore).
      exists 0%nat, row, i, c. repeat split; try done.
      * rewrite Hy. f_equal. lia.
      * intros i' c' Hi' Hc'. apply (Hbefore i'); [lia|done].
      * intros; lia.
    + assert (Hrow : ∀ i c, row !! i = Some c → type c ≠ EXIT).
      { intros i c Hc. apply (Hr0 i); [|done].
        apply lookup_lt_Some in Hc. lia. }
      destruct (IH (S y) Hall) as (r & -> & Hr).
      exists r. split; [done|]. destruct r as [p|].
      * destruct Hr as (j & r & i & c & Hj & Hy & Hx & Hc & Hty & Hb1 & Hb2).
        exists (S j), r, i, c. repeat split; try done.
        -- rewrite Hy. f_equal. lia.
        -- intros [|j'] row' i' c' Hj' Hr' Hc'; simpl in Hr'.
           ++ injection Hr' as <-. by eapply Hrow.
           ++ apply (Hb2 j' row' i' c'); [lia|done..].
      * intros [|j] row' i c Hj Hc; simpl in Hj.
        -- injection Hj as <-. by eapply Hrow.
        -- by eapply Hr.
Qed.

(** X8: on a rectangular grid [getExitPoint] never throws; it returns no
    cell exactly when the grid has no Exit cell (so also on an empty grid),
    and otherwise the Exit cell that a scan row by row meets first. *)
Theorem getExitPoint_first_exit_cell grid :
  rect grid →
  ∃ r, getExitPoint grid = Ok r
       ∧ match r with
         | Some p => is_exit grid p ∧ ∀ q, is_exit grid q → ¬ scan_lt q p
         | None => ∀ q, ¬ is_exit grid q
         end.
Proof.
  intros Hrect. unfold getExitPoint.
  destruct (exit_rows_spec grid (grid_width grid) 0 Hrect) as (r & -> & Hr).
  exists r. split; [done|]. destruct r as [p|].
  - destruct Hr as (j & row & i & c & Hj & Hy & Hx & Hc & Hty & Hb1 & Hb2).
    simpl in Hy. split.
    + exists c. split; [|done]. apply cell_at_nat.
      split; [lia|]. split; [lia|]. exists row.
      by rewrite Hy, Hx, !Nat2Z.id.
    + intros q (c' & (Hqx & Hqy & row' & Hr' & Hc')%cell_at_nat & Hty')
        [Hlt|[Heq Hlt]].
      * apply (Hb2 (Z.to_nat (py q)) row' (Z.to_nat (px q)) c'); [lia|done..].
      * assert (row' = row) as -> by (rewrite Heq, Hy, Nat2Z.id in Hr'; congruence).
        apply (Hb1 (Z.to_nat (px q)) c'); [lia|done..].
  - intros q (c & (Hqx & Hqy & row & Hr' & Hc)%cell_at_nat & Hty).
    by apply (Hr _ _ _ _ Hr' Hc).
Qed.

Lemma getExitPoint_first_exit_cell_witness :
  rect gate_grid
  ∧ ∃ r, getExitPoint gate_grid = Ok r
         ∧ match r with
           | Some p =>
               is_exit gate_grid p ∧ ∀ q, is_exit gate_grid q → ¬ scan_lt q p
           | None => ∀ q, ¬ is_exit gate_grid q
           end.
Proof.
  assert (rect gate_grid) as Hr by (by vm_compute; repeat constructor).
  split; [exact Hr|]. exact (getExitPoint_first_exit_cell gate_grid Hr).
Defined.

(** * Further properties of the distance field *)

(** The field returned on a rectangular grid is sound and closed. *)
Lemma mall_map_final grid :
  rect grid →
  ∃ d, generateMallDistanceMap grid = Ok d
       ∧ field_ok grid d ∧ ∀ p, mall_closed grid d p.
Proof.
  intros Hrect. unfold generateMallDistanceMap.
  destruct (seeding_spec grid Hrect) as (q0 & d0 & -> & Hseed & Hlen).
  cbn [rbind fst snd].
  destruct Hseed as [Hshape Hval Hmall Hq].
  assert (Hscan : ∀ p, is_mall grid p → scanned (length grid) 0 p).
  { intros p (c & Hc & _).
    apply (cell_at_bounds _ _ _ Hrect) in Hc as [_ Hy]. left. lia. }
  assert (Hzero : ∀ p, p ∈ q0 → dist_at d0 p = Some (Num 0)).
  { intros p Hp. apply Hmall; [by apply Hq|]. by apply Hscan, Hq. }
  assert (Hnum : ∀ p n, dist_at d0 p = Some (Num n) →
                        n = 0 ∧ is_mall grid p ∧ p ∈ q0).
  { intros p n Hn. destruct (Hval p _ Hn) as [?|(Hn0 & Hm & Hsc)]; [done|].
    injection Hn0 as ->. split; [done|]. split; [done|]. by apply Hmall. }
  destruct (mall_loop_correct grid Hrect
              (S (length (concat grid) + grid_width grid * length grid))
              q0 d0) as (d & Hd & Hf & Hcl); [| |by exists d].
  - split.
    + split; [done| |].
      * intros p v Hv. destruct (Hval p v Hv) as [->|(-> & Hm & _)];
          [by left|]. right. exists 0%nat. split; [done|by constructor].
      * intros p Hp. apply Hmall; [done|by apply Hscan].
    + intros p Hp. exists 0. by apply Hzero.
    + assert (Forall (λ z, z = 0) (lvl d0 <$> q0)) as Hall.
      { apply Forall_forall. intros z (p & -> & Hp)%list_elem_of_fmap.
        unfold lvl. by rewrite (Hzero p Hp). }
      induction Hall as [|z l -> Hall IH]; constructor; [done|].
      eapply Forall_impl; [done|]. simpl. lia.
    + intros u p n Hu Hn. apply Hnum in Hn as (-> & _ & _).
      assert (u ∈ q0) as Huq by (destruct q0; simplify_eq/=; left).
      unfold lvl. rewrite (Hzero u Huq). lia.
    + intros p Hpq n dir Hn. by apply Hnum in Hn as (_ & _ & ?).
  - pose proof (count_inf_le (all_cells (grid_width grid) (length grid)) d0)
      as Hc. rewrite all_cells_length in Hc. lia.
Qed.

Lemma reach_passable grid p n : reach grid p n → passable grid p.
Proof. destruct 1; [by apply is_mall_passable|done]. Qed.

Lemma adjacent_sym a b : adjacent a b → adjacent b a.
Proof. unfold adjacent. lia. Qed.

(** X9: in the field of a rectangular grid two orthogonally adjacent cells
    that are not Walls are either both unreachable ([Infinity]) or both
    reachable, with distances that differ by at most one. *)
Theorem mall_distance_changes_by_one grid d a b :
  rect grid →
  generateMallDistanceMap grid = Ok d →
  adjacent a b → passable grid a → passable grid b →
  (dist_at d a = Some Infinity ∧ dist_at d b = Some Infinity)
  ∨ ∃ n m, dist_at d a = Some (Num n) ∧ dist_at d b = Some (Num m)
           ∧ Z.abs (n - m) ≤ 1.
Proof.
  intros Hrect Hd Hadj Ha Hb.
  destruct (mall_map_final grid Hrect) as (d' & Hd' & Hf & Hcl).
  assert (d' = d) as -> by congruence.
  assert (Hval : ∀ p, passable grid p →
            dist_at d p = Some Infinity ∨ ∃ n, dist_at d p = Some (Num n)).
  { intros p (c & Hc & _).
    apply (cell_at_bounds _ _ _ Hrect) in Hc as [Hx Hy].
    destruct (dist_at_is_Some _ _ d p (fo_shape _ _ Hf) Hx Hy) as [v Hv].
    destruct (fo_values _ _ Hf p v Hv) as [->|(n & -> & _)]; eauto. }
  assert (Hnext : ∀ p q n, adjacent p q → passable grid q →
            dist_at d p = Some (Num n) →
            ∃ m, dist_at d q = Some (Num m) ∧ m ≤ n + 1).
  { intros p q n Hpq Hq Hn.
    apply adjacent_sym, adjacent_shift in Hpq as (dir & Hdir & ->).
    by apply (Hcl p n dir). }
  destruct (Hval a Ha) as [Hia|[n Hn]].
  - destruct (Hval b Hb) as [Hib|[m Hm]]; [by left|].
    destruct (Hnext b a m (adjacent_sym _ _ Hadj) Ha Hm) as (n & Hn & _).
    congruence.
  - destruct (Hnext a b n Hadj Hb Hn) as (m & Hm & Hle).
    destruct (Hnext b a m (adjacent_sym _ _ Hadj) Ha Hm) as (n' & Hn' & Hle').
    assert (n' = n) as -> by congruence.
    right. exists n, m. repeat split; [done..|lia].
Qed.

Lemma mall_distance_changes_by_one_witness :
  rect mall_grid
  ∧ (dist_at [[Num 6; Num 5; Num 4]; [Infinity; Infinity; Num 3];
              [Num 0; Num 1; Num 2]] (mkPoint 1 0) = Some Infinity
     ∧ dist_at [[Num 6; Num 5; Num 4]; [Infinity; Infinity; Num 3];
                [Num 0; Num 1; Num 2]] (mkPoint 2 0) = Some Infinity
     ∨ ∃ n m,
         dist_at [[Num 6; Num 5; Num 4]; [Infinity; Infinity; Num 3];
                  [Num 0; Num 1; Num 2]] (mkPoint 1 0) = Some (Num n)
         ∧ dist_at [[Num 6; Num 5; Num 4]; [Infinity; Infinity; Num 3];
                    [Num 0; Num 1; Num 2]] (mkPoint 2 0) = Some (Num m)
         ∧ Z.abs (n - m) ≤ 1).
Proof.
  assert (rect mall_grid) as Hr by (by vm_compute; repeat constructor).
  split; [exact Hr|].
  apply (mall_distance_changes_by_one mall_grid _ (mkPoint 1 0) (mkPoint 2 0)
           Hr).
  - vm_compute. reflexivity.
  - vm_compute. reflexivity.
  - eexists. split; [vm_compute; reflexivity|]. vm_compute. discriminate.
  - eexists. split; [vm_compute; reflexivity|]. vm_compute. discriminate.
Defined.

(** X10: in the field of a rectangular grid every Wall cell holds
    [Infinity], even one that touches a Mall cell. *)
Theorem mall_distance_of_wall_is_infinite grid d p c :
  rect grid →
  generateMallDistanceMap grid = Ok d →
  cell_at grid p = Some c → type c = WALL →
  dist_at d p = Some Infinity.
Proof.
  intros Hrect Hd Hc Ht.
  destruct (mall_map_final grid Hrect) as (d' & Hd' & Hf & _).
  assert (d' = d) as -> by congruence.
  pose proof (cell_at_bounds _ _ _ Hrect Hc) as [Hx Hy].
  destruct (dist_at_is_Some _ _ d p (fo_shape _ _ Hf) Hx Hy) as [v Hv].
  destruct (fo_values _ _ Hf p v Hv) as [->|(n & -> & Hr)]; [done|].
  apply reach_passable in Hr as (c' & Hc' & Hne). congruence.
Qed.

Lemma mall_distance_of_wall_is_infinite_witness :
  rect mall_grid
  ∧ dist_at [[Num 6; Num 5; Num 4]; [Infinity; Infinity; Num 3];
             [Num 0; Num 1; Num 2]] (mkPoint 0 1) = Some Infinity.
Proof.
  assert (rect mall_grid) as Hr by (by vm_compute; repeat constructor).
  split; [exact Hr|].
  apply (mall_distance_of_wall_is_infinite mall_grid _ (mkPoint 0 1)
           (plain_cell WALL) Hr); vm_compute; reflexivity.
Defined.

(** * Further properties of the spot selector *)

Section SelectorReads.
Context {Score : Type}.
Variable score : DriverProfile → Dist → Z → nat → Score.
Variable sort_by_score : list (Point * Score) → list (Point * Score).
Hypothesis sort_perm : ∀ l, sort_by_score l ≡ₚ l.

Variables (grid : Grid) (occupiedSpots : gset string) (entryPoint : Point)
          (carType : SpotType) (profile : DriverProfile)
          (mallDistanceMap : option DistMap).

Let E := eligible grid occupiedSpots carType.

(** The scan of a row succeeds when the distance map, if any, has that row. *)
Lemma spot_row_defined row x y cands :
  match mallDistanceMap with
  | Some m => is_Some (js_index m (Z.of_nat y))
  | None => True
  end →
  ∃ cands',
    spot_row score occupiedSpots entryPoint carType profile mallDistanceMap
             row x y cands = Ok cands'.
Proof.
  intros Hm. revert x cands.
  induction row as [|cell row IH]; intros x cands; simpl; [eauto|].
  destruct (bool_decide (type cell = PARKING) && _); simpl; [|apply IH].
  destruct (is_compatible carType _); simpl; [|apply IH].
  destruct mallDistanceMap as [m|]; simpl; [|apply IH].
  unfold dm_get. destruct Hm as [r ->]. simpl. apply IH.
Qed.

Lemma spot_rows_defined rows y cands :
  match mallDistanceMap with
  | Some m => (y + length rows ≤ length m)%nat
  | None => True
  end →
  ∃ cands',
    spot_rows score occupiedSpots entryPoint carType profile mallDistanceMap
              rows y cands = Ok cands'.
Proof.
  revert y cands. induction rows as [|row rows IH]; intros y cands Hm; simpl;
    [eauto|].
  destruct (spot_row_defined row 0 y cands) as [c1 ->].
  { destruct mallDistanceMap as [m|]; [|done].
    apply js_index_is_Some. simpl in Hm. lia. }
  simpl. apply IH. destruct mallDistanceMap as [m|]; [|done].
  simpl in Hm. lia.
Qed.

Lemma findBestSpot_defined :
  match mallDistanceMap with
  | Some m => (length grid ≤ length m)%nat
  | None => True
  end →
  ∃ r, findBestSpot score sort_by_score grid occupiedSpots entryPoint carType
                    profile mallDistanceMap = Ok r
       ∧ (r = None ↔ ∀ p, ¬ E p).
Proof.
  intros Hm. unfold findBestSpot.
  destruct (spot_rows_defined grid 0 []) as [cands Hc].
  { by destruct mallDistanceMap. }
  rewrite Hc. simpl.
  pose proof (candidates_spec score _ _ _ _ _ _ _ Hc) as Hspec.
  destruct cands as [|c0 cands].
  - exists None. split; [done|]. split; [|done].
    intros _ p Hp. apply Hspec in Hp. by apply elem_of_nil in Hp.
  - destruct (sort_by_score (c0 :: cands)) as [|c sorted] eqn:Hs.
    { pose proof (sort_perm (c0 :: cands)) as Hp. rewrite Hs in Hp.
      by apply Permutation_nil_cons in Hp. }
    exists (Some c.1). split; [done|]. split; [done|].
    intros Hnone. destruct (Hnone c0.1). apply Hspec.
    apply list_elem_of_fmap_2. left.
Qed.

(** The scan of a row that succeeds has read the distance map wherever a
    cell of the row is eligible. *)
Lemma spot_row_reads m y rest pre cands cands' :
  mallDistanceMap = Some m →
  grid !! y = Some (pre ++ rest) →
  spot_row score occupiedSpots entryPoint carType profile mallDistanceMap
           rest (length pre) y cands = Ok cands' →
  ∀ p, E p → py p = Z.of_nat y → Z.of_nat (length pre) ≤ px p →
       is_Some (js_index m (Z.of_nat y)).
Proof.
  intros Hmap. revert pre cands.
  induction rest as [|cell rest IH]; intros pre cands Hrow Hs p Hp Hy Hx.
  - destruct Hp as (c & Hc & _).
    apply cell_at_Some in Hc as (row & Hr & Hc).
    apply js_index_Some in Hr as [_ Hr]. rewrite Hy, Nat2Z.id, Hrow in Hr.
    injection Hr as <-. apply js_index_lt in Hc. rewrite app_nil_r in Hc. lia.
  - simpl in Hs. inv_bind Hs.
    pose proof (cell_at_lookup _ _ _ _ _ Hrow) as Hcell.
    assert (length (pre ++ [cell]) = S (length pre)) as Hlen.
    { rewrite length_app. simpl. lia. }
    destruct (decide (px p = Z.of_nat (length pre))) as [Hpx|Hpx].
    + assert (p = mkPoint (Z.of_nat (length pre)) (Z.of_nat y)) as ->.
      { destruct p; simpl in *. by subst. }
      destruct Hp as (c & Hc & Hty & Hocc & Hcomp).
      assert (c = cell) as -> by congruence.
      unfold pkey in Hocc. simpl in Hocc.
      rewrite bool_decide_true, bool_decide_false in Ha by done.
      simpl in Ha. unfold effective_spotType in Hcomp. rewrite Hcomp in Ha.
      rewrite Hmap in Ha. inv_bind Ha. unfold dm_get in Ha0.
      destruct (js_index m (Z.of_nat y)); [eauto|done].
    + rewrite <- Hlen in Hs. eapply (IH (pre ++ [cell])); [|done..|].
      * by rewrite <- app_assoc.
      * rewrite Hlen. lia.
Qed.

Lemma spot_rows_reads m rows pre cands cands' :
  mallDistanceMap = Some m →
  grid = pre ++ rows →
  spot_rows score occupiedSpots entryPoint carType profile mallDistanceMap
            rows (length pre) cands = Ok cands' →
  ∀ p, E p → Z.of_nat (length pre) ≤ py p → is_Some (js_index m (py p)).
Proof.
  intros Hmap. revert pre cands.
  induction rows as [|row rows IH]; intros pre cands Hg Hs p Hp Hy.
  - destruct Hp as (c & Hc & _).
    apply cell_at_Some in Hc as (r & Hr & _).
    apply js_index_lt in Hr. subst grid. rewrite app_nil_r in Hr. lia.
  - simpl in Hs. inv_bind Hs.
    assert (grid !! length pre = Some ([] ++ row)) as Hrow.
    { subst grid. by rewrite list_lookup_middle. }
    assert (length (pre ++ [row]) = S (length pre)) as Hlen.
    { rewrite length_app. simpl. lia. }
    destruct (decide (py p = Z.of_nat (length pre))) as [Hpy|Hpy].
    + rewrite Hpy.
      eapply (spot_row_reads m _ row [] cands a Hmap Hrow Ha p); [done..|].
      destruct Hp as (c & Hc & _).
      apply cell_at_Some in Hc as (r & _ & Hc). apply js_index_lt in Hc.
      simpl. lia.
    + rewrite <- Hlen in Hs. eapply (IH (pre ++ [row])); [|done..|].
      * by rewrite <- app_assoc.
      * rewrite Hlen. lia.
Qed.

Lemma spot_row_not_OutOfFuel row x y cands :
  spot_row score occupiedSpots entryPoint carType profile mallDistanceMap
           row x y cands ≠ OutOfFuel.
Proof.
  revert x cands. induction row as [|cell row IH]; intros x cands; simpl;
    [done|].
  destruct (bool_decide (type cell = PARKING) && _); simpl; [|apply IH].
  destruct (is_compatible carType _); simpl; [|apply IH].
  destruct mallDistanceMap as [m|]; simpl; [|apply IH].
  unfold dm_get. destruct (js_index m _); simpl; [apply IH|done].
Qed.

Lemma spot_rows_not_OutOfFuel rows y cands :
  spot_rows score occupiedSpots entryPoint carType profile mallDistanceMap
            rows y cands ≠ OutOfFuel.
Proof.
  revert y cands. induction rows as [|row rows IH]; intros y cands; simpl;
    [done|].
  pose proof (spot_row_not_OutOfFuel row 0 y cands) as Hr.
  destruct (spot_row _ _ _ _ _ _ row 0 y cands); simpl; [apply IH|done..].
Qed.
End SelectorReads.

(** X11: [findBestSpot] never throws when it is given no distance map, or one
    with at least as many rows as the grid; it then returns no cell exactly
    when no Parking cell is free and compatible with the preference. *)
Theorem findBestSpot_returns_unless_map_too_short {Score : Type}
    (score : DriverProfile → Dist → Z → nat → Score)
    (sort_by_score : list (Point * Score) → list (Point * Score))
    grid occupiedSpots entryPoint carType profile mallDistanceMap :
  (∀ l, sort_by_score l ≡ₚ l) →
  match mallDistanceMap with
  | Some m => (length grid ≤ length m)%nat
  | None => True
  end →
  ∃ r, findBestSpot score sort_by_score grid occupiedSpots entryPoint carType
                    profile mallDistanceMap = Ok r
       ∧ (r = None ↔ ∀ p, ¬ eligible grid occupiedSpots carType p).
Proof. intros Hperm Hm. by apply findBestSpot_defined. Qed.

Lemma findBestSpot_returns_unless_map_too_short_witness :
  (∀ l, sort_by_Z l ≡ₚ l)
  ∧ ∃ r, findBestSpot score_by_entry sort_by_Z scenario_B ∅ (mkPoint 0 0)
           STANDARD sample_profile None = Ok r
         ∧ (r = None ↔ ∀ p, ¬ eligible scenario_B ∅ STANDARD p).
Proof.
  split; [exact sort_by_Z_perm|].
  exact (findBestSpot_returns_unless_map_too_short score_by_entry sort_by_Z
           scenario_B ∅ (mkPoint 0 0) STANDARD sample_profile None
           sort_by_Z_perm I).
Defined.

(** X12: the spot selector and the distance field compose: on a rectangular
    grid, [findBestSpot] given the field [generateMallDistanceMap] returns
    for the same grid never throws, and finds a spot exactly when some
    Parking cell is free and compatible. *)
Theorem findBestSpot_with_own_distance_map {Score : Type}
    (score : DriverProfile → Dist → Z → nat → Score)
    (sort_by_score : list (Point * Score) → list (Point * Score))
    grid d occupiedSpots entryPoint carType profile :
  (∀ l, sort_by_score l ≡ₚ l) →
  rect grid →
  generateMallDistanceMap grid = Ok d →
  ∃ r, findBestSpot score sort_by_score grid occupiedSpots entryPoint carType
                    profile (Some d) = Ok r
       ∧ (r = None ↔ ∀ p, ¬ eligible grid occupiedSpots carType p).
Proof.
  intros Hperm Hrect Hd.
  destruct (mall_map_final grid Hrect) as (d' & Hd' & Hf & _).
  assert (d' = d) as -> by congruence.
  apply findBestSpot_defined; [done|].
  destruct (fo_shape _ _ Hf) as [-> _]. done.
Qed.

Lemma findBestSpot_with_own_distance_map_witness :
  (∀ l, sort_by_Z l ≡ₚ l) ∧ rect scenario_B
  ∧ ∃ r, findBestSpot score_by_entry sort_by_Z scenario_B ∅ (mkPoint 0 0)
           EV sample_profile (Some [[Infinity; Infinity]]) = Ok r
         ∧ (r = None ↔ ∀ p, ¬ eligible scenario_B ∅ EV p).
Proof.
  assert (rect scenario_B) as Hr by (by vm_compute; repeat constructor).
  split; [exact sort_by_Z_perm|]. split; [exact Hr|].
  apply (findBestSpot_with_own_distance_map score_by_entry sort_by_Z
           scenario_B _ ∅ (mkPoint 0 0) EV sample_profile sort_by_Z_perm Hr).
  vm_compute. reflexivity.
Defined.

(** X13: [findBestSpot] throws when the distance map lacks the row of some
    Parking cell that is free and compatible: [mallDistanceMap[y]] is
    [undefined] there and its element is read. *)
Theorem findBestSpot_throws_on_short_map {Score : Type}
    (score : DriverProfile → Dist → Z → nat → Score)
    (sort_by_score : list (Point * Score) → list (Point * Score))
    grid m occupiedSpots entryPoint carType profile p :
  eligible grid occupiedSpots carType p →
  Z.of_nat (length m) ≤ py p →
  findBestSpot score sort_by_score grid occupiedSpots entryPoint carType
               profile (Some m) = TypeError.
Proof.
  intros Hp Hlen. unfold findBestSpot.
  pose proof (spot_rows_not_OutOfFuel score occupiedSpots entryPoint
                carType profile (Some m) grid 0 []) as Hfuel.
  destruct (spot_rows _ _ _ _ _ _ grid 0 []) as [cands| |] eqn:Hs;
    [|done|done].
  destruct (spot_rows_reads score grid occupiedSpots entryPoint carType
              profile (Some m) m grid [] [] cands eq_refl eq_refl Hs p Hp)
    as [row Hrow].
  - destruct Hp as (c & Hc & _). apply cell_at_Some in Hc as (r & Hr & _).
    apply js_index_lt in Hr. simpl. lia.
  - apply js_index_lt in Hrow. lia.
Qed.

Lemma findBestSpot_throws_on_short_map_witness :
  eligible scenario_B ∅ EV (mkPoint 0 0)
  ∧ findBestSpot score_by_entry sort_by_Z scenario_B ∅ (mkPoint 0 0) EV
      sample_profile (Some []) = TypeError.
Proof.
  assert (eligible scenario_B ∅ EV (mkPoint 0 0)) as He.
  { exists (spot_cell (Some EV)). split; [reflexivity|].
    split; [reflexivity|]. split; [|reflexivity].
    apply not_elem_of_empty. }
  split; [exact He|].
  apply (findBestSpot_throws_on_short_map score_by_entry sort_by_Z scenario_B
           [] ∅ (mkPoint 0 0) EV sample_profile (mkPoint 0 0) He).
  simpl. lia.
Defined.

(** X14: when the sort orders the candidates by ascending score, the cell
    [findBestSpot] returns is a candidate of least score: every other
    candidate scores at least as much. *)
Theorem findBestSpot_returns_least_score {Score : Type}
    (score : DriverProfile → Dist → Z → nat → Score)
    (sort_by_score : list (Point * Score) → list (Point * Score))
    (le_score : Score → Score → Prop)
    grid occupiedSpots entryPoint carType profile mallDistanceMap p :
  (∀ l, sort_by_score l ≡ₚ l) →
  (∀ l, StronglySorted (λ a b, le_score a.2 b.2) (sort_by_score l)) →
  findBestSpot score sort_by_score grid occupiedSpots entryPoint carType
               profile mallDistanceMap = Ok (Some p) →
  ∃ cands s,
    spot_rows score occupiedSpots entryPoint carType profile mallDistanceMap
              grid 0 [] = Ok cands
    ∧ (p, s) ∈ cands
    ∧ ∀ c, c ∈ cands → c = (p, s) ∨ le_score s c.2.
Proof.
  intros Hperm Hsorted Hf. unfold findBestSpot in Hf. inv_bind Hf.
  destruct a as [|c0 cands]; [done|].
  pose proof (Hperm (c0 :: cands)) as Hp.
  pose proof (Hsorted (c0 :: cands)) as Hs.
  destruct (sort_by_score (c0 :: cands)) as [|c sorted]; [done|].
  injection Hf as <-. exists (c0 :: cands), c.2. split; [done|].
  apply StronglySorted_inv in Hs as [_ Hall]. rewrite Forall_forall in Hall.
  split.
  - rewrite <- Hp. destruct c. left.
  - intros c' Hc'. rewrite <- Hp in Hc'.
    apply elem_of_cons in Hc' as [->|Hc']; [left; by destruct c|].
    right. by apply Hall.
Qed.

Lemma findBestSpot_returns_least_score_witness :
  (∀ l, sort_by_Z l ≡ₚ l)
  ∧ (∀ l, StronglySorted (λ a b : Point * Z, a.2 ≤ b.2) (sort_by_Z l))
  ∧ ∃ cands s,
      spot_rows score_by_entry ∅ (mkPoint 1 0) STANDARD sample_profile None
                [[spot_cell None; plain_cell PATH; spot_cell None]] 0 []
        = Ok cands
      ∧ (mkPoint 0 0, s) ∈ cands
      ∧ ∀ c, c ∈ cands → c = (mkPoint 0 0, s) ∨ s ≤ c.2.
Proof.
  assert (∀ l, StronglySorted (λ a b : Point * Z, a.2 ≤ b.2) (sort_by_Z l))
    as Hs.
  { intros l. apply (StronglySorted_merge_sort score_le). }
  split; [exact sort_by_Z_perm|]. split; [exact Hs|].
  apply (findBestSpot_returns_least_score score_by_entry sort_by_Z Z.le
           [[spot_cell None; plain_cell PATH; spot_cell None]] ∅
           (mkPoint 1 0) STANDARD sample_profile None (mkPoint 0 0)
           sort_by_Z_perm Hs).
  vm_compute. reflexivity.
Defined.


(** * Further properties of the clock *)

Lemma findPath_first_step grid start target strict path p1 :
  findPath grid start target strict = Ok path →
  path !! 1%nat = Some p1 →
  adjacent start p1 ∧ in_grid grid p1 ∧ steppable grid target p1.
Proof.
  intros Hf Hp1.
  apply findPath_sound in Hf as [->|Hg]; [done|].
  apply grown_route_of in Hg as (Hh & _ & Hc).
  rewrite head_lookup in Hh.
  destruct (chain_lookup _ _ _ _ _ Hc Hh Hp1) as (d & Hd & -> & Hm).
  split; [by apply dir_adjacent|].
  apply legal_move_inv in Hm as (cur & nxt & _ & Hn & Hin & _ & _ & _ & Hw).
  split; [done|]. by eapply rule_walkable_steppable.
Qed.

(** What the clock does to one car. *)
Lemma step_car_inv grid exit strictFlow r car st st' :
  step_car grid exit strictFlow r car st = Ok st' →
  st'.1 = st.1 ∧ car_state car = exiting
  ∨ ∃ c', st'.1 = st.1 ++ [c'] ∧ car_next grid car c'.
Proof.
  unfold step_car, car_next, car_pos.
  destruct (car_state car) eqn:Hst.
  - destruct (car_target car) as [tgt|] eqn:Htg.
    2:{ intros [= <-]. right. exists car. rewrite Hst. simpl. auto 10. }
    intros Hs. inv_bind Hs. rename a into path.
    case_bool_decide as Hlen.
    + destruct (path !! 1%nat) as [p1|] eqn:Hp1; [|done].
      injection Hs as <-. right. eexists. split; [done|]. simpl.
      rewrite Hst. repeat split; auto. right.
      destruct (findPath_first_step _ _ _ _ _ _ Ha Hp1) as (Hadj & Hin & Hstep).
      destruct p1. simpl. split_and!; eauto.
    + rewrite decide_True in Hs by done. injection Hs as <-. right.
      eexists. split; [done|]. simpl. auto 10.
  - intros Hs. right. case_bool_decide; injection Hs as <-;
      (eexists; split; [done|]); simpl; rewrite ?Hst; auto 10.
  - intros [= <-]. right. exists car. rewrite Hst. simpl. auto 10.
  - destruct (car_target car) as [tgt|] eqn:Htg.
    2:{ intros [= <-]. right. exists car. rewrite Hst. simpl. auto 10. }
    intros Hs. inv_bind Hs. rename a into path.
    case_bool_decide as Hlen.
    + destruct (path !! 1%nat) as [p1|] eqn:Hp1; [|done].
      injection Hs as <-. right. eexists. split; [done|]. simpl.
      rewrite Hst. repeat split; auto. right.
      destruct (findPath_first_step _ _ _ _ _ _ Ha Hp1) as (Hadj & Hin & Hstep).
      destruct p1. simpl. split_and!; eauto.
    + rewrite decide_False in Hs by done. rewrite decide_True in Hs by done.
      injection Hs as <-. by left.
Qed.

Lemma step_cars_inv grid exit strictFlow rolls i cars st st' :
  step_cars grid exit strictFlow rolls i cars st = Ok st' →
  ∃ new, st'.1 = st.1 ++ new
         ∧ (length new ≤ length cars)%nat
         ∧ ∀ c', c' ∈ new → ∃ c, c ∈ cars ∧ car_next grid c c'.
Proof.
  revert i st. induction cars as [|car cars IH]; intros i st; simpl.
  - intros [= <-]. exists []. rewrite app_nil_r. split; [done|].
    split; [done|]. by intros c' ?%elem_of_nil.
  - intros Hs. inv_bind Hs. rename a into st1.
    destruct (IH _ _ Hs) as (new & Hnew & Hlen & Hrel).
    destruct (step_car_inv _ _ _ _ _ _ _ Ha) as [[H1 _]|(c1 & H1 & Hn1)].
    + exists new. rewrite Hnew, H1. split; [done|]. split; [lia|].
      intros c' Hc'. destruct (Hrel c' Hc') as (c & Hc & Hn).
      exists c. split; [by right|done].
    + exists (c1 :: new). rewrite Hnew, H1, <- app_assoc.
      split; [done|]. split; [simpl; lia|].
      intros c' [->|Hc']%elem_of_cons.
      * exists car. split; [left|done].
      * destruct (Hrel c' Hc') as (c & Hc & Hn).
        exists c. split; [by right|done].
Qed.

Lemma getEntryPoints_elem grid p : p ∈ getEntryPoints grid ↔ is_entry grid p.
Proof.
  unfold getEntryPoints, is_entry. rewrite entries_rows_spec. split.
  - intros (j & r & i & c & Hj & Hi & Ht & Hy & Hx).
    exists c. split; [|done]. apply cell_at_nat.
    split; [lia|]. split; [lia|]. exists r.
    rewrite Hy, Hx, !Nat2Z.id. done.
  - intros (c & (Hx & Hy & r & Hr & Hc)%cell_at_nat & Ht).
    exists (Z.to_nat (py p)), r, (Z.to_nat (px p)), c.
    repeat split; try done; lia.
Qed.

Lemma run_app {Score} (score : DriverProfile → Dist → Z → nat → Score)
    sort_by_score grid strictFlow spawnRate mdm ds1 ds2 s :
  run score sort_by_score grid strictFlow spawnRate mdm (ds1 ++ ds2) s
  = let* s1 := run score sort_by_score grid strictFlow spawnRate mdm ds1 s in
    run score sort_by_score grid strictFlow spawnRate mdm ds2 s1.
Proof.
  revert s. induction ds1 as [|d ds1 IH]; intros s; [done|].
  cbn [app run]. destruct (tick _ _ _ _ _ _ _ s); [|done..]. cbn [rbind].
  apply IH.
Qed.

Lemma set_parkingTime_twice car a b :
  set_parkingTime (set_parkingTime car a) b = set_parkingTime car b.
Proof. done. Qed.

Section ClockFacts.
Context {Score : Type}.
Variable score : DriverProfile → Dist → Z → nat → Score.
Variable sort_by_score : list (Point * Score) → list (Point * Score).

(** What the spawn branch adds. *)
Lemma spawn_inv grid strictFlow spawnRate mdm d t prevCars occ entries st st' :
  (∀ p, p ∈ entries → is_entry grid p) →
  spawn score sort_by_score grid strictFlow spawnRate mdm d t prevCars occ
        entries st = Ok st' →
  st' = st
  ∨ ∃ c spot,
      st' = (st.1 ++ [c], {[pkey spot]} ∪ st.2)
      ∧ car_state c = entering ∧ car_target c = Some spot
      ∧ car_parkingTime c = 0 ∧ car_entryTick c = t
      ∧ is_entry grid (car_pos c)
      ∧ (∀ c0, c0 ∈ prevCars → car_pos c0 ≠ car_pos c)
      ∧ (car_type c = EV ∨ car_type c = DISABLED ∨ car_type c = STANDARD)
      ∧ findBestSpot score sort_by_score grid occ (car_pos c) (car_type c)
                     (car_profile c) mdm = Ok (Some spot).
Proof.
  intros Hent. unfold spawn.
  destruct (_ && _); [|intros [= <-]; by left].
  destruct (entries !! _) as [e|] eqn:He; [|done].
  intros Hs. inv_bind Hs. rename a into best.
  destruct best as [spot|]; [|injection Hs as <-; by left].
  destruct (existsb _ prevCars) eqn:Hb; injection Hs as <-; [by left|].
  right. eexists _, spot. split; [done|]. unfold car_pos. simpl.
  assert (mkPoint (px e) (py e) = e) as -> by by destruct e.
  split_and!; try done.
  - apply Hent. by eapply list_elem_of_lookup_2.
  - intros c0 Hc0 Heq. apply not_true_iff_false in Hb. apply Hb.
    apply existsb_exists. exists c0. split; [by apply list_elem_of_In|].
    rewrite <- Heq. simpl. by rewrite !bool_decide_eq_true_2.
  - repeat case_bool_decide; auto.
Qed.

(** What one firing of the interval does to the set of cars. *)
Lemma tick_inv grid strictFlow spawnRate mdm d s s' :
  tick score sort_by_score grid strictFlow spawnRate mdm d s = Ok s' →
  sim_tick s' = sim_tick s + 1
  ∧ ∃ old occ,
      (length old ≤ length (sim_cars s))%nat
      ∧ (∀ c', c' ∈ old → ∃ c, c ∈ sim_cars s ∧ car_next grid c c')
      ∧ (sim_cars s' = old ∧ sim_occupiedSpots s' = occ
         ∨ ∃ c spot,
             sim_cars s' = old ++ [c]
             ∧ sim_occupiedSpots s' = {[pkey spot]} ∪ occ
             ∧ car_state c = entering ∧ car_target c = Some spot
             ∧ car_parkingTime c = 0 ∧ car_entryTick c = sim_tick s
             ∧ is_entry grid (car_pos c)
             ∧ (∀ c0, c0 ∈ sim_cars s → car_pos c0 ≠ car_pos c)
             ∧ (car_type c = EV ∨ car_type c = DISABLED
                ∨ car_type c = STANDARD)
             ∧ findBestSpot score sort_by_score grid (sim_occupiedSpots s)
                            (car_pos c) (car_type c) (car_profile c) mdm
               = Ok (Some spot)).
Proof.
  unfold tick. intros Ht. inv_bind Ht. rename a into exit.
  inv_bind Ht. rename a into st. inv_bind Ht. rename a into st'.
  injection Ht as <-. simpl. split; [done|].
  destruct (step_cars_inv _ _ _ _ _ _ _ _ Ha0) as (old & Hold & Hlen & Hrel).
  simpl in Hold. exists old, st.2. split; [done|]. split; [done|].
  apply spawn_inv in Ha1 as [->|(c & spot & -> & Hc)].
  - by left.
  - right. exists c, spot. simpl. by rewrite Hold.
  - intros p. apply getEntryPoints_elem.
Qed.

(** X15: over one tick every car either is the one just spawned, Entering
    and stamped with the tick, or stems from a car that was there before,
    with the same identity and type, in the same state or in the next one of
    the lifecycle Entering, Parking, Exiting; a Parked car stays Parked. *)
Theorem tick_follows_lifecycle grid strictFlow spawnRate mdm d s s' :
  tick score sort_by_score grid strictFlow spawnRate mdm d s = Ok s' →
  ∀ c', c' ∈ sim_cars s' →
    (∃ c, c ∈ sim_cars s ∧ car_id c' = car_id c ∧ car_type c' = car_type c
          ∧ lifecycle_step (car_state c) (car_state c'))
    ∨ (car_state c' = entering ∧ car_entryTick c' = sim_tick s
       ∧ car_parkingTime c' = 0).
Proof.
  intros (_ & old & occ & _ & Hrel & Hnew)%tick_inv c' Hc'.
  assert (c' ∈ old →
          ∃ c, c ∈ sim_cars s ∧ car_id c' = car_id c
               ∧ car_type c' = car_type c
               ∧ lifecycle_step (car_state c) (car_state c')) as Hold.
  { intros (c & Hc & Hid & Hty & Hlc & _)%Hrel. by exists c. }
  destruct Hnew as [[Hcars _]|(c & spot & Hcars & _ & Hst & _ & Hpt & Htk & _)];
    rewrite Hcars in Hc'.
  - left. by apply Hold.
  - apply elem_of_app in Hc' as [Hc'|Hc'%list_elem_of_singleton].
    + left. by apply Hold.
    + right. by subst c'.
Qed.

(** X16: over one tick a car moves at most one cell. A car that was there
    before stands where it stood or, if it was Entering or Exiting, on an
    orthogonally adjacent cell of the grid that is an Entry, Exit or Path
    cell or its own target; Parking and Parked cars do not move. The only
    other car stands on an Entry cell. *)
Theorem tick_moves_one_cell grid strictFlow spawnRate mdm d s s' :
  tick score sort_by_score grid strictFlow spawnRate mdm d s = Ok s' →
  ∀ c', c' ∈ sim_cars s' →
    (∃ c, c ∈ sim_cars s ∧ car_id c' = car_id c
          ∧ (car_pos c' = car_pos c
             ∨ ((car_state c = entering ∨ car_state c = exiting)
                ∧ adjacent (car_pos c) (car_pos c')
                ∧ in_grid grid (car_pos c')
                ∧ ∃ tgt, car_target c = Some tgt
                         ∧ steppable grid tgt (car_pos c'))))
    ∨ is_entry grid (car_pos c').
Proof.
  intros (_ & old & occ & _ & Hrel & Hnew)%tick_inv c' Hc'.
  assert (c' ∈ old →
          ∃ c, c ∈ sim_cars s ∧ car_id c' = car_id c
               ∧ (car_pos c' = car_pos c
                  ∨ ((car_state c = entering ∨ car_state c = exiting)
                     ∧ adjacent (car_pos c) (car_pos c')
                     ∧ in_grid grid (car_pos c')
                     ∧ ∃ tgt, car_target c = Some tgt
                              ∧ steppable grid tgt (car_pos c')))) as Hold.
  { intros (c & Hc & Hid & _ & _ & Hmv)%Hrel. exists c.
    split; [done|]. split; [done|].
    destruct Hmv as [Hmv|(Hs & _ & Hmv)]; [by left|by right]. }
  destruct Hnew as [[Hcars _]|(c & spot & Hcars & _ & _ & _ & _ & _ & He & _)];
    rewrite Hcars in Hc'.
  - left. by apply Hold.
  - apply elem_of_app in Hc' as [Hc'|Hc'%list_elem_of_singleton].
    + left. by apply Hold.
    + right. by subst c'.
Qed.

(** X17: a tick adds at most one car, at the end of the list. The car added
    is Entering on an Entry cell no car stood on when the tick began, its
    preference is EV, Disabled or Standard, and its target is a Parking
    cell that was free when the tick began and is compatible with the
    preference; that cell is occupied after the tick. *)
Theorem tick_spawns_on_free_entry grid strictFlow spawnRate mdm d s s' :
  (∀ l, sort_by_score l ≡ₚ l) →
  tick score sort_by_score grid strictFlow spawnRate mdm d s = Ok s' →
  ∃ old,
    (length old ≤ length (sim_cars s))%nat
    ∧ (∀ c', c' ∈ old → ∃ c, c ∈ sim_cars s ∧ car_id c' = car_id c)
    ∧ (sim_cars s' = old
       ∨ ∃ c spot,
           sim_cars s' = old ++ [c]
           ∧ fresh_car grid (sim_cars s) (sim_occupiedSpots s) (sim_tick s)
                       c spot
           ∧ pkey spot ∈ sim_occupiedSpots s').
Proof.
  intros sort_perm (_ & old & occ & Hlen & Hrel & Hnew)%tick_inv.
  exists old. split; [done|]. split.
  { intros c' (c & Hc & Hid & _)%Hrel. by exists c. }
  destruct Hnew as [[Hcars _]|(c & spot & Hcars & Hocc & Hst & Htg & Hpt & Htk
                                & He & Hfree & Hty & Hbest)]; [by left|].
  right. exists c, spot. split; [done|]. split.
  - unfold fresh_car. split_and!; try done.
    by eapply findBestSpot_eligible.
  - rewrite Hocc. apply elem_of_union. left. by apply elem_of_singleton.
Qed.

Lemma spawn_none grid strictFlow spawnRate mdm d t prevCars occ entries st :
  no_spawn spawnRate d ∨ entries = [] →
  spawn score sort_by_score grid strictFlow spawnRate mdm d t prevCars occ
        entries st = Ok st.
Proof.
  unfold spawn, no_spawn. cbv zeta. intros [Hno| ->].
  - by rewrite (bool_decide_eq_false_2 _ Hno), andb_false_r.
  - by rewrite bool_decide_eq_false_2 by (simpl; lia).
Qed.

(** One tick of a lone Parking car when nothing is spawned. *)
Lemma tick_parking_car grid strictFlow spawnRate mdm d t car occ exit :
  getExitPoint grid = Ok exit →
  car_state car = parking →
  no_spawn spawnRate d →
  tick score sort_by_score grid strictFlow spawnRate mdm d (mkSim t [car] occ)
  = Ok (if bool_decide (car_parkingTime car - 1 ≤ 0)
        then mkSim (t + 1)
               [set_exiting (set_parkingTime car (car_parkingTime car - 1))
                            exit]
               (occ ∖ {[key (car_x car) (car_y car)]})
        else mkSim (t + 1) [set_parkingTime car (car_parkingTime car - 1)]
               ({[key (car_x car) (car_y car)]} ∪ occ)).
Proof.
  intros Hexit Hst Hno. unfold tick. rewrite Hexit. cbn [rbind].
  cbn [sim_cars sim_occupiedSpots sim_tick step_cars].
  unfold step_car. rewrite Hst.
  case_bool_decide; cbn [rbind]; rewrite spawn_none by (by left); done.
Qed.

Lemma run_dwell_prefix grid strictFlow spawnRate mdm exit k :
  getExitPoint grid = Ok exit →
  ∀ car t occ ds,
    car_state car = parking →
    Z.of_nat k < car_parkingTime car →
    length ds = k →
    Forall (no_spawn spawnRate) ds →
    run score sort_by_score grid strictFlow spawnRate mdm ds
        (mkSim t [car] occ)
    = Ok (mkSim (t + Z.of_nat k)
            [set_parkingTime car (car_parkingTime car - Z.of_nat k)]
            (if decide (k = 0%nat) then occ
             else {[key (car_x car) (car_y car)]} ∪ occ)).
Proof.
  intros Hexit. induction k as [|k IH]; intros car t occ ds Hst Hpt Hlen Hno.
  - apply nil_length_inv in Hlen as ->. simpl.
    rewrite Z.add_0_r, Z.sub_0_r. by destruct car.
  - destruct ds as [|d ds]; [done|]. injection Hlen as Hlen.
    apply Forall_cons in Hno as [Hd Hno]. cbn [run].
    rewrite (tick_parking_car _ _ _ _ _ _ _ _ exit) by done.
    rewrite bool_decide_eq_false_2 by lia. cbn [rbind].
    rewrite IH; [|done|simpl; lia|done..].
    rewrite set_parkingTime_twice. cbn [decide]. simpl car_parkingTime.
    simpl car_x. simpl car_y. f_equal. f_equal; [lia| |].
    + do 2 f_equal. lia.
    + destruct (decide (k = 0%nat)); [done|].
      apply leibniz_equiv. rewrite (assoc_L (∪)), (idemp_L (∪)). done.
Qed.

(** X18: a car Parking alone with [n + 1] ticks of dwell time left stays
    Parking where it is for [n] ticks, its cell recorded as occupied from the
    first of them on; at tick [n + 1] it turns Exiting, bound for the exit,
    and its cell is released. No car is spawned meanwhile. *)
Theorem parking_car_leaves_after_dwell grid strictFlow spawnRate mdm exit
    car n t occ ds :
  getExitPoint grid = Ok exit →
  car_state car = parking →
  car_parkingTime car = Z.of_nat (S n) →
  length ds = S n →
  Forall (no_spawn spawnRate) ds →
  (∀ k, (k ≤ n)%nat →
     run score sort_by_score grid strictFlow spawnRate mdm (take k ds)
         (mkSim t [car] occ)
     = Ok (mkSim (t + Z.of_nat k)
             [set_parkingTime car (Z.of_nat (S n - k))]
             (if decide (k = 0%nat) then occ
              else {[key (car_x car) (car_y car)]} ∪ occ)))
  ∧ run score sort_by_score grid strictFlow spawnRate mdm ds
        (mkSim t [car] occ)
    = Ok (mkSim (t + Z.of_nat (S n))
            [set_exiting (set_parkingTime car 0) exit]
            (occ ∖ {[key (car_x car) (car_y car)]})).
Proof.
  intros Hexit Hst Hpt Hlen Hno.
  assert (∀ k, (k ≤ n)%nat →
     run score sort_by_score grid strictFlow spawnRate mdm (take k ds)
         (mkSim t [car] occ)
     = Ok (mkSim (t + Z.of_nat k)
             [set_parkingTime car (Z.of_nat (S n - k))]
             (if decide (k = 0%nat) then occ
              else {[key (car_x car) (car_y car)]} ∪ occ))) as Hpre.
  { intros k Hk.
    rewrite (run_dwell_prefix _ _ _ _ exit k Hexit); [|done|lia| |].
    - do 4 f_equal. lia.
    - rewrite length_take. lia.
    - by apply Forall_take. }
  split; [exact Hpre|].
  rewrite <- (take_drop n ds).
  destruct (drop n ds) as [|d [|d' rest]] eqn:Hdrop.
  - apply (f_equal length) in Hdrop. rewrite length_drop in Hdrop.
    simpl in Hdrop. lia.
  - rewrite run_app, (Hpre n) by done. cbn [rbind run].
    assert (d ∈ ds) as Hd.
    { rewrite <- (take_drop n ds), Hdrop. set_solver. }
    rewrite Forall_forall in Hno.
    rewrite (tick_parking_car _ _ _ _ _ _ _ _ exit); [|done|done|by apply Hno].
    simpl car_parkingTime. rewrite bool_decide_eq_true_2 by lia.
    cbn [rbind]. rewrite set_parkingTime_twice. simpl car_x. simpl car_y.
    replace (Z.of_nat (S n - n) - 1) with 0 by lia.
    f_equal. f_equal; [lia|].
    destruct (decide (n = 0%nat)); [done|].
    apply leibniz_equiv. rewrite difference_union_distr_l, difference_diag.
    by rewrite (left_id ∅ (∪)).
  - apply (f_equal length) in Hdrop. rewrite length_drop in Hdrop.
    simpl in Hdrop. lia.
Qed.

(** X19: on a rectangular grid without Entry cell no car ever appears: an
    empty simulation stays empty, with the occupied spots it had, whatever
    the spawn rate and the draws. *)
Theorem no_entry_no_cars grid strictFlow spawnRate mdm ds t occ :
  rect grid →
  getEntryPoints grid = [] →
  run score sort_by_score grid strictFlow spawnRate mdm ds (mkSim t [] occ)
  = Ok (mkSim (t + Z.of_nat (length ds)) [] occ).
Proof.
  intros Hrect Hent. revert t. induction ds as [|d ds IH]; intros t.
  - simpl. by rewrite Z.add_0_r.
  - cbn [run]. unfold tick. rewrite Hent.
    destruct (exit_rows_spec grid (grid_width grid) 0 Hrect) as (r & Hr & _).
    fold (getExitPoint grid) in Hr. rewrite Hr. cbn [rbind].
    cbn [sim_cars sim_occupiedSpots sim_tick step_cars rbind].
    rewrite spawn_none by (by right). cbn [rbind fst snd].
    rewrite IH. do 2 f_equal. simpl length. lia.
Qed.
End ClockFacts.

Lemma tick_follows_lifecycle_witness :
  ∃ s',
    tick score_by_entry sort_by_Z drive_grid true 10 None spawn_draws
         drive_state = Ok s'
    ∧ ∀ c', c' ∈ sim_cars s' →
        (∃ c, c ∈ sim_cars drive_state ∧ car_id c' = car_id c
              ∧ car_type c' = car_type c
              ∧ lifecycle_step (car_state c) (car_state c'))
        ∨ (car_state c' = entering ∧ car_entryTick c' = sim_tick drive_state
           ∧ car_parkingTime c' = 0).
Proof.
  eexists. split; [vm_compute; reflexivity|].
  apply (tick_follows_lifecycle score_by_entry sort_by_Z drive_grid true 10
           None spawn_draws drive_state).
  vm_compute. reflexivity.
Defined.

Lemma tick_moves_one_cell_witness :
  ∃ s',
    tick score_by_entry sort_by_Z drive_grid true 10 None spawn_draws
         drive_state = Ok s'
    ∧ ∀ c', c' ∈ sim_cars s' →
        (∃ c, c ∈ sim_cars drive_state ∧ car_id c' = car_id c
              ∧ (car_pos c' = car_pos c
                 ∨ ((car_state c = entering ∨ car_state c = exiting)
                    ∧ adjacent (car_pos c) (car_pos c')
                    ∧ in_grid drive_grid (car_pos c')
                    ∧ ∃ tgt, car_target c = Some tgt
                             ∧ steppable drive_grid tgt (car_pos c'))))
        ∨ is_entry drive_grid (car_pos c').
Proof.
  eexists. split; [vm_compute; reflexivity|].
  apply (tick_moves_one_cell score_by_entry sort_by_Z drive_grid true 10
           None spawn_draws drive_state).
  vm_compute. reflexivity.
Defined.

Lemma tick_spawns_on_free_entry_witness :
  (∀ l, sort_by_Z l ≡ₚ l)
  ∧ ∃ s',
      tick score_by_entry sort_by_Z drive_grid true 10 None spawn_draws
           drive_state = Ok s'
      ∧ ∃ old,
          (length old ≤ length (sim_cars drive_state))%nat
          ∧ (∀ c', c' ∈ old →
                   ∃ c, c ∈ sim_cars drive_state ∧ car_id c' = car_id c)
          ∧ (sim_cars s' = old
             ∨ ∃ c spot,
                 sim_cars s' = old ++ [c]
                 ∧ fresh_car drive_grid (sim_cars drive_state)
                             (sim_occupiedSpots drive_state)
                             (sim_tick drive_state) c spot
                 ∧ pkey spot ∈ sim_occupiedSpots s').
Proof.
  split; [exact sort_by_Z_perm|].
  eexists. split; [vm_compute; reflexivity|].
  apply (tick_spawns_on_free_entry score_by_entry sort_by_Z drive_grid true
           10 None spawn_draws drive_state _ sort_by_Z_perm).
  vm_compute. reflexivity.
Defined.

Lemma parking_car_leaves_after_dwell_witness :
  getExitPoint drive_grid = Ok (Some (mkPoint 4 0))
  ∧ Forall (no_spawn 10) [idle_draws; idle_draws]
  ∧ (∀ k, (k ≤ 1)%nat →
       run score_by_entry sort_by_Z drive_grid true 10 None
           (take k [idle_draws; idle_draws]) (mkSim 7 [parked_car 2] ∅)
       = Ok (mkSim (7 + Z.of_nat k)
               [set_parkingTime (parked_car 2) (Z.of_nat (2 - k))]
               (if decide (k = 0%nat) then ∅ else {[key 2 0]} ∪ ∅)))
  ∧ run score_by_entry sort_by_Z drive_grid true 10 None
        [idle_draws; idle_draws] (mkSim 7 [parked_car 2] ∅)
    = Ok (mkSim (7 + Z.of_nat 2)
            [set_exiting (set_parkingTime (parked_car 2) 0)
                         (Some (mkPoint 4 0))]
            (∅ ∖ {[key 2 0]})).
Proof.
  assert (getExitPoint drive_grid = Ok (Some (mkPoint 4 0))) as He
    by (vm_compute; reflexivity).
  assert (Forall (no_spawn 10) [idle_draws; idle_draws]) as Hno
    by (repeat constructor; by vm_compute).
  split; [exact He|]. split; [exact Hno|].
  exact (parking_car_leaves_after_dwell score_by_entry sort_by_Z drive_grid
           true 10 None (Some (mkPoint 4 0)) (parked_car 2) 1 7 ∅
           [idle_draws; idle_draws] He eq_refl eq_refl eq_refl Hno).
Defined.

Lemma no_entry_no_cars_witness :
  rect scenario_B
  ∧ getEntryPoints scenario_B = []
  ∧ run score_by_entry sort_by_Z scenario_B true 10 None
        [spawn_draws; spawn_draws] (mkSim 0 [] ∅)
    = Ok (mkSim (0 + Z.of_nat 2) [] ∅).
Proof.
  assert (rect scenario_B) as Hr by (by vm_compute; repeat constructor).
  split; [exact Hr|]. split; [reflexivity|].
  exact (no_entry_no_cars score_by_entry sort_by_Z scenario_B true 10 None
           [spawn_draws; spawn_draws] 0 ∅ Hr eq_refl).
Defined.


(** * The route search over a generated layout *)

Lemma layout_loop_S fuel grid width height end_ queue visited :
  Pathfinding.findPath_loop (S fuel) grid width height end_ queue visited
  = match queue with
    | [] => Ok []
    | (point, path) :: rest =>
        if decide (px point = px end_ ∧ py point = py end_) then Ok path
        else
          let* st := Pathfinding.visit_dirs grid width height point path
                       Pathfinding.DIRECTIONS (rest, visited) in
          Pathfinding.findPath_loop fuel grid width height end_ st.1 st.2
    end.
Proof. reflexivity. Qed.

Lemma layout_step_towards d p :
  d ∈ Pathfinding.DIRECTIONS →
  mkPoint (px p + Pathfinding.sx d) (py p + Pathfinding.sy d)
  = Pathfinding.towards p (Pathfinding.dir d).
Proof.
  unfold Pathfinding.DIRECTIONS. intros Hd.
  repeat (apply elem_of_cons in Hd as [->|Hd]); simpl;
    try (f_equal; lia). by apply elem_of_nil in Hd.
Qed.

(** What one pass of the [for] loop does. *)
Lemma layout_visit_dir_inv grid width height point path q v d q' v' :
  Pathfinding.visit_dir grid width height point path (q, v) d = Ok (q', v') →
  q' = q ∧ v' = v
  ∨ ∃ n row cell,
      n = mkPoint (px point + Pathfinding.sx d) (py point + Pathfinding.sy d)
      ∧ q' = q ++ [(n, path ++ [n])] ∧ v' = {[pkey n]} ∪ v
      ∧ (pkey n ∉ v)
      ∧ 0 ≤ px n < width ∧ 0 ≤ py n < height
      ∧ js_index grid (py n) = Some row ∧ js_index row (px n) = Some cell
      ∧ Pathfinding.drivable (Pathfinding.type cell) = true.
Proof.
  unfold Pathfinding.visit_dir. cbv zeta.
  destruct (bool_decide _ && negb _) eqn:Hb; [|intros [= <- <-]; by left].
  apply andb_prop in Hb as [Hbox Hv].
  apply bool_decide_eq_true in Hbox. apply negb_true_iff in Hv.
  apply bool_decide_eq_false in Hv. simpl in Hv.
  destruct (js_index grid _) as [row|] eqn:Hrow; [|done].
  destruct (js_index row _) as [cell|] eqn:Hcell; [|done].
  destruct (Pathfinding.drivable _) eqn:Hdr; intros [= <- <-]; [|by left].
  right. eexists _, row, cell. split; [done|]. simpl.
  split_and!; try done; lia.
Qed.

Lemma covers_cell grid width height nx ny :
  Pathfinding.covers grid width height →
  0 ≤ nx < width → 0 ≤ ny < height →
  ∃ row cell, js_index grid ny = Some row ∧ js_index row nx = Some cell.
Proof.
  intros [Hh Hw] Hx Hy.
  destruct (lookup_lt_is_Some_2 grid (Z.to_nat ny)) as [row Hrow]; [lia|].
  rewrite Forall_lookup in Hw.
  assert (Z.to_nat width ≤ length row)%nat as Hlen.
  { apply (Hw (Z.to_nat ny)). rewrite lookup_take_lt by lia. done. }
  destruct (lookup_lt_is_Some_2 row (Z.to_nat nx)) as [cell Hcell]; [lia|].
  exists row, cell. unfold js_index. by rewrite !decide_True by lia.
Qed.

Lemma layout_visit_dir_covers grid width height point path st d :
  Pathfinding.covers grid width height →
  ∃ st', Pathfinding.visit_dir grid width height point path st d = Ok st'.
Proof.
  intros Hcov. unfold Pathfinding.visit_dir. cbv zeta.
  destruct (bool_decide _ && negb _) eqn:Hb; [|by eauto].
  apply andb_prop in Hb as [Hbox _]. apply bool_decide_eq_true in Hbox.
  destruct (covers_cell grid width height (px point + Pathfinding.sx d)
              (py point + Pathfinding.sy d) Hcov)
    as (row & cell & -> & ->); [lia..|].
  destruct (Pathfinding.drivable _); by eauto.
Qed.

Lemma layout_visit_dir_not_OutOfFuel grid width height point path st d :
  Pathfinding.visit_dir grid width height point path st d ≠ OutOfFuel.
Proof.
  unfold Pathfinding.visit_dir. cbv zeta.
  destruct (bool_decide _ && negb _); [|done].
  destruct (js_index grid _) as [row|]; [|done].
  destruct (js_index row _) as [cell|]; [|done].
  by destruct (Pathfinding.drivable _).
Qed.

Section LayoutSearch.
Variables (grid : list (list Pathfinding.CellData)) (width height : Z)
          (start end_ : Point).

Let cells := all_cells (Z.to_nat width) (Z.to_nat height).

Lemma layout_visit_dirs_inv point path dirs q v q' v' :
  (∀ d, d ∈ dirs → d ∈ Pathfinding.DIRECTIONS) →
  grown (Pathfinding.drive_step grid width height) start point path →
  NoDup path → (∀ p, p ∈ path → pkey p ∈ v) →
  Pathfinding.queue_ok grid width height start q v →
  Pathfinding.visit_dirs grid width height point path dirs (q, v)
    = Ok (q', v') →
  Pathfinding.queue_ok grid width height start q' v'
  ∧ (length q' + unvisited cells v' ≤ length q + unvisited cells v)%nat.
Proof.
  intros Hdirs Hg Hnd. revert q v.
  induction dirs as [|d dirs IH]; intros q v Hpv Hq Hv; simpl in Hv.
  - injection Hv as <- <-. split; [done|lia].
  - inv_bind Hv. destruct a as [q1 v1].
    assert (∀ d', d' ∈ dirs → d' ∈ Pathfinding.DIRECTIONS) as Hdirs'.
    { intros d' Hd'. apply Hdirs. by right. }
    specialize (IH Hdirs').
    apply layout_visit_dir_inv in Ha
      as [[-> ->]|(n & row & cell & Hn & -> & -> & Hfresh & Hx & Hy & Hrow
                   & Hcell & Hdr)].
    + by apply IH.
    + destruct (IH (q ++ [(n, path ++ [n])]) ({[pkey n]} ∪ v)) as [Hq' Hle];
        [| |done|].
      * intros p Hp. apply elem_of_union. right. by apply Hpv.
      * intros pos pa [Hin|Hin%list_elem_of_singleton]%elem_of_app.
        -- destruct (Hq pos pa Hin) as (Hg0 & Hnd0 & Hv0).
           split; [done|]. split; [done|].
           intros p Hp. apply elem_of_union. right. by apply Hv0.
        -- injection Hin as -> ->. split; [|split].
           ++ apply grown_step with (a := point); [done|].
              split; [|by eauto 10].
              exists (Pathfinding.dir d). rewrite Hn.
              apply layout_step_towards. apply Hdirs. left.
           ++ apply NoDup_app. split; [done|].
              split; [|apply NoDup_singleton].
              intros p Hp ->%list_elem_of_singleton. apply Hfresh.
              by apply Hpv.
           ++ intros p [Hp|Hp%list_elem_of_singleton]%elem_of_app.
              ** apply elem_of_union. right. by apply Hpv.
              ** subst p. apply elem_of_union. left.
                 by apply elem_of_singleton.
      * split; [done|]. rewrite length_app in Hle. simpl in Hle.
        assert (n ∈ cells) as Hcells by (apply all_cells_elem; lia).
        pose proof (unvisited_insert cells v n Hcells Hfresh). lia.
Qed.

Lemma layout_visit_dirs_covers point path dirs st :
  Pathfinding.covers grid width height →
  ∃ st', Pathfinding.visit_dirs grid width height point path dirs st
         = Ok st'.
Proof.
  intros Hcov. revert st. induction dirs as [|d dirs IH]; intros st; simpl.
  - by eauto.
  - destruct (layout_visit_dir_covers grid width height point path st d Hcov)
      as [st1 ->]. simpl. apply IH.
Qed.

Lemma layout_visit_dirs_not_OutOfFuel point path dirs st :
  Pathfinding.visit_dirs grid width height point path dirs st ≠ OutOfFuel.
Proof.
  revert st. induction dirs as [|d dirs IH]; intros st; simpl; [done|].
  destruct (Pathfinding.visit_dir grid width height point path st d)
    as [st1| |] eqn:Hv; simpl; [apply IH|done|].
  by apply layout_visit_dir_not_OutOfFuel in Hv.
Qed.

(** The loop ends within its fuel, keeps the invariant of the queue, and
    does not throw on a layout that fills the box. *)
Lemma layout_loop_inv fuel q v :
  Pathfinding.queue_ok grid width height start q v →
  (length q + unvisited cells v < fuel)%nat →
  Pathfinding.findPath_loop fuel grid width height end_ q v ≠ OutOfFuel
  ∧ (Pathfinding.covers grid width height →
     ∃ path, Pathfinding.findPath_loop fuel grid width height end_ q v
             = Ok path)
  ∧ ∀ path,
      Pathfinding.findPath_loop fuel grid width height end_ q v = Ok path →
      path = []
      ∨ grown (Pathfinding.drive_step grid width height) start end_ path
        ∧ NoDup path.
Proof.
  revert q v. induction fuel as [|fuel IH]; intros q v Hq Hlt; [lia|].
  rewrite layout_loop_S. destruct q as [|[point pa] rest].
  { split; [done|]. split; [by eauto|]. intros path [= <-]. by left. }
  destruct (Hq point pa) as (Hg & Hnd & Hpv); [left|].
  destruct (decide _) as [[Hx Hy]|Hne].
  { split; [done|]. split; [by eauto|]. intros path [= <-]. right.
    assert (point = end_) as <- by (destruct point, end_; simpl in *; congruence).
    done. }
  destruct (Pathfinding.visit_dirs grid width height point pa
              Pathfinding.DIRECTIONS (rest, v)) as [[q1 v1]| |] eqn:Hv.
  - simpl.
    destruct (layout_visit_dirs_inv point pa Pathfinding.DIRECTIONS rest v
                q1 v1) as [Hq1 Hle]; [done..| |done|].
    { intros pos l Hin. apply (Hq pos l). by right. }
    apply IH; [done|]. simpl in Hlt. lia.
  - simpl. split; [done|]. split; [|done]. intros Hcov.
    destruct (layout_visit_dirs_covers point pa Pathfinding.DIRECTIONS
                (rest, v) Hcov) as [st' Hst']. congruence.
  - by apply layout_visit_dirs_not_OutOfFuel in Hv.
Qed.

Lemma layout_findPath_inv :
  Pathfinding.findPath grid start end_ width height ≠ OutOfFuel
  ∧ (Pathfinding.covers grid width height →
     ∃ path, Pathfinding.findPath grid start end_ width height = Ok path)
  ∧ ∀ path,
      Pathfinding.findPath grid start end_ width height = Ok path →
      path = []
      ∨ grown (Pathfinding.drive_step grid width height) start end_ path
        ∧ NoDup path.
Proof.
  unfold Pathfinding.findPath. apply layout_loop_inv.
  - intros pos pa Hin%list_elem_of_singleton. injection Hin as -> ->.
    split; [constructor|]. split; [apply NoDup_singleton|].
    intros p ->%list_elem_of_singleton. by apply elem_of_singleton.
  - simpl. pose proof (unvisited_le cells {[pkey start]}) as Hle.
    unfold cells in Hle. rewrite all_cells_length in Hle. fold cells in Hle.
    lia.
Qed.
End LayoutSearch.



(** X21: a sequence returned by the search over a layout is empty or a route
    from the start to the end that visits no cell twice and whose every step
    goes to an orthogonal neighbour inside the box that is a Path, Entry,
    Exit or Mall cell; so it never crosses or ends on a Parking cell, unless
    it starts there. *)
Theorem layout_findPath_route grid start end_ width height path :
  Pathfinding.findPath grid start end_ width height = Ok path →
  path = []
  ∨ route_of (Pathfinding.drive_step grid width height) start end_ path
    ∧ NoDup path.
Proof.
  intros Hf.
  destruct (layout_findPath_inv grid width height start end_)
    as (_ & _ & Hs).
  destruct (Hs path Hf) as [->|[Hg Hnd]]; [by left|].
  right. split; [by apply grown_route_of|done].
Qed.

Lemma layout_findPath_route_witness :
  Pathfinding.findPath Pathfinding.lane (mkPoint 0 0) (mkPoint 2 0) 4 1
  = Ok [mkPoint 0 0; mkPoint 1 0; mkPoint 2 0]
  ∧ ([mkPoint 0 0; mkPoint 1 0; mkPoint 2 0] = []
     ∨ route_of (Pathfinding.drive_step Pathfinding.lane 4 1) (mkPoint 0 0)
                (mkPoint 2 0) [mkPoint 0 0; mkPoint 1 0; mkPoint 2 0]
       ∧ NoDup [mkPoint 0 0; mkPoint 1 0; mkPoint 2 0]).
Proof.
  assert (Pathfinding.findPath Pathfinding.lane (mkPoint 0 0) (mkPoint 2 0)
            4 1 = Ok [mkPoint 0 0; mkPoint 1 0; mkPoint 2 0]) as Hf
    by (vm_compute; reflexivity).
  split; [exact Hf|].
  exact (layout_findPath_route Pathfinding.lane (mkPoint 0 0) (mkPoint 2 0)
           4 1 _ Hf).
Defined.

(** * The flow map of a route ([calculateFlowMap]) *)

Lemma step_dir_towards a d :
  Pathfinding.step_dir a (Pathfinding.towards a d) = d.
Proof.
  unfold Pathfinding.step_dir.
  destruct d; simpl; repeat case_decide; try done; lia.
Qed.

Lemma elem_of_take_drop {A} (l : list A) n i a :
  a ∈ take n (drop i l) ↔ ∃ j, (i ≤ j < i + n)%nat ∧ l !! j = Some a.
Proof.
  rewrite list_elem_of_lookup. split.
  - intros [m [Hm Hlt]%lookup_take_Some]. rewrite lookup_drop in Hm.
    exists (i + m)%nat. split; [lia|done].
  - intros (j & Hj & Ha). exists (j - i)%nat. apply lookup_take_Some.
    rewrite lookup_drop. split; [|lia].
    by replace (i + (j - i))%nat with j by lia.
Qed.

(** The loop over the steps of the path: it does not throw, it sets the keys
    of the cells it passes and no other, and every key it sets holds the
    direction of the last step that was taken from that cell. *)
Lemma flow_loop_spec path n :
  ∀ i map,
    (i + n < length path ∨ n = 0)%nat →
    ∃ map',
      Pathfinding.flow_loop path n i map = Ok map'
      ∧ dom map' = dom map ∪ list_to_set (pkey <$> take n (drop i path))
      ∧ ((∀ k, map !! k ≠ Some None) → ∀ k, map' !! k ≠ Some None)
      ∧ (∀ k, k ∉ pkey <$> take n (drop i path) → map' !! k = map !! k)
      ∧ (∀ j a b,
           (i ≤ j < i + n)%nat → path !! j = Some a → path !! S j = Some b →
           (∀ j' a', (j < j' < i + n)%nat → path !! j' = Some a' → a' ≠ a) →
           map' !! pkey a = Some (Some (Pathfinding.step_dir a b))).
Proof.
  induction n as [|n IH]; intros i map Hlen.
  - exists map. simpl. split; [done|].
    split; [by rewrite (right_id_L ∅ (∪))|].
    split; [done|]. split; [done|]. intros; lia.
  - destruct Hlen as [Hlen|]; [|done]. simpl.
    destruct (lookup_lt_is_Some_2 path i) as [current Hc]; [lia|].
    destruct (lookup_lt_is_Some_2 path (S i)) as [next Hn]; [lia|].
    rewrite Hc, Hn.
    destruct (IH (S i) (<[pkey current :=
                          Some (Pathfinding.step_dir current next)]> map))
      as (map' & -> & Hdom & Hdef & Hsame & Hval); [lia|].
    exists map'. split; [done|].
    rewrite (drop_S _ _ _ Hc), firstn_cons, fmap_cons.
    split; [|split; [|split]].
    + rewrite Hdom, dom_insert_L, list_to_set_cons.
      apply set_eq. intros k. rewrite !elem_of_union. tauto.
    + intros Hmap. apply Hdef. intros k.
      destruct (decide (pkey current = k)) as [<-|Hne].
      * by rewrite lookup_insert_eq.
      * rewrite lookup_insert_ne by done. apply Hmap.
    + intros k Hk. apply not_elem_of_cons in Hk as [Hk1 Hk2].
      rewrite Hsame by done. by rewrite lookup_insert_ne.
    + intros j a b Hj Ha Hb Hlast.
      destruct (decide (j = i)) as [->|Hji].
      * assert (a = current) as -> by congruence.
        assert (b = next) as -> by congruence.
        rewrite Hsame; [by rewrite lookup_insert_eq|].
        intros (a' & Heq & (j' & Hj' & Ha')%elem_of_take_drop)%list_elem_of_fmap.
        apply pkey_inj in Heq. subst a'.
        apply (Hlast j' current); [lia|done|done].
      * apply (Hval j a b); [lia|done|done|].
        intros j' a' Hj'. apply Hlast. lia.
Qed.

(** What [calculateFlowMap] returns. *)
Lemma calculateFlowMap_spec path :
  ∃ map,
    Pathfinding.calculateFlowMap path = Ok map
    ∧ (∀ k, map !! k ≠ Some None)
    ∧ dom map = (if decide (1 < length path)%nat
                 then list_to_set (pkey <$> path) else ∅)
    ∧ (NoDup path →
       ∀ i a b, path !! i = Some a → path !! S i = Some b →
         map !! pkey a = Some (Some (Pathfinding.step_dir a b))
         ∧ (S (S i) = length path →
            map !! pkey b = Some (Some (Pathfinding.step_dir a b)))).
Proof.
  unfold Pathfinding.calculateFlowMap.
  destruct (flow_loop_spec path (length path - 1) 0 ∅)
    as (map & -> & Hdom & Hdef & Hsame & Hval); [lia|].
  cbn [rbind]. rewrite drop_0 in Hdom, Hsame.
  rewrite dom_empty_L, (left_id_L ∅ (∪)) in Hdom.
  assert (∀ k, (∅ : Pathfinding.FlowMap) !! k ≠ Some None) as Hempty
    by (intros k; by rewrite lookup_empty).
  specialize (Hdef Hempty).
  case_bool_decide as Hlen.
  2:{ exists map. split; [done|]. split; [done|].
      rewrite decide_False by done.
      split.
      - rewrite Hdom. destruct path as [|p [|q path]]; simpl in *; [done..|lia].
      - intros _ i a b Ha Hb. apply lookup_lt_Some in Hb. lia. }
  rewrite decide_True by done.
  destruct (lookup_lt_is_Some_2 path (length path - 1)) as [lst Hl]; [lia|].
  destruct (lookup_lt_is_Some_2 path (length path - 2)) as [prev Hp]; [lia|].
  rewrite Hl, Hp.
  assert (S (length path - 2) = length path - 1)%nat as Hidx by lia.
  assert (∃ d, map !! pkey prev = Some (Some d)) as [d Hd].
  { assert (pkey prev ∈ dom map) as Hin.
    { rewrite Hdom. apply elem_of_list_to_set, list_elem_of_fmap.
      exists prev. split; [done|]. apply list_elem_of_lookup.
      exists (length path - 2)%nat. apply lookup_take_Some.
      split; [done|lia]. }
    apply elem_of_dom in Hin as [[d|] Hd]; [by exists d|].
    by destruct (Hdef (pkey prev)). }
  rewrite Hd. simpl. eexists. split; [done|]. split; [|split].
  - intros k. destruct (decide (pkey lst = k)) as [<-|Hne].
    + by rewrite lookup_insert_eq.
    + rewrite lookup_insert_ne by done. apply Hdef.
  - rewrite dom_insert_L, Hdom.
    rewrite <- (take_drop (length path - 1) path) at 3.
    rewrite fmap_app, list_to_set_app_L.
    assert (drop (length path - 1) path = [lst]) as ->.
    { rewrite (drop_S _ _ _ Hl), drop_ge by lia. done. }
    simpl. apply set_eq. intros k. rewrite !elem_of_union.
    pose proof (not_elem_of_empty (C:=gset string) k). tauto.
  - intros Hnd i a b Ha Hb.
    pose proof (lookup_lt_Some _ _ _ Hb) as Hi.
    assert (map !! pkey a = Some (Some (Pathfinding.step_dir a b))) as Hab.
    { apply (Hval i a b); [lia|done|done|].
      intros j' a' Hj' Ha' ->.
      pose proof (NoDup_lookup _ _ _ _ Hnd Ha Ha'). lia. }
    split.
    + rewrite lookup_insert_ne; [done|].
      intros Heq%pkey_inj. subst a.
      pose proof (NoDup_lookup _ _ _ _ Hnd Ha Hl). lia.
    + intros Hlast.
      assert (b = lst) as -> by (replace (S i) with (length path - 1)%nat in Hb by lia; congruence).
      assert (a = prev) as -> by (replace i with (length path - 2)%nat in Ha by lia; congruence).
      rewrite lookup_insert_eq. rewrite Hd in Hab. congruence.
Qed.

(** X22: [calculateFlowMap] returns for every path, and never stores an
    undefined direction (the non-null assertion on the direction of the cell
    before the last holds). For a path of fewer than two cells the map is
    empty; otherwise its keys are exactly the cells of the path. *)
Theorem calculateFlowMap_keys path :
  ∃ map,
    Pathfinding.calculateFlowMap path = Ok map
    ∧ (∀ k, map !! k ≠ Some None)
    ∧ dom map = (if decide (1 < length path)%nat
                 then list_to_set (pkey <$> path) else ∅).
Proof.
  destruct (calculateFlowMap_spec path) as (map & Hm & Hdef & Hdom & _).
  by exists map.
Qed.

(** X23: on a path without repeated cell, every cell but the last is given
    the direction of the step to its successor (right, left, down or up by
    the first coordinate that differs), and the last cell the direction of
    the step that reaches it. *)
Theorem calculateFlowMap_directions path map :
  NoDup path →
  Pathfinding.calculateFlowMap path = Ok map →
  ∀ i a b, path !! i = Some a → path !! S i = Some b →
    map !! pkey a = Some (Some (Pathfinding.step_dir a b))
    ∧ (S (S i) = length path →
       map !! pkey b = Some (Some (Pathfinding.step_dir a b))).
Proof.
  intros Hnd Hm.
  destruct (calculateFlowMap_spec path) as (map' & Hm' & _ & _ & Hdir).
  assert (map' = map) as -> by congruence.
  by apply Hdir.
Qed.

Lemma calculateFlowMap_directions_witness :
  NoDup [mkPoint 0 0; mkPoint 1 0; mkPoint 1 1]
  ∧ ∃ map,
      Pathfinding.calculateFlowMap [mkPoint 0 0; mkPoint 1 0; mkPoint 1 1]
      = Ok map
      ∧ ∀ i a b,
          [mkPoint 0 0; mkPoint 1 0; mkPoint 1 1] !! i = Some a →
          [mkPoint 0 0; mkPoint 1 0; mkPoint 1 1] !! S i = Some b →
          map !! pkey a = Some (Some (Pathfinding.step_dir a b))
          ∧ (S (S i) = length [mkPoint 0 0; mkPoint 1 0; mkPoint 1 1] →
             map !! pkey b = Some (Some (Pathfinding.step_dir a b))).
Proof.
  assert (NoDup [mkPoint 0 0; mkPoint 1 0; mkPoint 1 1]) as Hnd
    by (apply (bool_decide_unpack (NoDup _)); vm_compute; exact I).
  split; [exact Hnd|]. eexists. split; [vm_compute; reflexivity|].
  apply (calculateFlowMap_directions
           [mkPoint 0 0; mkPoint 1 0; mkPoint 1 1] _ Hnd).
  vm_compute. reflexivity.
Defined.

(** X24: the flow map of a route returned by the search over a layout points
    along the route: the direction stored for a cell leads to the next cell
    of the route, and the last cell repeats the direction of the last step. *)
Theorem flow_map_follows_route grid start end_ width height path :
  Pathfinding.findPath grid start end_ width height = Ok path →
  ∃ map,
    Pathfinding.calculateFlowMap path = Ok map
    ∧ ∀ i a b, path !! i = Some a → path !! S i = Some b →
        ∃ d, b = Pathfinding.towards a d
             ∧ map !! pkey a = Some (Some d)
             ∧ (S (S i) = length path → map !! pkey b = Some (Some d)).
Proof.
  intros Hf.
  destruct (calculateFlowMap_spec path) as (map & Hm & _ & _ & Hdir).
  exists map. split; [done|]. intros i a b Ha Hb.
  destruct (layout_findPath_inv grid width height start end_)
    as (_ & _ & Hs).
  destruct (Hs path Hf) as [->|[Hg Hnd]]; [done|].
  apply grown_route_of in Hg as (_ & _ & Hc).
  destruct (chain_lookup _ _ _ _ _ Hc Ha Hb) as [[d ->] _].
  exists d. split; [done|].
  destruct (Hdir Hnd i a _ Ha Hb) as [H1 H2].
  rewrite step_dir_towards in H1, H2. done.
Qed.

Lemma flow_map_follows_route_witness :
  ∃ path,
    Pathfinding.findPath Pathfinding.lane (mkPoint 0 0) (mkPoint 2 0) 4 1
    = Ok path
    ∧ ∃ map,
        Pathfinding.calculateFlowMap path = Ok map
        ∧ ∀ i a b, path !! i = Some a → path !! S i = Some b →
            ∃ d, b = Pathfinding.towards a d
                 ∧ map !! pkey a = Some (Some d)
                 ∧ (S (S i) = length path → map !! pkey b = Some (Some d)).
Proof.
  eexists. split; [vm_compute; reflexivity|].
  apply (flow_map_follows_route Pathfinding.lane (mkPoint 0 0) (mkPoint 2 0)
           4 1).
  vm_compute. reflexivity.
Defined.

(** * The search over a layout and the route finder of the simulation *)

Lemma js_index_fmap {A B} (f : A → B) (l : list A) i :
  js_index (f <$> l) i = f <$> js_index l i.
Proof. unfold js_index. case_decide; [apply list_lookup_fmap|done]. Qed.

Lemma walkable_as_cell target c n :
  rule_walkable false target (Pathfinding.as_cell c) n
  = Pathfinding.drivable (Pathfinding.type c).
Proof.
  unfold rule_walkable, Pathfinding.as_cell, Pathfinding.drivable.
  destruct (Pathfinding.type c); reflexivity.
Qed.

Lemma allowed_degrees_as_cell c :
  allowed_degrees (Pathfinding.as_cell c) = None.
Proof. unfold allowed_degrees. simpl. by case_decide. Qed.

Lemma shaped_covers g w h :
  Pathfinding.shaped g w h → Pathfinding.covers g w h.
Proof.
  intros [Hh Hw]. split; [lia|].
  apply Forall_take. eapply Forall_impl; [exact Hw|]. simpl. lia.
Qed.

Lemma shaped_as_grid g w h :
  Pathfinding.shaped g w h → 0 < h →
  rect (Pathfinding.as_grid g)
  ∧ Z.of_nat (length (Pathfinding.as_grid g)) = h
  ∧ ∃ row0, Pathfinding.as_grid g !! 0%nat = Some row0
            ∧ Z.of_nat (length row0) = w.
Proof.
  intros [Hh Hw] Hpos. destruct g as [|r0 g]; [simpl in Hh; lia|].
  pose proof (Forall_inv Hw) as Hr0. simpl in Hr0.
  split; [|split].
  - unfold rect.
    assert (grid_width (Pathfinding.as_grid (r0 :: g)) = length r0) as ->.
    { unfold grid_width, Pathfinding.as_grid. simpl. by rewrite length_fmap. }
    unfold Pathfinding.as_grid. apply Forall_fmap.
    eapply Forall_impl; [exact Hw|]. simpl.
    intros row Hrow. rewrite length_fmap. lia.
  - unfold Pathfinding.as_grid. by rewrite length_fmap.
  - exists (Pathfinding.as_cell <$> r0). split; [done|].
    by rewrite length_fmap.
Qed.

Lemma cell_at_as_grid g w h p :
  Pathfinding.shaped g w h → in_box w h p →
  ∃ row c, js_index g (py p) = Some row ∧ js_index row (px p) = Some c
           ∧ cell_at (Pathfinding.as_grid g) p = Some (Pathfinding.as_cell c).
Proof.
  intros Hs [Hx Hy].
  destruct (covers_cell g w h (px p) (py p) (shaped_covers _ _ _ Hs) Hx Hy)
    as (row & c & Hrow & Hc).
  exists row, c. split; [done|]. split; [done|].
  unfold cell_at, Pathfinding.as_grid.
  rewrite js_index_fmap, Hrow. simpl. by rewrite js_index_fmap, Hc.
Qed.

Section Agreement.
Variables (g : list (list Pathfinding.CellData)) (w h : Z)
          (start target : Point).
Hypothesis Hshape : Pathfinding.shaped g w h.
Hypothesis Hstart : in_box w h start.

Lemma agree_visit_dir a c path q v d d' :
  same_step d d' →
  visit_dir (Pathfinding.as_grid g) w h target false a path
            (Pathfinding.as_cell c) None (q, v) d
  = Pathfinding.visit_dir g w h a path (q, v) d'.
Proof.
  intros [Hdx Hdy]. unfold visit_dir, probe, Pathfinding.visit_dir.
  cbv zeta. rewrite <- Hdx, <- Hdy. cbn [flow_blocks].
  case_bool_decide as Hbox; [|done]. cbn [andb rbind].
  destruct (cell_at_as_grid g w h (mkPoint (px a + dx d) (py a + dy d))
              Hshape) as (row & c' & Hrow & Hc' & _); [split; simpl; lia|].
  simpl in Hrow, Hc'. unfold Pathfinding.as_grid.
  rewrite js_index_fmap, Hrow. simpl.
  rewrite js_index_fmap, Hc'. simpl.
  rewrite is_walkable_rule, walkable_as_cell.
  unfold edge_solid, sub_mask_blocked. simpl.
  destruct (Pathfinding.drivable (Pathfinding.type c')); simpl.
  - unfold pkey. simpl. case_decide as Hv.
    + by rewrite bool_decide_eq_true_2.
    + by rewrite bool_decide_eq_false_2.
  - by destruct (negb _).
Qed.

Lemma agree_visit_dirs a c path ds ds' st :
  Forall2 same_step ds ds' →
  visit_dirs (Pathfinding.as_grid g) w h target false a path
             (Pathfinding.as_cell c) None ds st
  = Pathfinding.visit_dirs g w h a path ds' st.
Proof.
  intros Hds. revert st. induction Hds as [|d d' ds ds' Hd Hds IH]; intros st.
  - done.
  - cbn [visit_dirs Pathfinding.visit_dirs]. destruct st as [q v].
    rewrite (agree_visit_dir a c path q v d d' Hd).
    destruct (Pathfinding.visit_dir g w h a path (q, v) d') as [st1| |];
      [|done..].
    cbn [rbind]. apply IH.
Qed.

Lemma same_steps : Forall2 same_step directions Pathfinding.DIRECTIONS.
Proof. repeat constructor. Qed.

Lemma grown_in_box c l :
  grown (Pathfinding.drive_step g w h) start c l → in_box w h c.
Proof. destruct 1 as [|a l b _ (_ & Hx & Hy & _)]; [done|by split]. Qed.

Lemma agree_loop fuel q v :
  Pathfinding.queue_ok g w h start q v →
  findPath_loop fuel (Pathfinding.as_grid g) w h target false q v
  = Pathfinding.findPath_loop fuel g w h target q v.
Proof.
  revert q v. induction fuel as [|fuel IH]; intros q v Hq; [done|].
  rewrite findPath_loop_S, layout_loop_S.
  destruct q as [|[pos pa] rest]; [done|].
  destruct (decide _); [done|].
  destruct (Hq pos pa) as (Hg & Hnd & Hpv); [left|].
  destruct (cell_at_as_grid g w h pos Hshape (grown_in_box _ _ Hg))
    as (row & c & _ & _ & ->).
  rewrite allowed_degrees_as_cell.
  rewrite (agree_visit_dirs pos c pa _ _ (rest, v) same_steps).
  destruct (Pathfinding.visit_dirs g w h pos pa Pathfinding.DIRECTIONS
              (rest, v)) as [[q1 v1]| |] eqn:Hv; [|done..].
  cbn [rbind fst snd]. apply IH.
  eapply (layout_visit_dirs_inv g w h start pos pa Pathfinding.DIRECTIONS
            rest v q1 v1); [done..| |done].
  intros p l Hin. apply (Hq p l). by right.
Qed.

Lemma agree_findPath :
  Pathfinding.findPath g start target w h
  = findPath (Pathfinding.as_grid g) start target false.
Proof.
  assert (0 < h) as Hpos by (destruct Hstart; lia).
  destruct (shaped_as_grid g w h Hshape Hpos)
    as (_ & Hlen & row0 & Hrow0 & Hw).
  unfold findPath, Pathfinding.findPath. rewrite Hrow0.
  rewrite Hw, Hlen.
  replace (length row0 * length (Pathfinding.as_grid g))%nat
    with (Z.to_nat w * Z.to_nat h)%nat by lia.
  symmetry. apply agree_loop.
  intros pos pa Hin%list_elem_of_singleton. injection Hin as -> ->.
  split; [constructor|]. split; [apply NoDup_singleton|].
  intros p ->%list_elem_of_singleton. by apply elem_of_singleton.
Qed.
End Agreement.

(** The route finder of the simulation returns a shortest explored route. *)
Lemma findPath_grown_shortest grid start target strict :
  rect grid → in_grid grid start →
  ∃ path,
    findPath grid start target strict = Ok path
    ∧ ((path = [] ∧ ∀ l, ¬ grown (legal_step grid target strict) start target l)
       ∨ (grown (legal_step grid target strict) start target path
          ∧ ∀ l, grown (legal_step grid target strict) start target l →
                 (length path ≤ length l)%nat)).
Proof.
  intros Hrect Hstart.
  pose proof (findPath_terminates grid start target strict) as Hterm.
  unfold findPath in *.
  destruct (grid !! 0%nat) as [row0|] eqn:Hrow0.
  2:{ destruct Hstart as [_ Hy]. destruct grid; [simpl in Hy; lia|done]. }
  destruct (findPath_loop_correct grid row0 start target strict Hrow0 Hrect
              (S (S (length row0 * length grid))) (λ _, 1%nat)
              [(start, [start])] {[pkey start]}) as [Hout|(path & Hp & Hres)];
    [|done|by exists path].
  split.
  - split; [by apply elem_of_singleton|done].
  - intros pos pa Hin%list_elem_of_singleton. injection Hin as -> ->.
    split; [constructor|]. split; [done|by apply elem_of_singleton].
  - simpl. repeat constructor.
  - intros; lia.
  - intros p Hp%elem_of_singleton%pkey_inj Hnq. subst p.
    destruct Hnq. simpl. apply list_elem_of_singleton. done.
  - intros p Hp%elem_of_singleton%pkey_inj. by subst p.
Qed.

Lemma towards_move a d' :
  ∃ d, d ∈ directions ∧ Pathfinding.towards a d' = move a d.
Proof.
  unfold directions, move.
  destruct d'; simpl;
    [exists (mkDir 0 (-1) 0 Enorth Esouth)
    |exists (mkDir 0 1 180 Esouth Enorth)
    |exists (mkDir (-1) 0 270 Ewest Eeast)
    |exists (mkDir 1 0 90 Eeast Ewest)];
    (split; [repeat (first [left|right])|simpl; f_equal; lia]).
Qed.

Lemma move_towards a d :
  d ∈ directions → ∃ d', move a d = Pathfinding.towards a d'.
Proof.
  unfold directions, move. intros Hd.
  repeat (apply elem_of_cons in Hd as [->|Hd]); simpl;
    [exists Pathfinding.UP|exists Pathfinding.RIGHT|exists Pathfinding.DOWN
    |exists Pathfinding.LEFT|by apply elem_of_nil in Hd];
    simpl; f_equal; lia.
Qed.

Section Steps.
Variables (g : list (list Pathfinding.CellData)) (w h : Z) (target : Point).
Hypothesis Hshape : Pathfinding.shaped g w h.

Lemma in_box_in_grid p :
  0 < h → (in_grid (Pathfinding.as_grid g) p ↔ in_box w h p).
Proof.
  intros Hpos.
  destruct (shaped_as_grid g w h Hshape Hpos) as (_ & Hlen & row0 & Hr0 & Hw).
  unfold in_grid, in_box. rewrite (grid_width_head _ _ Hr0), Hlen, Hw. done.
Qed.

Lemma drive_step_legal a b :
  in_box w h a →
  Pathfinding.drive_step g w h a b ↔
  legal_step (Pathfinding.as_grid g) target false a b.
Proof.
  intros Ha. assert (0 < h) as Hpos by (destruct Ha; lia).
  destruct (cell_at_as_grid g w h a Hshape Ha) as (_ & ca & _ & _ & Hca).
  assert (∀ d, legal_move (Pathfinding.as_grid g) target false a d = true ↔
               in_box w h (move a d)
               ∧ ∃ row cell, js_index g (py (move a d)) = Some row
                   ∧ js_index row (px (move a d)) = Some cell
                   ∧ Pathfinding.drivable (Pathfinding.type cell) = true)
    as Hlm.
  { intros d. unfold legal_move, move_ok. rewrite Hca.
    destruct (in_box_dec w h (move a d)) as [Hb|Hb].
    - destruct (cell_at_as_grid g w h (move a d) Hshape Hb)
        as (row & cb & Hrow & Hcb & ->).
      rewrite bool_decide_eq_true_2 by (by apply in_box_in_grid).
      rewrite walkable_as_cell.
      unfold rule_flow_exit, rule_edges, rule_sub_mask, edge_solid,
        sub_mask_blocked.
      rewrite allowed_degrees_as_cell. simpl. split.
      + intros Hdr. split; [done|]. by exists row, cb.
      + intros (_ & row' & cb' & Hrow' & Hcb' & Hdr). simpl in Hrow, Hcb.
        congruence.
    - rewrite bool_decide_eq_false_2 by (by rewrite in_box_in_grid).
      simpl. split; [done|]. by intros [? _]. }
  split.
  - intros ([d' ->] & Hx & Hy & Hcell).
    destruct (towards_move a d') as (d & Hd & Heq). rewrite Heq in *.
    exists d. split; [done|]. split; [done|]. apply Hlm.
    split; [by split|done].
  - intros (d & Hd & -> & [[Hx Hy] Hcell]%Hlm).
    split; [by apply move_towards|]. done.
Qed.

Lemma grown_drive_legal start c l :
  in_box w h start →
  grown (Pathfinding.drive_step g w h) start c l ↔
  grown (legal_step (Pathfinding.as_grid g) target false) start c l.
Proof.
  intros Hstart. split.
  - induction 1 as [|a l b Hg IH Hstep]; [constructor|].
    apply grown_step with (a := a); [done|].
    apply drive_step_legal; [|done]. by eapply grown_in_box.
  - intros Hg.
    assert (grown (Pathfinding.drive_step g w h) start c l ∧ in_box w h c)
      as [? _]; [|done].
    induction Hg as [|a l b Hg [IH Ha] Hstep]; [by split; [constructor|]|].
    apply (drive_step_legal a b Ha) in Hstep.
    split; [by apply grown_step with (a := a)|].
    destruct Hstep as (_ & Hx & Hy & _). by split.
Qed.
End Steps.

(** X25: on a layout of exactly [height] rows of [width] cells and from a
    start inside it, the search over the layout returns what the route
    finder of the simulation returns, with strict flow off, on the grid in
    which the Path, Entry and Exit cells are kept, the Mall cells are Entry
    cells and all other cells are walls. *)
Theorem layout_findPath_agrees_with_findPath g start end_ w h :
  Pathfinding.shaped g w h → in_box w h start →
  Pathfinding.findPath g start end_ w h
  = findPath (Pathfinding.as_grid g) start end_ false.
Proof. apply agree_findPath. Qed.

Lemma layout_findPath_agrees_with_findPath_witness :
  Pathfinding.shaped Pathfinding.lane 4 1 ∧ in_box 4 1 (mkPoint 0 0)
  ∧ Pathfinding.findPath Pathfinding.lane (mkPoint 0 0) (mkPoint 2 0) 4 1
    = findPath (Pathfinding.as_grid Pathfinding.lane) (mkPoint 0 0)
               (mkPoint 2 0) false.
Proof.
  assert (Pathfinding.shaped Pathfinding.lane 4 1) as Hs
    by (split; [reflexivity|repeat constructor]).
  assert (in_box 4 1 (mkPoint 0 0)) as Hb by (unfold in_box; simpl; lia).
  split; [exact Hs|]. split; [exact Hb|].
  exact (layout_findPath_agrees_with_findPath Pathfinding.lane (mkPoint 0 0)
           (mkPoint 2 0) 4 1 Hs Hb).
Defined.

(** X26: on such a layout the search returns a shortest route: the sequence
    returned is empty exactly when no route of drivable steps leads from the
    start to the end, and no such route has fewer cells than it. *)
Theorem layout_findPath_shortest g start end_ w h :
  Pathfinding.shaped g w h → in_box w h start →
  ∃ path,
    Pathfinding.findPath g start end_ w h = Ok path
    ∧ (path = []
       ↔ ∀ l, ¬ route_of (Pathfinding.drive_step g w h) start end_ l)
    ∧ (path = []
       ∨ route_of (Pathfinding.drive_step g w h) start end_ path)
    ∧ ∀ l, route_of (Pathfinding.drive_step g w h) start end_ l →
           (length path ≤ length l)%nat.
Proof.
  intros Hshape Hstart. assert (0 < h) as Hpos by (destruct Hstart; lia).
  rewrite (agree_findPath g w h start end_ Hshape Hstart).
  destruct (shaped_as_grid g w h Hshape Hpos) as (Hrect & _).
  destruct (findPath_grown_shortest (Pathfinding.as_grid g) start end_ false
              Hrect) as (path & Hf & Hres).
  { by apply (in_box_in_grid g w h Hshape). }
  exists path. split; [done|].
  destruct Hres as [[-> Hnone]|[Hg Hmin]].
  - split; [|split; [by left|simpl; intros; lia]].
    split; [|done]. intros _ l Hl%route_of_grown.
    apply (Hnone l). by apply (grown_drive_legal g w h end_ Hshape).
  - pose proof (grown_length _ _ _ _ Hg) as Hlen.
    apply (grown_drive_legal g w h end_ Hshape) in Hg; [|done].
    split; [|split].
    + split; [intros ->; simpl in Hlen; lia|].
      intros Hnone. destruct (Hnone path). by apply grown_route_of.
    + right. by apply grown_route_of.
    + intros l Hl%route_of_grown. apply Hmin.
      by apply (grown_drive_legal g w h end_ Hshape).
Qed.

Lemma layout_findPath_shortest_witness :
  Pathfinding.shaped Pathfinding.lane 4 1 ∧ in_box 4 1 (mkPoint 0 0)
  ∧ ∃ path,
      Pathfinding.findPath Pathfinding.lane (mkPoint 0 0) (mkPoint 2 0) 4 1
      = Ok path
      ∧ (path = []
         ↔ ∀ l, ¬ route_of (Pathfinding.drive_step Pathfinding.lane 4 1)
                           (mkPoint 0 0) (mkPoint 2 0) l)
      ∧ (path = []
         ∨ route_of (Pathfinding.drive_step Pathfinding.lane 4 1)
                    (mkPoint 0 0) (mkPoint 2 0) path)
      ∧ ∀ l, route_of (Pathfinding.drive_step Pathfinding.lane 4 1)
                      (mkPoint 0 0) (mkPoint 2 0) l →
             (length path ≤ length l)%nat.
Proof.
  assert (Pathfinding.shaped Pathfinding.lane 4 1) as Hs
    by (split; [reflexivity|repeat constructor]).
  assert (in_box 4 1 (mkPoint 0 0)) as Hb by (unfold in_box; simpl; lia).
  split; [exact Hs|]. split; [exact Hb|].
  exact (layout_findPath_shortest Pathfinding.lane (mkPoint 0 0)
           (mkPoint 2 0) 4 1 Hs Hb).
Defined.


(** * The undo / redo history of the editor *)

Lemma commit_history prevGrid s :
  Editor.history (Editor.commitToHistory prevGrid s)
  = (if bool_decide (50 ≤ length (Editor.history s))%nat
     then drop 1 (Editor.history s) else Editor.history s) ++ [prevGrid].
Proof.
  unfold Editor.commitToHistory. simpl. rewrite length_app. simpl.
  case_bool_decide as H1; case_bool_decide as H2; try lia; [|done].
  apply drop_app_le. lia.
Qed.

Lemma take_all_but_last {A} (l : list A) x :
  take (length (l ++ [x]) - 1) (l ++ [x]) = l.
Proof.
  rewrite length_app. simpl.
  replace (length l + 1 - 1)%nat with (length l) by lia.
  by rewrite take_app_length.
Qed.

Lemma undo_snoc st g h x r c o :
  Editor.handleUndo (Editor.mkState st g (h ++ [x]) r c o)
  = Editor.mkState st x h (g :: r)
      (if decide (st = Editor.simulate) then [] else c)
      (if decide (st = Editor.simulate) then ∅ else o).
Proof.
  unfold Editor.handleUndo. cbn [Editor.history]. rewrite last_snoc.
  rewrite take_all_but_last. by destruct (decide _).
Qed.

Lemma redo_cons st g h x r c o :
  Editor.handleRedo (Editor.mkState st g h (x :: r) c o)
  = Editor.mkState st x (h ++ [g]) r
      (if decide (st = Editor.simulate) then [] else c)
      (if decide (st = Editor.simulate) then ∅ else o).
Proof. unfold Editor.handleRedo. simpl. by destruct (decide _). Qed.

(** X27: undoing an edit made through a button gives back the grid as it
    was before the edit, whatever the edit and the length of the history;
    the edited grid becomes the one entry of the redo stack, and the history
    is the one before the edit, less its oldest entry when it already held
    fifty grids. *)
Theorem undo_restores_edited_grid action s :
  Editor.grid (Editor.handleUndo (Editor.performAtomicEdit action s))
  = Editor.grid s
  ∧ Editor.redoStack (Editor.handleUndo (Editor.performAtomicEdit action s))
    = [action (Editor.grid s)]
  ∧ Editor.history (Editor.handleUndo (Editor.performAtomicEdit action s))
    = (if bool_decide (50 ≤ length (Editor.history s))%nat
       then drop 1 (Editor.history s) else Editor.history s).
Proof.
  unfold Editor.performAtomicEdit. cbv zeta.
  rewrite commit_history. cbn [Editor.grid Editor.commitToHistory
    Editor.step Editor.redoStack Editor.cars Editor.occupiedSpots].
  rewrite undo_snoc. done.
Qed.

(** X28: redo takes back an undo. After an undo that found something in the
    history, a redo gives the state before the undo: the same grid, the same
    history and the same redo stack; during a simulation the vehicles have
    been cleared meanwhile. *)
Theorem redo_after_undo s :
  Editor.history s ≠ [] →
  Editor.handleRedo (Editor.handleUndo s)
  = (if decide (Editor.step s = Editor.simulate)
     then Editor.handleClearVehicles s else s).
Proof.
  destruct s as [st g h r c o]. simpl. intros Hne.
  destruct h as [|x h _] using rev_ind; [done|].
  rewrite undo_snoc, redo_cons. unfold Editor.handleClearVehicles. simpl.
  by destruct (decide _).
Qed.

Lemma redo_after_undo_witness :
  Editor.history Editor.sample ≠ []
  ∧ Editor.handleRedo (Editor.handleUndo Editor.sample)
    = (if decide (Editor.step Editor.sample = Editor.simulate)
       then Editor.handleClearVehicles Editor.sample else Editor.sample).
Proof.
  assert (Editor.history Editor.sample ≠ []) as Hne by (simpl; discriminate).
  split; [exact Hne|]. exact (redo_after_undo Editor.sample Hne).
Defined.

(** X29: undo takes back a redo, in the same way. *)
Theorem undo_after_redo s :
  Editor.redoStack s ≠ [] →
  Editor.handleUndo (Editor.handleRedo s)
  = (if decide (Editor.step s = Editor.simulate)
     then Editor.handleClearVehicles s else s).
Proof.
  destruct s as [st g h r c o]. simpl. intros Hne.
  destruct r as [|x r]; [done|].
  rewrite redo_cons, undo_snoc. unfold Editor.handleClearVehicles. simpl.
  by destruct (decide _).
Qed.

Lemma undo_after_redo_witness :
  Editor.redoStack Editor.sample ≠ []
  ∧ Editor.handleUndo (Editor.handleRedo Editor.sample)
    = (if decide (Editor.step Editor.sample = Editor.simulate)
       then Editor.handleClearVehicles Editor.sample else Editor.sample).
Proof.
  assert (Editor.redoStack Editor.sample ≠ []) as Hne
    by (simpl; discriminate).
  split; [exact Hne|]. exact (undo_after_redo Editor.sample Hne).
Defined.

Lemma act_bounded s a : Editor.bounded s → Editor.bounded (Editor.act s a).
Proof.
  unfold Editor.bounded. destruct s as [st g h r c o]. simpl.
  intros Hb. destruct a as [| |prevGrid|action|newGrid];
    cbn [Editor.act].
  - destruct h as [|x h _] using rev_ind; [done|].
    rewrite undo_snoc. rewrite length_app in Hb. simpl in *. lia.
  - destruct r as [|x r]; [done|].
    rewrite redo_cons. simpl in *. rewrite length_app. simpl. lia.
  - rewrite commit_history. cbn [Editor.commitToHistory Editor.redoStack
      Editor.history]. rewrite length_app. simpl.
    case_bool_decide; [rewrite length_drop|]; lia.
  - unfold Editor.performAtomicEdit. cbv zeta.
    cbn [Editor.history Editor.redoStack].
    rewrite commit_history. cbn [Editor.commitToHistory Editor.redoStack
      Editor.history Editor.grid]. rewrite length_app. simpl.
    case_bool_decide; [rewrite length_drop|]; lia.
  - done.
Qed.

(** X30: the history and the redo stack never hold more than fifty grids
    together, whatever the user does, although a redo appends to the history
    without testing its length. *)
Theorem history_never_exceeds_fifty s l :
  Editor.bounded s →
  Editor.bounded (Editor.acts s l)
  ∧ (length (Editor.history (Editor.acts s l)) ≤ 50)%nat.
Proof.
  intros Hb.
  assert (Editor.bounded (Editor.acts s l)) as Hl.
  { unfold Editor.acts. revert s Hb.
    induction l as [|a l IH]; intros s Hb; [done|].
    simpl. apply IH. by apply act_bounded. }
  split; [done|]. unfold Editor.bounded in Hl. lia.
Qed.

Lemma history_never_exceeds_fifty_witness :
  Editor.bounded Editor.sample
  ∧ Editor.bounded
      (Editor.acts Editor.sample
         [Editor.Redo; Editor.AtomicEdit (λ g, g); Editor.Undo])
  ∧ (length (Editor.history
               (Editor.acts Editor.sample
                  [Editor.Redo; Editor.AtomicEdit (λ g, g); Editor.Undo]))
     ≤ 50)%nat.
Proof.
  assert (Editor.bounded Editor.sample) as Hb
    by (unfold Editor.bounded; simpl; lia).
  split; [exact Hb|].
  exact (history_never_exceeds_fifty Editor.sample
           [Editor.Redo; Editor.AtomicEdit (λ g, g); Editor.Undo] Hb).
Defined.
